(** * otree: the concurrent command runner of [bin/otree.js]

    A shallow embedding of the line classifier ([extractUrls],
    [isErrorLine], [shouldShowLine]), of the per-worktree output callback
    and of the summary printed by [runCommand], together with the
    properties the specification states about them.

    A JavaScript string is modelled as the list of the bytes of its UTF-8
    encoding: the text that git and the child processes write reaches the
    program decoded from UTF-8, and the literals of the program are
    written here in that encoding too. A character of ASCII is one byte;
    a character beyond ASCII is a sequence of bytes from 128 on. The
    pattern characters and the keywords of the program are ASCII, so
    that searching a text for them byte by byte finds what the program
    finds; white space beyond ASCII is recognised by its encoding. *)

From Stdlib Require Import List Ascii String Bool Arith ZArith Lia.
From Stdlib Require Import DecimalString Sorted.
Import ListNotations.

Local Open Scope list_scope.

Abbreviation jsstring := (list ascii).

(** String literals: [$"abc"] is the JavaScript string "abc". *)
Notation "$ s" := (list_ascii_of_string s%string) (at level 1, s at level 0, format "$ s").

(** ** Characters *)

Module Char.

Definition code (c : ascii) : nat := nat_of_ascii c.

Definition isDigit (c : ascii) : bool :=
  (48 <=? code c) && (code c <=? 57).

Definition isLower (c : ascii) : bool :=
  (97 <=? code c) && (code c <=? 122).

Definition isUpper (c : ascii) : bool :=
  (65 <=? code c) && (code c <=? 90).

(** [toUpperCase] and [toLowerCase] on one character. *)
Definition toUpper (c : ascii) : ascii :=
  if isLower c then ascii_of_nat (code c - 32) else c.

Definition toLower (c : ascii) : ascii :=
  if isUpper c then ascii_of_nat (code c + 32) else c.

Definition isAscii (c : ascii) : bool := code c <? 128.

(** The white space and the line terminators of one byte: TAB, LF, VT,
    FF, CR and SPACE. *)
Definition isSpace (c : ascii) : bool :=
  ((9 <=? code c) && (code c <=? 13)) || (code c =? 32).

Definition eqb (a b : ascii) : bool := Ascii.eqb a b.

End Char.

(** ** Strings *)

Module Str.

Definition eq_dec : forall a b : jsstring, {a = b} + {a <> b} :=
  list_eq_dec ascii_dec.

(** [s.substring(i, i + n)] *)
Definition substr (i n : nat) (s : jsstring) : jsstring :=
  firstn n (skipn i s).

(** [s.toLowerCase()], as far as a search for ASCII text can tell: the
    ASCII letters are lowered and the other bytes stay. The lower-case
    form of a character beyond ASCII is beyond ASCII too, but for
    U+212A, which becomes k, and for U+0130, which becomes i followed by
    U+0307; the keywords that the program looks for have no k, and a
    letter after every i. *)
Definition toLowerCase (s : jsstring) : jsstring := map Char.toLower s.

Fixpoint startsWith (p s : jsstring) : bool :=
  match p with
  | [] => true
  | a :: p' =>
      match s with
      | [] => false
      | b :: s' => Char.eqb a b && startsWith p' s'
      end
  end.

(** [s.includes(k)] *)
Fixpoint includes (k s : jsstring) : bool :=
  startsWith k s ||
  match s with
  | [] => false
  | _ :: s' => includes k s'
  end.

(** *** [String.prototype.trim]

    [trim] strips the white space and the line terminators of the
    language from both ends: those of one byte ([Char.isSpace]) and,
    beyond ASCII, U+00A0, U+1680, U+2000 to U+200A, U+2028, U+2029,
    U+202F, U+205F, U+3000 and U+FEFF. *)

Definition bytes (codes : list nat) : jsstring := map ascii_of_nat codes.

Definition wideSpaces : list jsstring :=
  [ bytes [194; 160]; bytes [225; 154; 128] ]
  ++ map (fun n => bytes [226; 128; n]) (seq 128 11)
  ++ [ bytes [226; 128; 168]; bytes [226; 128; 169]; bytes [226; 128; 175];
       bytes [226; 129; 159]; bytes [227; 128; 128]; bytes [239; 187; 191] ].

(** The number of bytes of the white space character that [s] starts
    with, if it starts with one. *)
Definition spaceAt (s : jsstring) : option nat :=
  match s with
  | [] => None
  | c :: _ =>
      if Char.isSpace c then Some 1
      else option_map (@List.length ascii)
                      (find (fun w => startsWith w s) wideSpaces)
  end.

(** The number of bytes of the white space character that a string ends
    with, if it ends with one; [t] is the string read from its end. *)
Definition spaceBefore (t : jsstring) : option nat :=
  match t with
  | [] => None
  | c :: _ =>
      if Char.isSpace c then Some 1
      else option_map (@List.length ascii)
                      (find (fun w => startsWith (rev w) t) wideSpaces)
  end.

(** [s] without the white space characters that [spaceLen] finds at its
    start, one after the other; [skip] counts the bytes left of the
    character being stripped. *)
Fixpoint strip (spaceLen : jsstring -> option nat) (skip : nat) (s : jsstring)
  : jsstring :=
  match skip with
  | S k =>
      match s with
      | [] => []
      | _ :: s' => strip spaceLen k s'
      end
  | 0 =>
      match spaceLen s with
      | Some n =>
          match s with
          | [] => []
          | _ :: s' => strip spaceLen (n - 1) s'
          end
      | None => s
      end
  end.

Definition trimStart (s : jsstring) : jsstring := strip spaceAt 0 s.

Definition trimEnd (s : jsstring) : jsstring :=
  rev (strip spaceBefore 0 (rev s)).

Definition trim (s : jsstring) : jsstring := trimEnd (trimStart s).

(** [s.split(sep)] for a one-character separator: the pieces between the
    separators, an empty string giving one empty piece. *)
Fixpoint split (sep : ascii) (s : jsstring) : list jsstring :=
  match s with
  | [] => [[]]
  | c :: s' =>
      if Char.eqb c sep then [] :: split sep s'
      else
        match split sep s' with
        | [] => [[c]]
        | p :: ps => (c :: p) :: ps
        end
  end.

End Str.

(** ** The [Set] of JavaScript, as far as [[...new Set(xs)]] uses it

    A [Set] keeps its elements in insertion order; [add] leaves the set
    alone when the value is already in it. *)

Module JsSet.
Section JsSet.

Context {A : Type} (eq_dec : forall a b : A, {a = b} + {a <> b}).

Definition has (s : list A) (x : A) : bool :=
  if in_dec eq_dec x s then true else false.

Definition add (s : list A) (x : A) : list A :=
  if has s x then s else s ++ [x].

(** [new Set(xs)] followed by spreading it into an array. *)
Definition spread_new (xs : list A) : list A :=
  fold_left add xs [].

End JsSet.
End JsSet.

(** ** Regular expressions

    The fragment of the pattern language that [urlPattern] uses, with the
    backtracking semantics of the language: [matches r s] lists the
    lengths of the prefixes of [s] that [r] can match, in the order in
    which backtracking tries them. *)

Module Regex.

Inductive regex : Type :=
| Chr (c : ascii)
| Digit
| Seq (r1 r2 : regex)
| Alt (r1 r2 : regex)
| Opt (r : regex)
| Plus (r : regex).

(** The canonical form of a character under the [i] flag: its upper-case
    form, a character beyond ASCII never becoming an ASCII one. *)
Definition canonicalize (ignoreCase : bool) (c : ascii) : ascii :=
  if ignoreCase then Char.toUpper c else c.

Section Matcher.

Variable ignoreCase : bool.

Definition matchChar (p : ascii -> bool) (s : jsstring) : list nat :=
  match s with
  | c :: _ => if p c then [1] else []
  | [] => []
  end.

(** Greedy repetition, zero or more times: an iteration that matches the
    empty string is given up. *)
Fixpoint star (m : jsstring -> list nat) (fuel : nat) (s : jsstring)
  : list nat :=
  match fuel with
  | 0 => [0]
  | S fuel' =>
      flat_map
        (fun n =>
           if n =? 0 then []
           else map (Nat.add n) (star m fuel' (skipn n s)))
        (m s)
      ++ [0]
  end.

Fixpoint matches (r : regex) (s : jsstring) : list nat :=
  match r with
  | Chr c =>
      matchChar
        (fun a => Char.eqb (canonicalize ignoreCase a)
                           (canonicalize ignoreCase c)) s
  | Digit => matchChar Char.isDigit s
  | Seq r1 r2 =>
      flat_map (fun n => map (Nat.add n) (matches r2 (skipn n s)))
               (matches r1 s)
  | Alt r1 r2 => matches r1 s ++ matches r2 s
  | Opt r1 => matches r1 s ++ [0]
  | Plus r1 =>
      flat_map
        (fun n => map (Nat.add n)
                      (star (matches r1) (S (List.length s)) (skipn n s)))
        (matches r1 s)
  end.

(** The match at the start of [s]: the first one backtracking finds. *)
Definition exec (r : regex) (s : jsstring) : option nat :=
  hd_error (matches r s).

(** [s.match(r)] for a regular expression with the [g] flag: the matches
    from left to right, each search starting where the previous match
    ended (one character further after an empty match). [skip] counts
    the characters still covered by the previous match; the results are
    (index, length) pairs, [pos] being the index of [s] in the text. *)
Fixpoint scan (r : regex) (pos skip : nat) (s : jsstring)
  : list (nat * nat) :=
  match skip with
  | S k =>
      match s with
      | [] => []
      | _ :: s' => scan r (S pos) k s'
      end
  | 0 =>
      match exec r s with
      | Some n =>
          (pos, n) ::
          match s with
          | [] => []
          | _ :: s' => scan r (S pos) (n - 1) s'
          end
      | None =>
          match s with
          | [] => []
          | _ :: s' => scan r (S pos) 0 s'
          end
      end
  end.

Definition matchPositions (r : regex) (text : jsstring) : list (nat * nat) :=
  scan r 0 0 text.

(** [text.match(r)]: [None] stands for [null]. *)
Definition matchGlobal (r : regex) (text : jsstring) : option (list jsstring) :=
  match matchPositions r text with
  | [] => None
  | ps => Some (map (fun p => Str.substr (fst p) (snd p) text) ps)
  end.

End Matcher.

(** A run of pattern characters. *)
Fixpoint lit (w : jsstring) (k : regex) : regex :=
  match w with
  | [] => k
  | c :: w' => Seq (Chr c) (lit w' k)
  end.

End Regex.

(** ** Line classifier *)

Import Regex.

(** [/https?:\/\/localhost:\d+|http:\/\/127\.0\.0\.1:\d+|localhost:\d+/gi] *)
Definition urlPattern : regex :=
  Alt (lit $"http" (Seq (Opt (Chr "s")) (lit $"://localhost:" (Plus Digit))))
      (Alt (lit $"http://127.0.0.1:" (Plus Digit))
           (lit $"localhost:" (Plus Digit))).

Definition extractUrls (text : jsstring) : list jsstring :=
  let matches :=
    match matchGlobal true urlPattern text with
    | Some ms => ms
    | None => []
    end in
  JsSet.spread_new Str.eq_dec matches.

Definition errorKeywords : list jsstring :=
  [ $"error"; $"failed"; $"failure"; $"exception"; $"fatal"; $"cannot";
    $"unable to"; $"not found"; $"enoent"; $"eacces"; $"warn"; $"warning" ].

Definition isErrorLine (text : jsstring) : bool :=
  let lowerText := Str.toLowerCase text in
  existsb (fun keyword => Str.includes keyword lowerText) errorKeywords.

Definition importantKeywords : list jsstring :=
  [ $"ready"; $"listening"; $"started"; $"running on"; $"available on";
    $"local:"; $"server running" ].

Definition shouldShowLine (line : jsstring) : bool :=
  if 0 <? List.length (extractUrls line) then true
  else if isErrorLine line then true
  else
    let lowerLine := Str.toLowerCase line in
    if existsb (fun keyword => Str.includes keyword lowerLine)
               importantKeywords
    then true
    else false.

(** ** Console styling

    The styling functions of the [chalk] library that the runner calls.
    The program only wraps text in them; what they add depends on the
    terminal. *)

Record Chalk : Type := {
  cyan : jsstring -> jsstring;
  yellow : jsstring -> jsstring;
  green : jsstring -> jsstring;
  magenta : jsstring -> jsstring;
  blue : jsstring -> jsstring;
  red : jsstring -> jsstring;
  gray : jsstring -> jsstring;
  greenBright : jsstring -> jsstring;
  yellowBright : jsstring -> jsstring;
  blueBright : jsstring -> jsstring;
  magentaBright : jsstring -> jsstring;
  cyanBright : jsstring -> jsstring;
  bold : jsstring -> jsstring;
  bold_green : jsstring -> jsstring;
  underline : jsstring -> jsstring
}.

(** [chalk] on a stream without colour support: the text unchanged. *)
Definition plainChalk : Chalk :=
  let same := fun s : jsstring => s in
  Build_Chalk same same same same same same same same same same same same
              same same same.

(** ** Data of a run *)

Record Worktree : Type := {
  path : jsstring;
  branch : jsstring;
  commit : jsstring
}.

(** An element of [processInfos]. *)
Record ProcessInfo : Type := {
  worktree : Worktree;
  urls : list jsstring;
  output : list jsstring
}.

(** What a child process sends to the handlers that
    [runCommandInWorktree] installs: a chunk on stdout or stderr, the
    [close] event with the exit code ([None] for [null]) and the [error]
    event. *)
Inductive ChildEvent : Type :=
| Data (chunk : jsstring)
| Close (code : option Z)
| SpawnError (message : jsstring).

(** The promise that [runCommandInWorktree] returns. *)
Inductive PromiseState : Type :=
| Pending
| Fulfilled
| Rejected (message : jsstring).

Definition showZ (z : Z) : jsstring :=
  list_ascii_of_string (NilZero.string_of_int (Z.to_int z)).

Definition showNat (n : nat) : jsstring :=
  list_ascii_of_string (NilEmpty.string_of_uint (Nat.to_uint n)).

Definition showCode (code : option Z) : jsstring :=
  match code with
  | Some z => showZ z
  | None => $"null"
  end.

(** A promise is settled once: [resolve] and [reject] do nothing on a
    settled promise. *)
Definition resolve (p : PromiseState) : PromiseState :=
  match p with
  | Pending => Fulfilled
  | _ => p
  end.

Definition reject (message : jsstring) (p : PromiseState) : PromiseState :=
  match p with
  | Pending => Rejected message
  | _ => p
  end.

(** The [close] and [error] handlers of [runCommandInWorktree]. *)
Definition onClose (code : option Z) (p : PromiseState) : PromiseState :=
  match code with
  | Some 0%Z => resolve p
  | _ => reject ($"Command exited with code " ++ showCode code) p
  end.

Definition onError (message : jsstring) (p : PromiseState) : PromiseState :=
  reject message p.

Definition isSettled (p : PromiseState) : bool :=
  match p with
  | Pending => false
  | _ => true
  end.

(** A route is used when it is truthy: neither [null] nor empty. *)
Definition truthy (route : option jsstring) : bool :=
  match route with
  | Some (_ :: _) => true
  | _ => false
  end.

Definition routeText (route : option jsstring) : jsstring :=
  match route with
  | Some r => r
  | None => []
  end.

(** [route.startsWith("/") ? route : `/${route}`] *)
Definition normalizedRoute (route : jsstring) : jsstring :=
  if Str.startsWith $"/" route then route else $"/" ++ route.

Fixpoint mapi_from {A B : Type} (f : nat -> A -> B) (i : nat) (l : list A)
  : list B :=
  match l with
  | [] => []
  | x :: l' => f i x :: mapi_from f (S i) l'
  end.

(** [l.map((x, index) => f index x)] *)
Definition mapi {A B : Type} (f : nat -> A -> B) (l : list A) : list B :=
  mapi_from f 0 l.

(** [l[i] = f(l[i])] for an index in range. *)
Fixpoint update {A : Type} (i : nat) (f : A -> A) (l : list A) : list A :=
  match l, i with
  | [], _ => []
  | x :: l', 0 => f x :: l'
  | x :: l', S j => x :: update j f l'
  end.

(** ** The runner *)

Section Runner.

Variable chalk : Chalk.

Definition getWorktreeColor (index : nat) : jsstring -> jsstring :=
  let colors :=
    [ cyan chalk; yellow chalk; green chalk; magenta chalk; blue chalk;
      red chalk; gray chalk; greenBright chalk; yellowBright chalk;
      blueBright chalk; magentaBright chalk; cyanBright chalk ] in
  nth (index mod List.length colors) colors (fun s => s).

(** The tag in front of the lines of worktree [index]. *)
Definition linePrefix (index : nat) (wt : Worktree) : jsstring :=
  getWorktreeColor index ($"[" ++ branch wt ++ $"]").

(** The line that shows a URL with the route appended. *)
Definition routeLine (prefix routeUrl : jsstring) : jsstring :=
  prefix ++ $" " ++ gray chalk $"┃ Route  " ++ $" " ++ green chalk routeUrl.

(** The body of [chunk.split("\n").forEach(...)]: what one line of a chunk
    writes to the console. *)
Definition renderLine (verbose : bool) (route : option jsstring)
    (prefix line : jsstring) : list jsstring :=
  let trimmedLine := Str.trim line in
  match trimmedLine with
  | [] => []
  | _ :: _ =>
      if verbose then [prefix ++ $" " ++ line]
      else if shouldShowLine trimmedLine then
        if isErrorLine trimmedLine then
          [prefix ++ $" " ++ red chalk line]
        else if 0 <? List.length (extractUrls trimmedLine) then
          (prefix ++ $" " ++ green chalk line) ::
          (if truthy route then
             let lineUrls := extractUrls trimmedLine in
             map (fun url =>
                    routeLine prefix (url ++ normalizedRoute (routeText route)))
                 lineUrls
           else [])
        else [prefix ++ $" " ++ line]
      else []
  end.

(** The callback given to [runCommandInWorktree]: the new state of
    [processInfos[index]] and the lines written to the console. *)
Definition onOutput (verbose : bool) (route : option jsstring)
    (prefix : jsstring) (info : ProcessInfo) (chunk : jsstring)
  : ProcessInfo * list jsstring :=
  let info' :=
    {| worktree := worktree info;
       urls := urls info ++ extractUrls chunk;
       output := output info ++ [chunk] |} in
  (info', flat_map (renderLine verbose route prefix)
                   (Str.split "010"%char chunk)).

(** *** The summary *)

(** The URLs of one block of the summary: [[...new Set(info.urls)]]. *)
Definition uniqueUrls (info : ProcessInfo) : list jsstring :=
  JsSet.spread_new Str.eq_dec (urls info).

Definition summaryUrlLines (route : option jsstring) (url : jsstring)
  : list jsstring :=
  ($"  " ++ gray chalk $"→" ++ $" " ++ underline chalk url) ::
  (if truthy route then
     [ $"  " ++ gray chalk $"  Route:" ++ $" "
       ++ underline chalk (url ++ normalizedRoute (routeText route)) ]
   else []).

Definition statusGlyph (result : PromiseState) : jsstring :=
  match result with
  | Fulfilled => green chalk $"✓"
  | _ => red chalk $"✗"
  end.

(** The body of [processInfos.forEach((info, index) => ...)]. *)
Definition summaryBlock (route : option jsstring) (index : nat)
    (info : ProcessInfo) (result : PromiseState) : list jsstring :=
  [ statusGlyph result ++ $" "
    ++ getWorktreeColor index (branch (worktree info))
    ++ $" (" ++ path (worktree info) ++ $")" ]
  ++ (if 0 <? List.length (urls info) then
        flat_map (summaryUrlLines route) (uniqueUrls info)
      else [])
  ++ match result with
     | Rejected message => [ $"  " ++ red chalk $"Error:" ++ $" " ++ message ]
     | _ => []
     end
  ++ [ [] ].

(** The URLs of the global section:
    [[...new Set(processInfos.flatMap((info) => info.urls))]]. *)
Definition allUniqueUrls (processInfos : list ProcessInfo) : list jsstring :=
  let allUrls := flat_map urls processInfos in
  JsSet.spread_new Str.eq_dec allUrls.

Definition globalUrlLines (route : option jsstring) (url : jsstring)
  : list jsstring :=
  ($"  " ++ cyan chalk $"•" ++ $" " ++ underline chalk url) ::
  (if truthy route then
     [ $"    " ++ gray chalk $"Route:" ++ $" "
       ++ underline chalk (url ++ normalizedRoute (routeText route)) ]
   else []).

Definition globalSection (route : option jsstring)
    (processInfos : list ProcessInfo) : list jsstring :=
  let uniqueUrls := allUniqueUrls processInfos in
  if 0 <? List.length uniqueUrls then
    [ bold_green chalk $"🌐 All running services:
" ]
    ++ flat_map (globalUrlLines route) uniqueUrls
    ++ [ [] ]
  else [].

(** Everything printed after [Promise.allSettled]; [results] are the
    settled states of the promises, in the order of [processInfos]. *)
Definition printSummary (route : option jsstring)
    (processInfos : list ProcessInfo) (results : list PromiseState)
  : list jsstring :=
  [ bold chalk $"

📊 Summary:
" ]
  ++ List.concat (mapi (fun index info =>
                     summaryBlock route index info
                                  (nth index results Pending))
                  processInfos)
  ++ globalSection route processInfos.

End Runner.

(** ** The configuration file

    The configuration file holds an object with these keys, each of which
    may be missing; the values are strings and arrays of strings. *)

Record Config : Type := {
  defaultCommand : option jsstring;
  savedCommands : option (list jsstring);
  defaultRoute : option jsstring;
  savedRoutes : option (list jsstring);
  filesToCopy : option (list jsstring)
}.

(** [{}] *)
Definition emptyConfig : Config :=
  {| defaultCommand := None; savedCommands := None; defaultRoute := None;
     savedRoutes := None; filesToCopy := None |}.

(** What [loadConfig] finds in the current directory: no file, a file
    that cannot be read or parsed, or a file with an object. *)
Inductive ConfigFile : Type :=
| NoConfigFile
| BadConfigFile
| ConfigFileWith (config : Config).

(** The object that [loadConfig] returns and the lines it writes. *)
Definition loadConfig (chalk : Chalk) (file : ConfigFile)
  : Config * list jsstring :=
  match file with
  | NoConfigFile => (emptyConfig, [])
  | BadConfigFile =>
      (emptyConfig, [yellow chalk $"Warning: Could not parse config file"])
  | ConfigFileWith config => (config, [])
  end.

(** *** [runCommand]

    The steps of [runCommand] that read the outside world are given by
    their results: the configuration file that [loadConfig] finds, the
    worktrees that [parseWorktrees] returns for the output of git (or
    the message of the error that git raised), the answer to the
    selection prompt, the command and the route after the
    options, the configuration file and the prompts have settled them
    (with the lines this printed), and the events that the child
    processes send, in the order in which the event loop delivers them. *)

Record Resolved : Type := {
  res_command : jsstring;
  res_route : option jsstring;
  res_log : list jsstring
}.

Record Env : Type := {
  config_file : ConfigFile;
  git_worktrees : jsstring + list Worktree;
  opt_all : bool;
  opt_verbose : bool;
  prompt_selected : list Worktree;
  resolved : Resolved;
  events : list (nat * ChildEvent)
}.

(** The state that the handlers share while the children run. *)
Record RunState : Type := {
  processInfos : list ProcessInfo;
  runPromises : list PromiseState;
  console : list jsstring
}.

(** What [runCommand] did: the lines written with [console.log] and
    [console.error], the processes spawned (working directory and
    command), the array that [Promise.allSettled] gave ([None] while a
    promise is pending: the function is still waiting), the part of the
    console written from the summary on, and the exit code when
    [process.exit] was called. *)
Record Run : Type := {
  run_console : list jsstring;
  run_errors : list jsstring;
  run_spawned : list (jsstring * jsstring);
  run_results : option (list PromiseState);
  run_summary : list jsstring;
  run_exit : option nat
}.

Section RunCommand.

Variable chalk : Chalk.

Definition quote : jsstring := ["034"%char].

(** One event of a child, handled: a chunk goes through the callback of
    its worktree, [close] and [error] settle its promise. *)
Definition handle (verbose : bool) (route : option jsstring)
    (selectedWorktrees : list Worktree) (st : RunState)
    (e : nat * ChildEvent) : RunState :=
  let index := fst e in
  match snd e with
  | Data chunk =>
      match nth_error selectedWorktrees index,
            nth_error (processInfos st) index with
      | Some wt, Some info =>
          let prefix := linePrefix chalk index wt in
          let r := onOutput chalk verbose route prefix info chunk in
          {| processInfos := update index (fun _ => fst r) (processInfos st);
             runPromises := runPromises st;
             console := console st ++ snd r |}
      | _, _ => st
      end
  | Close code =>
      {| processInfos := processInfos st;
         runPromises := update index (onClose code) (runPromises st);
         console := console st |}
  | SpawnError message =>
      {| processInfos := processInfos st;
         runPromises := update index (onError message) (runPromises st);
         console := console st |}
  end.

(** [await Promise.allSettled(runPromises)]: events are handled until
    every promise is settled; [None] when the events end before that. *)
Fixpoint awaitAllSettled (verbose : bool) (route : option jsstring)
    (selectedWorktrees : list Worktree) (st : RunState)
    (evs : list (nat * ChildEvent))
  : option (RunState * list (nat * ChildEvent)) :=
  if forallb isSettled (runPromises st) then Some (st, evs)
  else
    match evs with
    | [] => None
    | e :: evs' =>
        awaitAllSettled verbose route selectedWorktrees
                        (handle verbose route selectedWorktrees st e) evs'
    end.

Definition handleAll (verbose : bool) (route : option jsstring)
    (selectedWorktrees : list Worktree) (st : RunState)
    (evs : list (nat * ChildEvent)) : RunState :=
  fold_left (handle verbose route selectedWorktrees) evs st.

Definition returned (lines : list jsstring) : Run :=
  {| run_console := lines; run_errors := []; run_spawned := [];
     run_results := None; run_summary := []; run_exit := None |}.

(** The header of the run and the state before the first event: the
    [processInfos] made from the selection, and a pending promise for
    every process spawned. *)
Definition runHeader (command : jsstring) (selectedWorktrees : list Worktree)
  : jsstring :=
  bold chalk
    ($"
🚀 Running " ++ quote ++ command ++ quote ++ $" in "
     ++ showNat (List.length selectedWorktrees)
     ++ $" worktree(s)...
").

Definition initialState (lines : list jsstring)
    (selectedWorktrees : list Worktree) : RunState :=
  {| processInfos :=
       map (fun wt => {| worktree := wt; urls := []; output := [] |})
           selectedWorktrees;
     runPromises := map (fun _ => Pending) selectedWorktrees;
     console := lines |}.

(** The worktrees the command runs in: all of them with [--all], else
    the answer to the prompt. *)
Definition selection (env : Env) (worktrees : list Worktree) : list Worktree :=
  if opt_all env then worktrees else prompt_selected env.

(** [loadConfig] comes first: its warning is written before git is
    asked for the worktrees. *)
Definition runCommand (env : Env) : Run :=
  let loaded := snd (loadConfig chalk (config_file env)) in
  let verbose := opt_verbose env in
  match git_worktrees env with
  | inl message =>
      {| run_console := loaded;
         run_errors := [red chalk $"Error running command:" ++ $" " ++ message];
         run_spawned := []; run_results := None; run_summary := [];
         run_exit := Some 1 |}
  | inr worktrees =>
      if List.length worktrees =? 0 then
        returned (loaded ++ [yellow chalk $"No worktrees found."])
      else
        let selectedWorktrees := selection env worktrees in
        if List.length selectedWorktrees =? 0 then
          returned (loaded ++ [yellow chalk $"No worktrees selected."])
        else
          let command := res_command (resolved env) in
          let route := res_route (resolved env) in
          let st0 :=
            initialState
              (loaded ++ res_log (resolved env)
               ++ [runHeader command selectedWorktrees])
              selectedWorktrees in
          let spawned := map (fun wt => (path wt, command)) selectedWorktrees in
          match awaitAllSettled verbose route selectedWorktrees st0
                                (events env) with
          | None =>
              let st := handleAll verbose route selectedWorktrees st0
                                  (events env) in
              {| run_console := console st; run_errors := [];
                 run_spawned := spawned; run_results := None;
                 run_summary := []; run_exit := None |}
          | Some (st, later) =>
              let summary :=
                printSummary chalk route (processInfos st) (runPromises st) in
              let st' :=
                handleAll verbose route selectedWorktrees
                  {| processInfos := processInfos st;
                     runPromises := runPromises st;
                     console := console st ++ summary |} later in
              {| run_console := console st'; run_errors := [];
                 run_spawned := spawned;
                 run_results := Some (runPromises st);
                 run_summary := summary; run_exit := None |}
          end
  end.

End RunCommand.

(** ** What the specification says, in its own words *)

Module Spec.

(** A list without its repetitions, every element staying where it is
    seen first. *)
Fixpoint dedupFrom {A : Type} (eq_dec : forall a b : A, {a = b} + {a <> b})
    (seen l : list A) : list A :=
  match l with
  | [] => []
  | x :: l' =>
      if in_dec eq_dec x seen then dedupFrom eq_dec seen l'
      else x :: dedupFrom eq_dec (x :: seen) l'
  end.

Definition dedup (l : list jsstring) : list jsstring :=
  dedupFrom Str.eq_dec [] l.

(** [w] is a prefix of [s], letter case apart. *)
Fixpoint ciPrefix (w s : jsstring) : bool :=
  match w with
  | [] => true
  | a :: w' =>
      match s with
      | [] => false
      | b :: s' =>
          Char.eqb (Char.toUpper b) (Char.toUpper a) && ciPrefix w' s'
      end
  end.

(** The four forms of a service URL, up to the port. *)
Definition schemes : list jsstring :=
  [ $"http://localhost:"; $"https://localhost:"; $"http://127.0.0.1:";
    $"localhost:" ].

(** [u] is one of the four forms followed by a port of one or more
    digits, and nothing else. *)
Definition isUrlOf (w u : jsstring) : bool :=
  ciPrefix w u
  && (List.length w <? List.length u)
  && forallb Char.isDigit (skipn (List.length w) u).

Definition isUrl (u : jsstring) : bool :=
  existsb (fun w => isUrlOf w u) schemes.

(** The longest URL at the start of [s], if there is one: its length. *)
Fixpoint countDigits (s : jsstring) : nat :=
  match s with
  | c :: s' => if Char.isDigit c then S (countDigits s') else 0
  | [] => 0
  end.

Definition urlAt (w s : jsstring) : option nat :=
  if ciPrefix w s then
    match countDigits (skipn (List.length w) s) with
    | 0 => None
    | S d => Some (List.length w + S d)
    end
  else None.

Fixpoint firstSome {A B : Type} (f : A -> option B) (l : list A) : option B :=
  match l with
  | [] => None
  | x :: l' =>
      match f x with
      | Some y => Some y
      | None => firstSome f l'
      end
  end.

Definition urlLen (s : jsstring) : option nat :=
  firstSome (fun w => urlAt w s) schemes.

(** The [n] characters of [line] from index [i] on are a URL. *)
Definition occursAt (line : jsstring) (i n : nat) : Prop :=
  i + n <= List.length line /\ isUrl (Str.substr i n line) = true.

(** The route with a slash in front, unless it has one. *)
Definition withSlash (route : jsstring) : jsstring :=
  match route with
  | "/"%char :: _ => route
  | _ => "/"%char :: route
  end.

(** The outcome of a process: it succeeds when it closes with exit code
    0, it fails with the exit code when it closes with another one, and
    with the error when it could not be started; what comes first
    counts. *)
Fixpoint firstExit (evs : list ChildEvent) : PromiseState :=
  match evs with
  | [] => Pending
  | Data _ :: evs' => firstExit evs'
  | Close (Some 0%Z) :: _ => Fulfilled
  | Close code :: _ => Rejected ($"Command exited with code " ++ showCode code)
  | SpawnError message :: _ => Rejected message
  end.

End Spec.

(** ** Auxiliary definitions for the proofs *)

(** [k; k-1; ...; 1]: the choices of a greedy repetition of a digit. *)
Definition downFrom (k : nat) : list nat := rev (seq 1 k).

(** The choices of the matcher for one form of URL. *)
Definition urlChoices (w s : jsstring) : list nat :=
  if Spec.ciPrefix w s
  then map (Nat.add (List.length w))
           (downFrom (Spec.countDigits (skipn (List.length w) s)))
  else [].

(** Two strings agree, letter case apart, as far as both go. *)
Fixpoint ciCompat (a b : jsstring) : bool :=
  match a, b with
  | x :: a', y :: b' =>
      Char.eqb (Char.toUpper x) (Char.toUpper y) && ciCompat a' b'
  | _, _ => true
  end.

(** A byte that no URL and no keyword starts or ends with: white space,
    or a byte of a character beyond ASCII. *)
Definition inert (c : ascii) : bool :=
  Char.isSpace c || negb (Char.isAscii c).

(** A keyword that neither starts nor ends with such a byte. *)
Definition solidKeyword (k : jsstring) : bool :=
  match k with
  | [] => false
  | a :: _ => negb (inert a) && negb (inert (last k a))
  end.

(** A keyword that a character beyond ASCII cannot make up when the line
    is put in lower case: it has no [k], and a letter after every [i]. *)
Fixpoint letterAfterI (k : jsstring) : bool :=
  match k with
  | [] => true
  | c :: k' =>
      (if Char.eqb c "i"
       then match k' with
            | d :: _ => Char.isLower d
            | [] => false
            end
       else true)
      && letterAfterI k'
  end.

Definition asciiOnly (k : jsstring) : bool :=
  forallb Char.isAscii k && negb (Str.includes $"k" k) && letterAfterI k.

(** The events of the child of worktree [i], in the order of arrival. *)
Definition ownEvents (i : nat) (evs : list (nat * ChildEvent))
  : list ChildEvent :=
  map snd (filter (fun e => fst e =? i) evs).

Definition chunkOf (ev : ChildEvent) : list jsstring :=
  match ev with
  | Data chunk => [chunk]
  | _ => []
  end.

(** The chunks that a child has written. *)
Definition chunks (evs : list ChildEvent) : list jsstring :=
  flat_map chunkOf evs.

(** What an event does to the promise of its process. *)
Definition settle (p : PromiseState) (ev : ChildEvent) : PromiseState :=
  match ev with
  | Data _ => p
  | Close code => onClose code p
  | SpawnError message => onError message p
  end.

(** The state of the promise of a process after its events. *)
Definition outcome (evs : list ChildEvent) : PromiseState :=
  fold_left settle evs Pending.

(** The state of a run holds one record and one promise per selected
    worktree, in the order of the selection. *)
Definition wellFormed (selected : list Worktree) (st : RunState) : Prop :=
  map worktree (processInfos st) = selected
  /\ List.length (runPromises st) = List.length selected.

(** The strings that [urlPattern] matches in [s], the search starting
    [skip] characters into it. *)
Definition matchedFrom (skip : nat) (s : jsstring) : list jsstring :=
  map (fun p => Str.substr (fst p) (snd p) s) (scan true urlPattern 0 skip s).

(** ** Data of the examples *)

Module Example.

Definition wtMain : Worktree :=
  {| path := $"/repo"; branch := $"main"; commit := $"a1b2c3d" |}.

Definition wtFeature : Worktree :=
  {| path := $"/repo-feature"; branch := $"feature"; commit := $"e4f5a6b" |}.

Definition wtFix : Worktree :=
  {| path := $"/repo-fix"; branch := $"fix"; commit := $"0c1d2e3" |}.

Definition noRoute (command : jsstring) : Resolved :=
  {| res_command := command; res_route := None; res_log := [] |}.

(** Nothing is ticked in the selection prompt. *)
Definition envNothingSelected : Env :=
  {| config_file := NoConfigFile;
     git_worktrees := inr [wtMain; wtFeature];
     opt_all := false; opt_verbose := false;
     prompt_selected := [];
     resolved := noRoute $"npm run dev";
     events := [] |}.

(** The same, with a configuration file that cannot be parsed. *)
Definition envBadConfig : Env :=
  {| config_file := BadConfigFile;
     git_worktrees := inr [wtMain; wtFeature];
     opt_all := false; opt_verbose := false;
     prompt_selected := [];
     resolved := noRoute $"npm run dev";
     events := [] |}.

(** Two worktrees: the command fails in the first one and succeeds in
    the second one. *)
Definition envOneFails : Env :=
  {| config_file := NoConfigFile;
     git_worktrees := inr [wtMain; wtFeature];
     opt_all := true; opt_verbose := false;
     prompt_selected := [];
     resolved := noRoute $"npm test";
     events := [ (0, Close (Some 1%Z));
                 (1, Data $"listening on http://localhost:3000
");
                 (1, Close (Some 0%Z)) ] |}.

(** Three worktrees, each one printing its URL; the second one prints
    also the URL of the first one, and its own URL twice. *)
Definition envThreeServers : Env :=
  {| config_file := NoConfigFile;
     git_worktrees := inr [wtMain; wtFeature; wtFix];
     opt_all := true; opt_verbose := false;
     prompt_selected := [];
     resolved := noRoute $"npm run dev";
     events := [ (1, Data $"http://localhost:3001
");
                 (0, Data $"http://localhost:3000
");
                 (2, Data $"http://localhost:3002
");
                 (1, Data $"proxy to http://localhost:3000, http://localhost:3001
");
                 (2, Close (Some 0%Z));
                 (0, Close (Some 0%Z));
                 (1, Close (Some 0%Z)) ] |}.

(** One worktree whose server prints its URL in two chunks. *)
Definition twoChunks : list (nat * ChildEvent) :=
  [ (0, Data $"http://localhost:3000
");
    (0, Data $"ready on http://localhost:3000
") ].

End Example.

(** ** The summary of a run, as the specification describes it *)

Module SummarySpec.

(** The record of every selected worktree after the events [done]: the
    chunks its process has written and the URLs found in them. *)
Definition recordsAfter (selected : list Worktree)
    (done : list (nat * ChildEvent)) : list ProcessInfo :=
  mapi (fun i wt =>
          {| worktree := wt;
             urls := flat_map extractUrls (chunks (ownEvents i done));
             output := chunks (ownEvents i done) |})
       selected.

(** Each of the [n] processes has come to its end within [done]. *)
Definition allSettled (n : nat) (done : list (nat * ChildEvent)) : bool :=
  forallb (fun i => isSettled (Spec.firstExit (ownEvents i done))) (seq 0 n).

(** The last of the [n] processes comes to its end with the last event
    of [done]. *)
Definition settledWith (n : nat) (done : list (nat * ChildEvent)) : Prop :=
  allSettled n done = true
  /\ forall shorter e rest,
       done = shorter ++ e :: rest -> allSettled n shorter = false.

(** The route variant of a URL, when a route is given. *)
Definition routeVariant (route : option jsstring) (url : jsstring)
  : option jsstring :=
  match route with
  | Some (c :: r) => Some (url ++ Spec.withSlash (c :: r))
  | _ => None
  end.

Section Lines.

Variable chalk : Chalk.

(** The block of a worktree: its outcome, branch and path, its URLs
    without repetitions, each with its route variant, and the reason
    when it failed. *)
Definition block (route : option jsstring) (index : nat) (wt : Worktree)
    (collected : list jsstring) (result : PromiseState) : list jsstring :=
  [ match result with
    | Fulfilled => green chalk $"✓"
    | _ => red chalk $"✗"
    end
    ++ $" " ++ getWorktreeColor chalk index (branch wt)
    ++ $" (" ++ path wt ++ $")" ]
  ++ flat_map
       (fun url =>
          ($"  " ++ gray chalk $"→" ++ $" " ++ underline chalk url) ::
          match routeVariant route url with
          | Some routeUrl =>
              [ $"  " ++ gray chalk $"  Route:" ++ $" "
                ++ underline chalk routeUrl ]
          | None => []
          end)
       (Spec.dedup collected)
  ++ match result with
     | Rejected reason => [ $"  " ++ red chalk $"Error:" ++ $" " ++ reason ]
     | _ => []
     end
  ++ [ [] ].

(** The global section for the URLs [all]: nothing when there is none. *)
Definition globalSection (route : option jsstring) (all : list jsstring)
  : list jsstring :=
  match all with
  | [] => []
  | _ :: _ =>
      [ bold_green chalk $"🌐 All running services:
" ]
      ++ flat_map
           (fun url =>
              ($"  " ++ cyan chalk $"•" ++ $" " ++ underline chalk url) ::
              match routeVariant route url with
              | Some routeUrl =>
                  [ $"    " ++ gray chalk $"Route:" ++ $" "
                    ++ underline chalk routeUrl ]
              | None => []
              end)
           all
      ++ [ [] ]
  end.

End Lines.

End SummarySpec.

(** * The rest of the program *)

(** ** More on strings *)

Module Text.

Definition LF : ascii := "010"%char.

(** [s.replace(pat, rep)] for a string [pat]: the first occurrence of
    [pat] gives way to [rep]. *)
Fixpoint replace (pat rep s : jsstring) : jsstring :=
  if Str.startsWith pat s then rep ++ skipn (List.length pat) s
  else
    match s with
    | [] => []
    | c :: s' => c :: replace pat rep s'
    end.

(** A byte from 128 to 191 continues the character before it. *)
Definition isContinuation (c : ascii) : bool :=
  (128 <=? Char.code c) && (Char.code c <? 192).

(** The first half of the character of four bytes that starts with [c]:
    its high surrogate, in the three bytes that the encoding has for a
    code unit of that size. *)
Definition highSurrogate (c : ascii) (rest : jsstring) : jsstring :=
  let low := fun i => (N_of_ascii (nth i rest zero) mod 64)%N in
  let point :=
    ((N_of_ascii c mod 8) * 262144 + low 0%nat * 4096 + low 1%nat * 64
     + low 2%nat)%N in
  let unit := (55296 + (point - 65536) / 1024)%N in
  map ascii_of_N [237; 128 + (unit / 64) mod 64; 128 + unit mod 64]%N.

(** [s.substring(0, n)]: the first [n] code units of [s]. The language
    counts in UTF-16 code units: a character of up to three bytes is
    one of them, a character of four bytes is two, and the cut may fall
    between the two. *)
Fixpoint takeUnits (n : nat) (s : jsstring) : jsstring :=
  match s with
  | [] => []
  | c :: s' =>
      if isContinuation c then c :: takeUnits n s'
      else
        match n with
        | 0 => []
        | S n' =>
            if Char.code c <? 240 then c :: takeUnits n' s'
            else
              match n' with
              | 0 => highSurrogate c s'
              | S n'' => c :: takeUnits n'' s'
              end
        end
  end.

(** A string is truthy when it is not empty. *)
Definition nonEmpty (s : jsstring) : bool :=
  match s with
  | [] => false
  | _ :: _ => true
  end.

(** [l.includes(x)] on an array of strings. *)
Definition includes (l : list jsstring) (x : jsstring) : bool :=
  if in_dec Str.eq_dec x l then true else false.

(** [l.indexOf(x)]: [None] stands for -1. *)
Fixpoint indexOf (x : jsstring) (l : list jsstring) : option nat :=
  match l with
  | [] => None
  | y :: l' =>
      if Str.eq_dec y x then Some 0
      else option_map S (indexOf x l')
  end.

End Text.

(** ** [parseWorktrees] *)

(** The worktree that the line [line] starts, [headLine] and
    [branchLine] being the two lines after it when there are such
    lines. The prefixes that are cut off are ASCII, a byte each:
    [headLine.substring(5, 12)] is the first seven code units of what
    follows the five bytes of the prefix. *)
Definition parseEntry (line : jsstring) (headLine branchLine : option jsstring)
  : Worktree :=
  let path := skipn 9 line in
  let commit :=
    match headLine with
    | Some h =>
        if Text.nonEmpty h && Str.startsWith $"HEAD " h
        then Text.takeUnits 7 (skipn 5 h) else []
    | None => []
    end in
  let branch :=
    match branchLine with
    | Some b =>
        if Text.nonEmpty b && Str.startsWith $"branch " b
        then Text.replace $"refs/heads/" [] (skipn 7 b) else $"detached"
    | None => $"detached"
    end in
  {| path := path; branch := branch; commit := commit |}.

(** The loop over the lines: [lines] are the lines from index [i] on. *)
Fixpoint parseLines (lines : list jsstring) : list Worktree :=
  match lines with
  | [] => []
  | line :: rest =>
      if Str.startsWith $"worktree " line
      then parseEntry line (nth_error rest 0) (nth_error rest 1)
           :: parseLines rest
      else parseLines rest
  end.

Definition parseWorktrees (output : jsstring) : list Worktree :=
  let lines := Str.split Text.LF (Str.trim output) in
  parseLines lines.

(** ** The options of the command line *)

(** The value of an option: the argument after the first [short], or
    after the first [long] when there is no [short], when that argument
    is there and is not empty. *)
Definition optionValue (short long : jsstring) (args : list jsstring)
  : option jsstring :=
  let index :=
    match Text.indexOf short args with
    | Some i => Some i
    | None => Text.indexOf long args
    end in
  match index with
  | Some i =>
      match nth_error args (i + 1) with
      | Some v => if Text.nonEmpty v then Some v else None
      | None => None
      end
  | None => None
  end.

Record Options : Type := {
  o_all : bool;
  o_verbose : bool;
  o_useDefaultCommand : bool;
  o_command : option jsstring;
  o_file : option jsstring;
  o_route : option jsstring
}.

(** [args] is [process.argv.slice(2)]. *)
Definition parseOptions (args : list jsstring) : Options :=
  {| o_all := Text.includes args $"-a" || Text.includes args $"--all";
     o_verbose := Text.includes args $"-v" || Text.includes args $"--verbose";
     o_useDefaultCommand := Text.includes args $"-dc";
     o_command := optionValue $"-c" $"--command" args;
     o_file := optionValue $"-f" $"--file" args;
     o_route := optionValue $"-r" $"--route" args |}.

(** ** The output of [git worktree list --porcelain] *)

Module Porcelain.

Inductive Checkout : Type :=
| OnBranch (name : jsstring)
| Detached
| Bare.

(** A worktree as git lists it: its path, the commit of its HEAD and
    what is checked out. *)
Record Listed : Type := {
  l_path : jsstring;
  l_head : jsstring;
  l_checkout : Checkout
}.

(** The lines of one worktree, the empty line that ends it included. *)
Definition entryLines (e : Listed) : list jsstring :=
  match l_checkout e with
  | OnBranch name =>
      [ $"worktree " ++ l_path e; $"HEAD " ++ l_head e;
        $"branch refs/heads/" ++ name; [] ]
  | Detached =>
      [ $"worktree " ++ l_path e; $"HEAD " ++ l_head e; $"detached"; [] ]
  | Bare =>
      [ $"worktree " ++ l_path e; $"bare"; [] ]
  end.

(** What git prints: every line with a line feed at its end. *)
Definition render (es : list Listed) : jsstring :=
  flat_map (fun line => line ++ [Text.LF]) (flat_map entryLines es).

Definition noLF (s : jsstring) : bool :=
  forallb (fun c => negb (Char.eqb c Text.LF)) s.

(** [s] does not end with a white space character. *)
Definition solidEnd (s : jsstring) : bool :=
  match Str.spaceBefore (rev s) with
  | Some _ => false
  | None => true
  end.

(** Paths, commit ids and branch names are on one line; a commit id is
    made of ASCII characters; a branch name does not end with white
    space. *)
Definition wellFormed (e : Listed) : bool :=
  noLF (l_path e)
  && (noLF (l_head e) && forallb Char.isAscii (l_head e))
  && match l_checkout e with
     | OnBranch name => noLF name && solidEnd name
     | _ => true
     end.

(** The worktree that [parseWorktrees] is to give for an entry. *)
Definition worktreeOf (e : Listed) : Worktree :=
  {| path := l_path e;
     branch :=
       match l_checkout e with
       | OnBranch name => name
       | _ => $"detached"
       end;
     commit :=
       match l_checkout e with
       | Bare => []
       | _ => firstn 7 (l_head e)
       end |}.

(** Lines with a line feed between them. *)
Fixpoint joinLines (ls : list jsstring) : jsstring :=
  match ls with
  | [] => []
  | [l] => l
  | l :: ls' => l ++ Text.LF :: joinLines ls'
  end.

End Porcelain.

(** ** [removeWorktrees] *)

(** [l.filter((x, index) => f index x)] *)
Fixpoint filteri_from {A : Type} (f : nat -> A -> bool) (i : nat) (l : list A)
  : list A :=
  match l with
  | [] => []
  | x :: l' =>
      if f i x then x :: filteri_from f (S i) l' else filteri_from f (S i) l'
  end.

Definition filteri {A : Type} (f : nat -> A -> bool) (l : list A) : list A :=
  filteri_from f 0 l.

Definition removeCommand (p : jsstring) : jsstring :=
  $"git worktree remove " ++ quote ++ p ++ quote.

Definition forceRemoveCommand (p : jsstring) : jsstring :=
  $"git worktree remove --force " ++ quote ++ p ++ quote.

(** What [removeWorktrees] is given: the output of
    [git worktree list --porcelain] or the message of the error it
    raised, the [--all] option and the answers to the prompts (the
    confirmation of [--all], the worktrees ticked, the final
    confirmation). *)
Record RemoveEnv : Type := {
  rm_list : jsstring + jsstring;
  rm_all : bool;
  rm_confirmAll : bool;
  rm_selected : list Worktree;
  rm_confirm : bool
}.

Section Remove.

Variable chalk : Chalk.

(** The repository and the file system, as far as git changes them: a
    state, and what running a git command does to it. The command
    succeeds ([None]) or fails with the message of its error. *)
Variable World : Type.
Variable execGit : World -> jsstring -> World * option jsstring.

(** What [removeWorktrees] did: the lines written, the git commands run
    in the order in which they ran, the world they left and the exit code
    when [process.exit] was called. *)
Record RemoveRun : Type := {
  rr_console : list jsstring;
  rr_errors : list jsstring;
  rr_commands : list jsstring;
  rr_world : World;
  rr_exit : option nat
}.

Definition removedLine (wt : Worktree) : jsstring :=
  green chalk ($"✓ Removed: " ++ branch wt ++ $" (" ++ path wt ++ $")").

Definition forceRemovedLine (wt : Worktree) : jsstring :=
  yellow chalk ($"⚠ Force removed: " ++ branch wt ++ $" (" ++ path wt ++ $")").

Definition failedLine (wt : Worktree) (message : jsstring) : jsstring :=
  red chalk ($"✗ Failed to remove: " ++ branch wt ++ $" - " ++ message).

(** The loop [for (const wt of worktreesToRemove)]: the world after it,
    the lines written and the commands run. *)
Fixpoint removeEach (w : World) (wts : list Worktree)
  : World * list jsstring * list jsstring :=
  match wts with
  | [] => (w, [], [])
  | wt :: rest =>
      let r1 := execGit w (removeCommand (path wt)) in
      match snd r1 with
      | None =>
          let '(w', out, cmds) := removeEach (fst r1) rest in
          (w', removedLine wt :: out, removeCommand (path wt) :: cmds)
      | Some message =>
          let r2 := execGit (fst r1) (forceRemoveCommand (path wt)) in
          let line :=
            match snd r2 with
            | None => forceRemovedLine wt
            | Some _ => failedLine wt message
            end in
          let '(w', out, cmds) := removeEach (fst r2) rest in
          (w', line :: out,
           removeCommand (path wt) :: forceRemoveCommand (path wt) :: cmds)
      end
  end.

Definition said (w : World) (lines : list jsstring) : RemoveRun :=
  {| rr_console := lines; rr_errors := []; rr_commands := [];
     rr_world := w; rr_exit := None |}.

Definition removeAll (w : World) (worktreesToRemove : list Worktree)
  : RemoveRun :=
  let '(w', out, cmds) := removeEach w worktreesToRemove in
  {| rr_console :=
       [ bold chalk ($"
🗑️  Removing " ++ showNat (List.length worktreesToRemove)
                     ++ $" worktree(s)...
") ]
       ++ out
       ++ [ bold_green chalk $"
✨ Done!
" ];
     rr_errors := [];
     rr_commands := cmds;
     rr_world := w';
     rr_exit := None |}.

Definition removeWorktrees (env : RemoveEnv) (w : World) : RemoveRun :=
  match rm_list env with
  | inl message =>
      {| rr_console := [];
         rr_errors :=
           [red chalk $"Error removing worktrees:" ++ $" " ++ message];
         rr_commands := []; rr_world := w; rr_exit := Some 1 |}
  | inr stdout =>
      let worktrees := parseWorktrees stdout in
      if List.length worktrees =? 0 then
        said w [yellow chalk $"No worktrees found."]
      else
        let removableWorktrees :=
          filteri (fun index _ => negb (index =? 0)) worktrees in
        if List.length removableWorktrees =? 0 then
          said w [yellow chalk
                    $"Only the main worktree exists. Nothing to remove."]
        else if rm_all env then
          if negb (rm_confirmAll env) then said w [gray chalk $"Cancelled."]
          else removeAll w removableWorktrees
        else
          let selected := rm_selected env in
          if List.length selected =? 0 then
            said w [yellow chalk $"No worktrees selected."]
          else if negb (rm_confirm env) then said w [gray chalk $"Cancelled."]
          else removeAll w selected
  end.

End Remove.

(** ** The configuration and the prompts of [runCommand] *)

Definition setDefaultCommand (v : option jsstring) (c : Config) : Config :=
  {| defaultCommand := v; savedCommands := savedCommands c;
     defaultRoute := defaultRoute c; savedRoutes := savedRoutes c;
     filesToCopy := filesToCopy c |}.

Definition setSavedCommands (v : option (list jsstring)) (c : Config) : Config :=
  {| defaultCommand := defaultCommand c; savedCommands := v;
     defaultRoute := defaultRoute c; savedRoutes := savedRoutes c;
     filesToCopy := filesToCopy c |}.

Definition setDefaultRoute (v : option jsstring) (c : Config) : Config :=
  {| defaultCommand := defaultCommand c; savedCommands := savedCommands c;
     defaultRoute := v; savedRoutes := savedRoutes c;
     filesToCopy := filesToCopy c |}.

Definition setSavedRoutes (v : option (list jsstring)) (c : Config) : Config :=
  {| defaultCommand := defaultCommand c; savedCommands := savedCommands c;
     defaultRoute := defaultRoute c; savedRoutes := v;
     filesToCopy := filesToCopy c |}.

Definition setFilesToCopy (v : option (list jsstring)) (c : Config) : Config :=
  {| defaultCommand := defaultCommand c; savedCommands := savedCommands c;
     defaultRoute := defaultRoute c; savedRoutes := savedRoutes c;
     filesToCopy := v |}.

(** The string of a value that is known to be truthy. *)
Definition textOf (v : option jsstring) : jsstring :=
  match v with
  | Some s => s
  | None => []
  end.

(** [if (!l) l = []; if (!l.includes(x)) l.push(x)] *)
Definition pushNew (l : option (list jsstring)) (x : jsstring)
  : list jsstring :=
  match l with
  | None => [x]
  | Some l' => if Text.includes l' x then l' else l' ++ [x]
  end.

(** The list of a menu: [const choices = saved || []], the entry of the
    default put in front when there is one, [more] pushed at the end. *)
Definition choicesOf (saved : option (list jsstring))
    (default : option jsstring) (more : list jsstring) : list jsstring :=
  (if truthy default then [textOf default ++ $" (default)"] else [])
  ++ match saved with Some l => l | None => [] end
  ++ more.

(** [choices] is the array of the configuration when there is one: what
    is put into the menu is put into the configuration. *)
Definition aliased (saved : option (list jsstring))
    (choices : list jsstring) : option (list jsstring) :=
  match saved with
  | Some _ => Some choices
  | None => None
  end.

Record CommandAnswers : Type := {
  commandChoice : jsstring;
  customCommand : jsstring;
  saveCommand : bool;
  setAsDefault : bool
}.

Record RouteAnswers : Type := {
  routeChoice : jsstring;
  customRoute : jsstring;
  saveRoute : bool;
  setAsDefaultRoute : bool
}.

(** The outcome of a step that settles the command or the route: the
    value, the configuration object after it, the objects given to
    [saveConfig] and the lines written. *)
Record Settled : Type := {
  s_value : option jsstring;
  s_config : Config;
  s_written : list Config;
  s_log : list jsstring
}.

Section Resolve.

Variable chalk : Chalk.

(** Lines 353 to 427 of [runCommand]. *)
Definition resolveCommand (options : Options) (config : Config)
    (answers : CommandAnswers) : Settled :=
  let useDefault :=
    o_useDefaultCommand options && truthy (defaultCommand config) in
  let command :=
    if useDefault then defaultCommand config else o_command options in
  let log :=
    if useDefault
    then [gray chalk ($"Using default command: " ++ textOf command)]
    else [] in
  if truthy command then
    {| s_value := command; s_config := config; s_written := [];
       s_log := log |}
  else
    let choices :=
      choicesOf (savedCommands config) (defaultCommand config)
                [ $"Enter custom command..." ] in
    let config1 :=
      setSavedCommands (aliased (savedCommands config) choices) config in
    if Str.eq_dec (commandChoice answers) $"Enter custom command..." then
      let command := customCommand answers in
      if saveCommand answers then
        let config2 :=
          if setAsDefault answers
          then setDefaultCommand (Some command) config1 else config1 in
        let config3 :=
          setSavedCommands
            (Some (pushNew (savedCommands config2) command)) config2 in
        {| s_value := Some command; s_config := config3;
           s_written := [config3];
           s_log := log ++ [green chalk $"✓ Command saved"] |}
      else
        {| s_value := Some command; s_config := config1; s_written := [];
           s_log := log |}
    else
      {| s_value :=
           Some (Text.replace $" (default)" [] (commandChoice answers));
         s_config := config1; s_written := []; s_log := log |}.

(** Lines 429 to 498 of [runCommand]; [route] is
    [options.route || null]. *)
Definition resolveRoute (options : Options) (config : Config)
    (answers : RouteAnswers) : Settled :=
  let route := if truthy (o_route options) then o_route options else None in
  if truthy route then
    {| s_value := route; s_config := config; s_written := []; s_log := [] |}
  else
    let routeChoices :=
      choicesOf (savedRoutes config) (defaultRoute config)
                [ $"No route"; $"Enter custom route..." ] in
    let config1 :=
      setSavedRoutes (aliased (savedRoutes config) routeChoices) config in
    if Str.eq_dec (routeChoice answers) $"Enter custom route..." then
      let route := customRoute answers in
      if saveRoute answers then
        let config2 :=
          if setAsDefaultRoute answers
          then setDefaultRoute (Some route) config1 else config1 in
        let config3 :=
          setSavedRoutes (Some (pushNew (savedRoutes config2) route)) config2 in
        {| s_value := Some route; s_config := config3;
           s_written := [config3];
           s_log := [green chalk $"✓ Route saved"] |}
      else
        {| s_value := Some route; s_config := config1; s_written := [];
           s_log := [] |}
    else if Str.eq_dec (routeChoice answers) $"No route" then
      {| s_value := route; s_config := config1; s_written := [];
         s_log := [] |}
    else
      {| s_value := Some (Text.replace $" (default)" [] (routeChoice answers));
         s_config := config1; s_written := []; s_log := [] |}.

(** The command and the route of a run, with the objects written to the
    configuration file on the way, in the order of the writes. *)
Definition resolveRun (options : Options) (config : Config)
    (commandAnswers : CommandAnswers) (routeAnswers : RouteAnswers)
  : Resolved * list Config :=
  let c := resolveCommand options config commandAnswers in
  let r := resolveRoute options (s_config c) routeAnswers in
  ({| res_command := textOf (s_value c);
      res_route := s_value r;
      res_log := s_log c ++ s_log r |},
   s_written c ++ s_written r).

End Resolve.

(** ** [manageConfig] *)

Inductive ConfigAction : Type :=
| ViewConfiguration
| SetDefaultCommand (answer : jsstring)
| AddSavedCommand (newCommand : jsstring)
| SetDefaultRoute (answer : jsstring)
| AddSavedRoute (newRoute : jsstring)
| AddFileToCopy (newFile : jsstring)
| ClearConfiguration (confirm : bool).

Section ManageConfig.

Variable chalk : Chalk.

(** [JSON.stringify(config, null, 2)] *)
Variable stringify : Config -> jsstring.

(** The configuration object after the action, the objects given to
    [saveConfig] and the lines written. *)
Definition manageConfig (config : Config) (action : ConfigAction)
  : Config * list Config * list jsstring :=
  match action with
  | ViewConfiguration =>
      (config, [],
       [ bold chalk $"
📝 Current Configuration:
"; stringify config; [] ])
  | SetDefaultCommand answer =>
      let config' := setDefaultCommand (Some answer) config in
      (config', [config'], [green chalk $"✓ Default command updated"])
  | AddSavedCommand newCommand =>
      let config' :=
        setSavedCommands (Some (pushNew (savedCommands config) newCommand))
                         config in
      (config', [config'], [green chalk $"✓ Command added"])
  | SetDefaultRoute answer =>
      let config' := setDefaultRoute (Some answer) config in
      (config', [config'], [green chalk $"✓ Default route updated"])
  | AddSavedRoute newRoute =>
      let config' :=
        setSavedRoutes (Some (pushNew (savedRoutes config) newRoute)) config in
      (config', [config'], [green chalk $"✓ Route added"])
  | AddFileToCopy newFile =>
      let config' :=
        setFilesToCopy (Some (pushNew (filesToCopy config) newFile)) config in
      (config', [config'], [green chalk $"✓ File added"])
  | ClearConfiguration confirm =>
      if confirm
      then (config, [emptyConfig], [green chalk $"✓ Configuration cleared"])
      else (config, [], [])
  end.

End ManageConfig.

(** ** [copyFiles] *)

(** The answers to the prompts for the file: the entry picked from the
    menu, the path typed in and whether it is to be remembered. *)
Record FileAnswers : Type := {
  fileChoice : jsstring;
  customFile : jsstring;
  saveFile : bool
}.

(** What [copyFiles] is given: the output of
    [git worktree list --porcelain] or the message of the error it
    raised, the current directory, the options, the worktrees ticked in
    the prompt and the answers to the prompts for the file. *)
Record CopyEnv : Type := {
  cp_list : jsstring + jsstring;
  cp_cwd : jsstring;
  cp_options : Options;
  cp_selected : list Worktree;
  cp_answers : FileAnswers
}.

(** The calls that change the file system:
    [fs.mkdirSync(dir, { recursive: true })], [fs.copyFileSync] and
    [saveConfig]. *)
Inductive FsOp : Type :=
| Mkdir (dir : jsstring)
| CopyFile (source dest : jsstring)
| SaveConfig (cwd : jsstring) (config : Config).

(** Lines 674 to 730 of [copyFiles]: the file to copy, and the
    configuration object that is saved when the path typed in is to be
    remembered. The menu is the array of the configuration when there
    is one, so that its last entry is pushed into the configuration. *)
Definition resolveFile (options : Options) (config : Config)
    (answers : FileAnswers) : jsstring * option Config :=
  if truthy (o_file options) then (textOf (o_file options), None)
  else
    let choices :=
      match filesToCopy config with
      | Some l => l
      | None => [ $".env" ]
      end ++ [ $"Enter custom file path..." ] in
    let config1 :=
      setFilesToCopy (aliased (filesToCopy config) choices) config in
    if Str.eq_dec (fileChoice answers) $"Enter custom file path..." then
      let fileToCopy := customFile answers in
      (fileToCopy,
       if saveFile answers
       then Some (setFilesToCopy
                    (Some (pushNew (filesToCopy config1) fileToCopy)) config1)
       else None)
    else (fileChoice answers, None).

Section Copy.

Variable chalk : Chalk.

(** [path.join] and [path.dirname]. *)
Variable pathJoin : jsstring -> jsstring -> jsstring.
Variable dirname : jsstring -> jsstring.

(** The file system: a state, what [loadConfig] finds in a directory,
    [fs.existsSync], and what [fs.mkdirSync(dir, { recursive: true })],
    [fs.copyFileSync] and [saveConfig] do to it; each of the three
    succeeds ([None]) or throws an error with a message. *)
Variable FS : Type.
Variable readConfig : FS -> jsstring -> ConfigFile.
Variable existsSync : FS -> jsstring -> bool.
Variable mkdirSync : FS -> jsstring -> FS * option jsstring.
Variable copyFileSync : FS -> jsstring -> jsstring -> FS * option jsstring.
Variable saveConfig : FS -> jsstring -> Config -> FS * option jsstring.

Record CopyRun : Type := {
  cr_console : list jsstring;
  cr_errors : list jsstring;
  cr_ops : list FsOp;
  cr_fs : FS;
  cr_exit : option nat
}.

Definition copiedLine (wt : Worktree) (fileToCopy : jsstring) : jsstring :=
  green chalk ($"✓ " ++ branch wt ++ $": " ++ fileToCopy ++ $" copied").

Definition copyFailedLine (wt : Worktree) (message : jsstring) : jsstring :=
  red chalk ($"✗ " ++ branch wt ++ $": Failed to copy - " ++ message).

(** The loop [selectedWorktrees.forEach((wt) => ...)]: the file system
    after it, the lines written, what was done, and the message of the
    error that ended the loop when [mkdirSync] threw one. *)
Fixpoint copyEach (fs : FS) (sourceFile fileToCopy : jsstring)
    (wts : list Worktree)
  : FS * list jsstring * list FsOp * option jsstring :=
  match wts with
  | [] => (fs, [], [], None)
  | wt :: rest =>
      let destFile := pathJoin (path wt) fileToCopy in
      let destDir := dirname destFile in
      let made :=
        if existsSync fs destDir then (fs, None, [])
        else (fst (mkdirSync fs destDir), snd (mkdirSync fs destDir),
              [Mkdir destDir]) in
      match snd (fst made) with
      | Some message => (fst (fst made), [], snd made, Some message)
      | None =>
          let fs1 := fst (fst made) in
          let r := copyFileSync fs1 sourceFile destFile in
          let line :=
            match snd r with
            | None => copiedLine wt fileToCopy
            | Some message => copyFailedLine wt message
            end in
          let '(fs', out, ops, thrown) :=
            copyEach (fst r) sourceFile fileToCopy rest in
          (fs', line :: out,
           snd made ++ CopyFile sourceFile destFile :: ops, thrown)
      end
  end.

(** [saveConfig(cwd, config)] when the file is to be remembered, and the
    line written after it. *)
Definition saveChosen (fs : FS) (cwd : jsstring) (toSave : option Config)
  : FS * list jsstring * list FsOp * option jsstring :=
  match toSave with
  | None => (fs, [], [], None)
  | Some config =>
      let w := saveConfig fs cwd config in
      match snd w with
      | Some message => (fst w, [], [SaveConfig cwd config], Some message)
      | None =>
          (fst w, [green chalk $"✓ File saved to config"],
           [SaveConfig cwd config], None)
      end
  end.

Definition copyFailed (fs : FS) (lines : list jsstring) (ops : list FsOp)
    (message : jsstring) : CopyRun :=
  {| cr_console := lines;
     cr_errors := [red chalk $"Error copying files:" ++ $" " ++ message];
     cr_ops := ops; cr_fs := fs; cr_exit := Some 1 |}.

Definition copySaid (fs : FS) (lines errors : list jsstring)
    (ops : list FsOp) : CopyRun :=
  {| cr_console := lines; cr_errors := errors; cr_ops := ops;
     cr_fs := fs; cr_exit := None |}.

(** [loadConfig] comes first: its warning is written before git is asked
    for the worktrees. *)
Definition copyFiles (env : CopyEnv) (fs : FS) : CopyRun :=
  let cwd := cp_cwd env in
  let loaded := loadConfig chalk (readConfig fs cwd) in
  let config := fst loaded in
  match cp_list env with
  | inl message => copyFailed fs (snd loaded) [] message
  | inr stdout =>
      let worktrees := parseWorktrees stdout in
      if List.length worktrees =? 0 then
        copySaid fs (snd loaded ++ [yellow chalk $"No worktrees found."]) [] []
      else
        let selectedWorktrees :=
          if o_all (cp_options env) then worktrees else cp_selected env in
        if List.length selectedWorktrees =? 0 then
          copySaid fs (snd loaded ++ [yellow chalk $"No worktrees selected."])
                   [] []
        else
          let chosen := resolveFile (cp_options env) config (cp_answers env) in
          let fileToCopy := fst chosen in
          let '(fs1, savedLines, savedOps, thrown) :=
            saveChosen fs cwd (snd chosen) in
          match thrown with
          | Some message => copyFailed fs1 (snd loaded) savedOps message
          | None =>
              let lines := snd loaded ++ savedLines in
              let sourceFile := pathJoin cwd fileToCopy in
              if negb (existsSync fs1 sourceFile) then
                copySaid fs1 lines
                         [red chalk ($"File " ++ fileToCopy ++ $" not found")]
                         savedOps
              else
                let header :=
                  bold chalk ($"
📋 Copying " ++ fileToCopy ++ $" to "
                              ++ showNat (List.length selectedWorktrees)
                              ++ $" worktree(s)...
") in
                let '(fs', out, ops, thrown) :=
                  copyEach fs1 sourceFile fileToCopy selectedWorktrees in
                match thrown with
                | Some message =>
                    copyFailed fs' (lines ++ header :: out) (savedOps ++ ops)
                               message
                | None =>
                    copySaid fs'
                             (lines ++ header :: out ++ [ bold_green chalk $"
✨ Done!
" ])
                             [] (savedOps ++ ops)
                end
          end
  end.

End Copy.

(** ** Auxiliary definitions for the rest of the program *)

(** A forced removal. *)
Definition isForce (cmd : jsstring) : bool :=
  Str.startsWith $"git worktree remove --force " cmd.

(** The worktrees that a run removes, when it gets that far. *)
Definition toRemove (env : RemoveEnv) (stdout : jsstring) : list Worktree :=
  if rm_all env then tl (parseWorktrees stdout) else rm_selected env.

Definition confirmed (env : RemoveEnv) : bool :=
  if rm_all env then rm_confirmAll env else rm_confirm env.


(** The list that an action of [manageConfig] adds to, [None] for the
    other actions. *)
Definition listOf (action : ConfigAction) (c : Config)
  : option (option (list jsstring)) :=
  match action with
  | AddSavedCommand _ => Some (savedCommands c)
  | AddSavedRoute _ => Some (savedRoutes c)
  | AddFileToCopy _ => Some (filesToCopy c)
  | _ => None
  end.

Definition orEmpty (l : option (list jsstring)) : list jsstring :=
  match l with
  | Some l' => l'
  | None => []
  end.

(** ** More data for the examples *)

Module Example2.

(** A repository in which the worktree of [feature] has changes that are
    not committed: its plain removal fails. The world is the list of the
    commands that have run. *)
Definition git (w : list jsstring) (cmd : jsstring)
  : list jsstring * option jsstring :=
  (w ++ [cmd],
   if Str.eq_dec cmd (removeCommand $"/repo-feature")
   then Some $"fatal: contains modified or untracked files"
   else None).

Definition listed : list Porcelain.Listed :=
  [ {| Porcelain.l_path := $"/repo";
       Porcelain.l_head := $"a1b2c3d4e5f60718293a4b5c6d7e8f9012345678";
       Porcelain.l_checkout := Porcelain.OnBranch $"main" |};
    {| Porcelain.l_path := $"/repo-feature";
       Porcelain.l_head := $"e4f5a6b7c8d90718293a4b5c6d7e8f9012345678";
       Porcelain.l_checkout := Porcelain.OnBranch $"feature" |};
    {| Porcelain.l_path := $"/repo-fix";
       Porcelain.l_head := $"0c1d2e3f4a5b0718293a4b5c6d7e8f9012345678";
       Porcelain.l_checkout := Porcelain.Detached |} ].

Definition removeAllConfirmed : RemoveEnv :=
  {| rm_list := inr (Porcelain.render listed);
     rm_all := true; rm_confirmAll := true;
     rm_selected := []; rm_confirm := false |}.

Definition removeAllDeclined : RemoveEnv :=
  {| rm_list := inr (Porcelain.render listed);
     rm_all := true; rm_confirmAll := false;
     rm_selected := []; rm_confirm := false |}.

Definition config : Config :=
  {| defaultCommand := Some $"pnpm dev";
     savedCommands := Some [ $"pnpm dev"; $"pnpm build" ];
     defaultRoute := None; savedRoutes := None; filesToCopy := None |}.

Definition noOptions : Options :=
  {| o_all := false; o_verbose := false; o_useDefaultCommand := false;
     o_command := None; o_file := None; o_route := None |}.

Definition customAndSave : CommandAnswers :=
  {| commandChoice := $"Enter custom command...";
     customCommand := $"pnpm test"; saveCommand := true;
     setAsDefault := false |}.

Definition pickDefault : CommandAnswers :=
  {| commandChoice := $"pnpm dev (default)";
     customCommand := []; saveCommand := false; setAsDefault := false |}.

End Example2.

(** The number of UTF-16 code units of a string: what JavaScript calls
    its length. *)
Fixpoint units (s : jsstring) : nat :=
  match s with
  | [] => 0
  | c :: s' =>
      (if Text.isContinuation c then 0
       else if Char.code c <? 240 then 1 else 2)
      + units s'
  end.

(** ** Auxiliary definitions for [copyFiles] *)







Module Example3.

(** A file system as the list of the paths that exist; directories are
    made and files copied without errors, there is no configuration
    file, and the paths are joined with a slash. *)
Definition exists_ (fs : list jsstring) (p : jsstring) : bool :=
  Text.includes fs p.

Definition mkdir (fs : list jsstring) (dir : jsstring)
  : list jsstring * option jsstring := (dir :: fs, None).

Definition copy (fs : list jsstring) (source dest : jsstring)
  : list jsstring * option jsstring := (dest :: fs, None).

Definition join (a b : jsstring) : jsstring := a ++ $"/" ++ b.

Definition read (fs : list jsstring) (cwd : jsstring) : ConfigFile :=
  NoConfigFile.

Definition save (fs : list jsstring) (cwd : jsstring) (config : Config)
  : list jsstring * option jsstring :=
  (join cwd $".worktree-config.json" :: fs, None).

(** Everything up to the last slash. *)
Fixpoint dir (p : jsstring) : jsstring :=
  match p with
  | [] => []
  | c :: p' =>
      if Str.includes $"/" p' then c :: dir p' else []
  end.


(** The same, the file being typed in and remembered. *)
Definition copyAndRemember : CopyEnv :=
  {| cp_list := inr (Porcelain.render Example2.listed);
     cp_cwd := $"/repo";
     cp_options := Example2.noOptions;
     cp_selected :=
       [ {| path := $"/repo-feature"; branch := $"feature";
            commit := $"e4f5a6b" |} ];
     cp_answers :=
       {| fileChoice := $"Enter custom file path...";
          customFile := $".env.local"; saveFile := true |} |}.

End Example3.

(** * Properties *)

(** ** Characters *)

Ltac ascii_cases c := destruct c as [[] [] [] [] [] [] [] []].

Lemma toUpper_idem (c : ascii) : Char.toUpper (Char.toUpper c) = Char.toUpper c.
Proof. ascii_cases c; reflexivity. Qed.

Lemma isDigit_not_letter (c a : ascii) :
  Char.isDigit c = true ->
  Char.isDigit a = false ->
  Char.eqb (Char.toUpper c) (Char.toUpper a) = false.
Proof.
  intros Hc Ha. destruct (Char.eqb _ _) eqn:E; [|reflexivity].
  apply Ascii.eqb_eq in E.
  assert (Hu : Char.toUpper c = c) by (revert Hc; ascii_cases c; vm_compute; congruence).
  rewrite Hu in E. subst c.
  revert Hc Ha. ascii_cases a; vm_compute; congruence.
Qed.

Lemma isSpace_not_upper (c : ascii) :
  Char.isSpace c = true -> Char.toLower c = c /\ Char.toUpper c = c.
Proof. ascii_cases c; vm_compute; intuition congruence. Qed.

Lemma isSpace_not_digit (c : ascii) :
  Char.isSpace c = true -> Char.isDigit c = false.
Proof. ascii_cases c; vm_compute; congruence. Qed.

Lemma isSpace_inert (c : ascii) : Char.isSpace c = true -> inert c = true.
Proof. unfold inert. now intros ->. Qed.

Lemma inert_not_upper (c : ascii) :
  inert c = true -> Char.toLower c = c /\ Char.toUpper c = c.
Proof. ascii_cases c; vm_compute; intuition congruence. Qed.

Lemma inert_not_digit (c : ascii) :
  inert c = true -> Char.isDigit c = false.
Proof. ascii_cases c; vm_compute; congruence. Qed.

(** ** [new Set] removes repetitions and keeps the first occurrences *)

Section DedupFacts.

Context {A : Type} (eq_dec : forall a b : A, {a = b} + {a <> b}).

Lemma dedupFrom_ext (s1 s2 l : list A) :
  (forall x, In x s1 <-> In x s2) ->
  Spec.dedupFrom eq_dec s1 l = Spec.dedupFrom eq_dec s2 l.
Proof.
  revert s1 s2; induction l as [|x l IH]; intros s1 s2 H; simpl; [reflexivity|].
  destruct (in_dec eq_dec x s1) as [H1|H1], (in_dec eq_dec x s2) as [H2|H2].
  - apply IH, H.
  - apply H in H1; contradiction.
  - apply H in H2; contradiction.
  - f_equal. apply IH. intros y; simpl. rewrite H. reflexivity.
Qed.

Lemma fold_add_dedupFrom (l acc : list A) :
  fold_left (JsSet.add eq_dec) l acc = acc ++ Spec.dedupFrom eq_dec acc l.
Proof.
  revert acc; induction l as [|x l IH]; intros acc; simpl.
  - now rewrite app_nil_r.
  - rewrite IH. unfold JsSet.add, JsSet.has.
    destruct (in_dec eq_dec x acc) as [H|H]; [reflexivity|].
    rewrite <- app_assoc. simpl. do 2 f_equal.
    apply dedupFrom_ext. intros y. rewrite in_app_iff. simpl. tauto.
Qed.

Lemma spread_new_dedupFrom (l : list A) :
  JsSet.spread_new eq_dec l = Spec.dedupFrom eq_dec [] l.
Proof. unfold JsSet.spread_new. now rewrite fold_add_dedupFrom. Qed.

Lemma dedupFrom_In (seen l : list A) (x : A) :
  In x (Spec.dedupFrom eq_dec seen l) <-> In x l /\ ~ In x seen.
Proof.
  revert seen; induction l as [|y l IH]; intros seen; simpl; [tauto|].
  destruct (in_dec eq_dec y seen) as [H|H].
  - rewrite IH. split; [tauto|]. intros [[->|Hx] Hn]; tauto.
  - simpl. rewrite IH. simpl.
    destruct (eq_dec y x) as [->|Hne]; tauto.
Qed.

Lemma dedupFrom_NoDup (seen l : list A) :
  NoDup (Spec.dedupFrom eq_dec seen l).
Proof.
  revert seen; induction l as [|y l IH]; intros seen; simpl; [constructor|].
  destruct (in_dec eq_dec y seen) as [H|H]; [apply IH|].
  constructor; [|apply IH].
  rewrite dedupFrom_In. simpl. tauto.
Qed.

(** First-seen order: an element that is new at its place stays there. *)
Lemma dedupFrom_app (seen l1 l2 : list A) :
  Spec.dedupFrom eq_dec seen (l1 ++ l2)
  = Spec.dedupFrom eq_dec seen l1
    ++ Spec.dedupFrom eq_dec (rev l1 ++ seen) l2.
Proof.
  revert seen; induction l1 as [|y l1 IH]; intros seen; simpl; [reflexivity|].
  destruct (in_dec eq_dec y seen) as [H|H].
  - rewrite IH. f_equal. apply dedupFrom_ext. intros x.
    rewrite !in_app_iff. simpl.
    split; [tauto|]. intros [[Hx|[->|[]]]|Hx]; tauto.
  - simpl. rewrite IH. do 2 f_equal. now rewrite <- app_assoc.
Qed.

Lemma dedupFrom_NoDup_id (seen l : list A) :
  NoDup l -> (forall x, In x l -> ~ In x seen) ->
  Spec.dedupFrom eq_dec seen l = l.
Proof.
  revert seen; induction l as [|y l IH]; intros seen Hnd Hs; simpl; [reflexivity|].
  inversion_clear Hnd as [|? ? Hy Hl].
  destruct (in_dec eq_dec y seen) as [H|H].
  - exfalso. apply (Hs y); simpl; auto.
  - f_equal. apply IH; [assumption|].
    intros x Hx [->|Hx']; [contradiction|]. apply (Hs x); simpl; auto.
Qed.

End DedupFacts.

Lemma spread_new_dedup (l : list jsstring) :
  JsSet.spread_new Str.eq_dec l = Spec.dedup l.
Proof. apply spread_new_dedupFrom. Qed.

Lemma dedup_NoDup (l : list jsstring) : NoDup (Spec.dedup l).
Proof. apply dedupFrom_NoDup. Qed.

Lemma dedup_In (l : list jsstring) (x : jsstring) :
  In x (Spec.dedup l) <-> In x l.
Proof. unfold Spec.dedup. rewrite dedupFrom_In. simpl. tauto. Qed.

(** ** The matcher on [urlPattern] *)

Section MatcherFacts.

Local Abbreviation M := (matches true).

Lemma map_add_0 (l : list nat) : map (Nat.add 0) l = l.
Proof. rewrite <- (map_id l) at 2. apply map_ext. reflexivity. Qed.

Lemma matches_Chr (c : ascii) (s : jsstring) :
  M (Chr c) s =
  match s with
  | b :: _ => if Char.eqb (Char.toUpper b) (Char.toUpper c) then [1] else []
  | [] => []
  end.
Proof. reflexivity. Qed.

Lemma matches_Seq_Chr (c : ascii) (r : regex) (s : jsstring) :
  M (Seq (Chr c) r) s =
  match s with
  | b :: s' =>
      if Char.eqb (Char.toUpper b) (Char.toUpper c)
      then map S (M r s') else []
  | [] => []
  end.
Proof.
  change (M (Seq (Chr c) r) s)
    with (flat_map (fun n => map (Nat.add n) (M r (skipn n s))) (M (Chr c) s)).
  rewrite matches_Chr. destruct s as [|b s']; [reflexivity|].
  destruct (Char.eqb _ _); [|reflexivity].
  simpl. now rewrite app_nil_r.
Qed.

Lemma matches_lit (w : jsstring) (k : regex) (s : jsstring) :
  M (lit w k) s =
  if Spec.ciPrefix w s
  then map (Nat.add (List.length w)) (M k (skipn (List.length w) s))
  else [].
Proof.
  revert s; induction w as [|a w IH]; intros s.
  - simpl lit. simpl Spec.ciPrefix. cbv iota. simpl skipn. simpl List.length.
    now rewrite map_add_0.
  - change (lit (a :: w) k) with (Seq (Chr a) (lit w k)).
    rewrite matches_Seq_Chr. destruct s as [|b s']; [reflexivity|].
    simpl Spec.ciPrefix. destruct (Char.eqb _ _); [|reflexivity].
    rewrite IH. simpl andb. destruct (Spec.ciPrefix w s'); [|reflexivity].
    rewrite map_map. reflexivity.
Qed.

Lemma downFrom_S (k : nat) : downFrom (S k) = S k :: downFrom k.
Proof.
  unfold downFrom. rewrite seq_S, rev_app_distr. reflexivity.
Qed.

Lemma map_S_downFrom (k : nat) : map S (downFrom k) ++ [1] = downFrom (S k).
Proof.
  unfold downFrom. rewrite map_rev, seq_shift. simpl seq.
  change (rev (seq 2 k) ++ [1]) with (rev (1 :: seq 2 k)). reflexivity.
Qed.

Lemma matches_Digit (s : jsstring) :
  M Digit s =
  match s with
  | c :: _ => if Char.isDigit c then [1] else []
  | [] => []
  end.
Proof. reflexivity. Qed.

Lemma star_S (m : jsstring -> list nat) (fuel : nat) (s : jsstring) :
  star m (S fuel) s =
  flat_map (fun n => if n =? 0 then []
                     else map (Nat.add n) (star m fuel (skipn n s))) (m s)
  ++ [0].
Proof. reflexivity. Qed.

Lemma star_Digit (fuel : nat) (s : jsstring) :
  List.length s < fuel ->
  star (M Digit) fuel s = downFrom (Spec.countDigits s) ++ [0].
Proof.
  revert s; induction fuel as [|fuel IH]; intros s Hlen; [lia|].
  rewrite star_S, matches_Digit. destruct s as [|c s'].
  - reflexivity.
  - simpl Spec.countDigits.
    destruct (Char.isDigit c); [|reflexivity].
    cbn [flat_map Nat.eqb skipn]. rewrite app_nil_r.
    rewrite IH by (simpl in Hlen; lia).
    rewrite map_app. simpl map at 2. rewrite <- app_assoc.
    change (map (Nat.add 1)) with (map S).
    rewrite <- map_S_downFrom, <- app_assoc. reflexivity.
Qed.

Lemma matches_Plus_Digit (s : jsstring) :
  M (Plus Digit) s = downFrom (Spec.countDigits s).
Proof.
  change (M (Plus Digit) s)
    with (flat_map
            (fun n => map (Nat.add n)
                          (star (M Digit) (S (List.length s)) (skipn n s)))
            (M Digit s)).
  rewrite matches_Digit.
  destruct s as [|c s']; [reflexivity|].
  simpl Spec.countDigits.
  destruct (Char.isDigit c); [|reflexivity].
  cbn [flat_map skipn]. rewrite app_nil_r.
  rewrite star_Digit by (simpl; lia).
  change (map (Nat.add 1)) with (map S).
  rewrite map_app. simpl map at 2. apply map_S_downFrom.
Qed.

Lemma hd_downFrom (a k : nat) :
  hd_error (map (Nat.add a) (downFrom k)) =
  match k with 0 => None | S d => Some (a + S d) end.
Proof. destruct k; [reflexivity|]. now rewrite downFrom_S. Qed.

Lemma matches_lit_port (w s : jsstring) :
  M (lit w (Plus Digit)) s = urlChoices w s.
Proof.
  rewrite matches_lit. unfold urlChoices.
  now rewrite matches_Plus_Digit.
Qed.

Lemma hd_urlChoices (w s : jsstring) :
  hd_error (urlChoices w s) = Spec.urlAt w s.
Proof.
  unfold urlChoices, Spec.urlAt. destruct (Spec.ciPrefix w s); [|reflexivity].
  apply hd_downFrom.
Qed.

Lemma hd_error_app {A : Type} (l1 l2 : list A) :
  hd_error (l1 ++ l2) =
  match hd_error l1 with Some x => Some x | None => hd_error l2 end.
Proof. destruct l1; reflexivity. Qed.

Lemma ciPrefix_app (w1 w2 s : jsstring) :
  Spec.ciPrefix (w1 ++ w2) s =
  Spec.ciPrefix w1 s && Spec.ciPrefix w2 (skipn (List.length w1) s).
Proof.
  revert s; induction w1 as [|a w1 IH]; intros s; [reflexivity|].
  destruct s as [|b s']; [reflexivity|]. simpl.
  rewrite IH. now rewrite andb_assoc.
Qed.

Lemma urlChoices_cons (a : ascii) (w : jsstring) (s : jsstring) :
  urlChoices (a :: w) s =
  match s with
  | b :: s' =>
      if Char.eqb (Char.toUpper b) (Char.toUpper a)
      then map S (urlChoices w s') else []
  | [] => []
  end.
Proof.
  unfold urlChoices. destruct s as [|b s']; [reflexivity|].
  cbn [Spec.ciPrefix]. destruct (Char.eqb _ _); [|reflexivity].
  cbn [andb]. destruct (Spec.ciPrefix w s'); [|reflexivity].
  rewrite map_map. reflexivity.
Qed.

Lemma urlChoices_app (w1 w2 s : jsstring) :
  urlChoices (w1 ++ w2) s =
  if Spec.ciPrefix w1 s
  then map (Nat.add (List.length w1)) (urlChoices w2 (skipn (List.length w1) s))
  else [].
Proof.
  revert s; induction w1 as [|a w1 IH]; intros s.
  - cbn [app Spec.ciPrefix List.length skipn]. now rewrite map_add_0.
  - cbn [app]. rewrite urlChoices_cons. destruct s as [|b s']; [reflexivity|].
    cbn [Spec.ciPrefix List.length skipn].
    destruct (Char.eqb _ _); [|reflexivity]. cbn [andb].
    rewrite IH. destruct (Spec.ciPrefix w1 s'); [|reflexivity].
    rewrite map_map. reflexivity.
Qed.

(** The first alternative, [https?:\/\/localhost:\d+]: with the [s] first,
    then without it. *)
Lemma matches_opt_s (w t : jsstring) :
  M (Seq (Opt (Chr "s")) (lit w (Plus Digit))) t
  = urlChoices ("s"%char :: w) t ++ urlChoices w t.
Proof.
  change (M (Seq (Opt (Chr "s")) (lit w (Plus Digit))) t)
    with (flat_map
            (fun n => map (Nat.add n) (M (lit w (Plus Digit)) (skipn n t)))
            (M (Chr "s") t ++ [0])).
  rewrite flat_map_app. cbn [flat_map skipn].
  rewrite app_nil_r, map_add_0, matches_lit_port.
  f_equal.
  rewrite matches_Chr, urlChoices_cons. destruct t as [|b t']; [reflexivity|].
  destruct (Char.eqb _ _); [|reflexivity].
  cbn [flat_map skipn]. now rewrite app_nil_r, matches_lit_port.
Qed.

Lemma matches_http_s (s : jsstring) :
  M (lit $"http" (Seq (Opt (Chr "s")) (lit $"://localhost:" (Plus Digit)))) s
  = urlChoices $"https://localhost:" s ++ urlChoices $"http://localhost:" s.
Proof.
  rewrite matches_lit, matches_opt_s.
  change $"https://localhost:" with ($"http" ++ "s"%char :: $"://localhost:").
  change $"http://localhost:" with ($"http" ++ $"://localhost:").
  rewrite !urlChoices_app.
  destruct (Spec.ciPrefix $"http" s); [|reflexivity].
  apply map_app.
Qed.

Lemma matches_urlPattern (s : jsstring) :
  M urlPattern s =
  urlChoices $"https://localhost:" s ++ urlChoices $"http://localhost:" s
  ++ urlChoices $"http://127.0.0.1:" s ++ urlChoices $"localhost:" s.
Proof.
  unfold urlPattern.
  change (M (Alt ?a (Alt ?b ?c)) s) with (M a s ++ M b s ++ M c s).
  rewrite matches_http_s, !matches_lit_port, <- app_assoc. reflexivity.
Qed.

End MatcherFacts.

(** ** The match at one place is the longest URL that starts there *)

Lemma ciPrefix_compat (a b s : jsstring) :
  Spec.ciPrefix a s = true -> Spec.ciPrefix b s = true -> ciCompat a b = true.
Proof.
  revert b s; induction a as [|x a IH]; intros b s Ha Hb; [reflexivity|].
  destruct b as [|y b]; [reflexivity|].
  destruct s as [|c s]; [discriminate|].
  cbn [Spec.ciPrefix] in Ha, Hb. cbn [ciCompat].
  apply andb_true_iff in Ha as [Ha1 Ha2], Hb as [Hb1 Hb2].
  apply Ascii.eqb_eq in Ha1, Hb1.
  rewrite <- Ha1, <- Hb1. unfold Char.eqb. rewrite Ascii.eqb_refl.
  apply (IH b s); assumption.
Qed.

Lemma ciPrefix_skipn (j : nat) (w s : jsstring) :
  Spec.ciPrefix w s = true -> Spec.ciPrefix (skipn j w) (skipn j s) = true.
Proof.
  revert w s; induction j as [|j IH]; intros w s H; [assumption|].
  destruct w as [|a w]; [reflexivity|].
  destruct s as [|b s]; [discriminate|].
  cbn [Spec.ciPrefix] in H. apply andb_true_iff in H as [_ H].
  cbn [skipn]. now apply IH.
Qed.

Lemma ciPrefix_length (w s : jsstring) :
  Spec.ciPrefix w s = true -> List.length w <= List.length s.
Proof.
  revert s; induction w as [|a w IH]; intros s H; [simpl; lia|].
  destruct s as [|b s]; [discriminate|].
  cbn [Spec.ciPrefix] in H. apply andb_true_iff in H as [_ H].
  apply IH in H. simpl; lia.
Qed.

Lemma ciPrefix_firstn (n : nat) (w s : jsstring) :
  List.length w <= n ->
  Spec.ciPrefix w (firstn n s) = Spec.ciPrefix w s.
Proof.
  revert n s; induction w as [|a w IH]; intros n s H; [reflexivity|].
  destruct n as [|n]; [simpl in H; lia|].
  destruct s as [|b s]; [reflexivity|].
  cbn [firstn Spec.ciPrefix]. rewrite IH by (simpl in H; lia). reflexivity.
Qed.

Lemma countDigits_le (t : jsstring) : Spec.countDigits t <= List.length t.
Proof.
  induction t as [|c t IH]; simpl; [lia|]. destruct (Char.isDigit c); lia.
Qed.

Lemma countDigits_firstn (t : jsstring) :
  forallb Char.isDigit (firstn (Spec.countDigits t) t) = true.
Proof.
  induction t as [|c t IH]; [reflexivity|]. cbn [Spec.countDigits].
  destruct (Char.isDigit c) eqn:E; [|reflexivity].
  cbn [firstn forallb]. now rewrite E.
Qed.

Lemma countDigits_max (k : nat) (t : jsstring) :
  k <= List.length t ->
  forallb Char.isDigit (firstn k t) = true -> k <= Spec.countDigits t.
Proof.
  revert t; induction k as [|k IH]; intros t Hk H; [lia|].
  destruct t as [|c t]; [simpl in Hk; lia|].
  cbn [firstn forallb] in H. apply andb_true_iff in H as [Hc H].
  cbn [Spec.countDigits]. rewrite Hc.
  apply IH in H; [lia|simpl in Hk; lia].
Qed.

Lemma urlAt_Some (w s : jsstring) (n : nat) :
  Spec.urlAt w s = Some n ->
  Spec.ciPrefix w s = true /\
  n = List.length w + Spec.countDigits (skipn (List.length w) s) /\
  List.length w < n /\ n <= List.length s.
Proof.
  unfold Spec.urlAt. destruct (Spec.ciPrefix w s) eqn:E; [|discriminate].
  destruct (Spec.countDigits _) as [|d] eqn:D; [discriminate|].
  intros [= <-]. split; [reflexivity|]. split; [reflexivity|].
  split; [lia|].
  pose proof (countDigits_le (skipn (List.length w) s)) as Hd.
  rewrite D, length_skipn in Hd. apply ciPrefix_length in E. lia.
Qed.

Lemma urlAt_sound (w s : jsstring) (n : nat) :
  Spec.urlAt w s = Some n -> Spec.isUrlOf w (firstn n s) = true.
Proof.
  intros H. apply urlAt_Some in H as (Hp & Hn & Hw & Hs).
  unfold Spec.isUrlOf.
  rewrite ciPrefix_firstn, Hp by lia.
  rewrite length_firstn, Nat.min_l by lia.
  apply Nat.ltb_lt in Hw. rewrite Hw. cbn [andb].
  rewrite skipn_firstn_comm.
  replace (n - List.length w)
    with (Spec.countDigits (skipn (List.length w) s)) by lia.
  apply countDigits_firstn.
Qed.

Lemma urlAt_complete (w s : jsstring) (m : nat) :
  m <= List.length s ->
  Spec.isUrlOf w (firstn m s) = true ->
  exists n, Spec.urlAt w s = Some n /\ m <= n.
Proof.
  intros Hm H. unfold Spec.isUrlOf in H.
  apply andb_true_iff in H as [H Hd]. apply andb_true_iff in H as [Hp Hl].
  rewrite length_firstn, Nat.min_l in Hl by assumption.
  apply Nat.ltb_lt in Hl.
  rewrite ciPrefix_firstn in Hp by lia.
  rewrite skipn_firstn_comm in Hd.
  apply countDigits_max in Hd; [|rewrite length_skipn; lia].
  unfold Spec.urlAt. rewrite Hp.
  destruct (Spec.countDigits _) as [|d] eqn:D; [lia|].
  eexists; split; [reflexivity|lia].
Qed.

Lemma schemes_excl (w1 w2 s : jsstring) :
  In w1 Spec.schemes -> In w2 Spec.schemes ->
  Spec.ciPrefix w1 s = true -> Spec.ciPrefix w2 s = true -> w1 = w2.
Proof.
  intros H1 H2 P1 P2.
  pose proof (ciPrefix_compat _ _ _ P1 P2) as Hc. clear P1 P2.
  unfold Spec.schemes in H1, H2. cbn [In] in H1, H2.
  repeat match goal with
         | H : _ \/ _ |- _ => destruct H as [H|H]
         | H : False |- _ => destruct H
         end; subst w1 w2; try reflexivity; vm_compute in Hc; discriminate.
Qed.

Lemma firstSome_Some {A B : Type} (f : A -> option B) (l : list A) (y : B) :
  Spec.firstSome f l = Some y -> exists x, In x l /\ f x = Some y.
Proof.
  induction l as [|x l IH]; [discriminate|]. cbn [Spec.firstSome].
  destruct (f x) eqn:E.
  - intros [= ->]. exists x; simpl; auto.
  - intros H. destruct (IH H) as (x' & Hin & Hx'). exists x'; simpl; auto.
Qed.

Lemma firstSome_None {A B : Type} (f : A -> option B) (l : list A) :
  Spec.firstSome f l = None -> forall x, In x l -> f x = None.
Proof.
  induction l as [|x l IH]; [intros _ ? []|]. cbn [Spec.firstSome].
  destruct (f x) eqn:E; [discriminate|].
  intros H x' [<-|Hin]; [assumption|]. now apply IH.
Qed.

Lemma urlLen_Some (s : jsstring) (n : nat) :
  Spec.urlLen s = Some n <->
  exists w, In w Spec.schemes /\ Spec.urlAt w s = Some n.
Proof.
  split.
  - apply firstSome_Some.
  - intros (w & Hw & Hn). destruct (Spec.urlLen s) as [n'|] eqn:E.
    + apply firstSome_Some in E as (w' & Hw' & Hn').
      pose proof (urlAt_Some _ _ _ Hn) as (P & _).
      pose proof (urlAt_Some _ _ _ Hn') as (P' & _).
      rewrite (schemes_excl _ _ _ Hw Hw' P P') in Hn. congruence.
    + pose proof (firstSome_None _ _ E w Hw) as Hnone.
      cbv beta in Hnone. congruence.
Qed.

(** The matcher on [urlPattern] finds the URL at the start of the string. *)
Lemma exec_urlPattern (s : jsstring) :
  exec true urlPattern s = Spec.urlLen s.
Proof.
  unfold exec. rewrite matches_urlPattern, !hd_error_app, !hd_urlChoices.
  destruct (Spec.urlAt $"https://localhost:" s) as [n|] eqn:E1.
  - symmetry. apply urlLen_Some. eexists; split; [|exact E1].
    unfold Spec.schemes; simpl; auto.
  - unfold Spec.urlLen, Spec.schemes. cbn [Spec.firstSome]. rewrite E1.
    repeat match goal with
           | |- context [Spec.urlAt ?w s] => destruct (Spec.urlAt w s)
           end; reflexivity.
Qed.

Lemma urlLen_sound (s : jsstring) (n : nat) :
  Spec.urlLen s = Some n ->
  Spec.isUrl (firstn n s) = true /\ 0 < n /\ n <= List.length s.
Proof.
  intros H. apply urlLen_Some in H as (w & Hw & H).
  split.
  - unfold Spec.isUrl. apply existsb_exists. exists w. split; [assumption|].
    now apply urlAt_sound.
  - apply urlAt_Some in H. lia.
Qed.

Lemma urlLen_complete (s : jsstring) (m : nat) :
  m <= List.length s ->
  Spec.isUrl (firstn m s) = true ->
  exists n, Spec.urlLen s = Some n /\ m <= n.
Proof.
  intros Hm H. unfold Spec.isUrl in H.
  apply existsb_exists in H as (w & Hw & H).
  destruct (urlAt_complete w s m Hm H) as (n & Hn & Hmn).
  exists n. split; [|assumption]. apply urlLen_Some. now exists w.
Qed.

Lemma digit_inside (k : nat) (t : jsstring) :
  k < Spec.countDigits t ->
  exists c rest, skipn k t = c :: rest /\ Char.isDigit c = true.
Proof.
  revert t; induction k as [|k IH]; intros t Hk.
  - destruct t as [|c t]; [simpl in Hk; lia|]. cbn [Spec.countDigits] in Hk.
    destruct (Char.isDigit c) eqn:E; [|lia]. now exists c, t.
  - destruct t as [|c t]; [simpl in Hk; lia|]. cbn [Spec.countDigits] in Hk.
    destruct (Char.isDigit c) eqn:E; [|lia].
    cbn [skipn]. apply IH. lia.
Qed.

(** A form of URL starts inside another one only where [localhost:]
    starts. *)
Lemma schemes_inside :
  forallb
    (fun w =>
       forallb
         (fun w' =>
            forallb
              (fun j => negb (ciCompat (skipn j w) w')
                        || (j + List.length w' =? List.length w))
              (seq 1 (List.length w - 1)))
         Spec.schemes)
    Spec.schemes = true.
Proof. vm_compute. reflexivity. Qed.

Lemma schemes_no_digit (w : jsstring) :
  In w Spec.schemes ->
  exists a w', w = a :: w' /\ Char.isDigit a = false.
Proof.
  unfold Spec.schemes. cbn [In].
  intros [<-|[<-|[<-|[<-|[]]]]]; eexists; eexists; split;
    try reflexivity; vm_compute; reflexivity.
Qed.

(** A URL that starts inside a match ends inside it. *)
Lemma urlLen_inside (s : jsstring) (n j m : nat) :
  Spec.urlLen s = Some n ->
  0 < j < n ->
  Spec.occursAt s j m ->
  j + m <= n.
Proof.
  intros Hn Hj [Hjm Hocc].
  apply urlLen_Some in Hn as (w & Hw & Hn).
  apply urlAt_Some in Hn as (Pw & En & Hwn & Hns).
  unfold Str.substr in Hocc.
  assert (Hm : m <= List.length (skipn j s)) by (rewrite length_skipn; lia).
  unfold Spec.isUrl in Hocc. apply existsb_exists in Hocc as (w' & Hw' & Hocc).
  destruct (urlAt_complete w' _ m Hm Hocc) as (n' & Hn' & Hmn').
  apply urlAt_Some in Hn' as (Pw' & En' & _ & _).
  destruct (Nat.lt_ge_cases j (List.length w)) as [Hlt|Hge].
  - pose proof (ciPrefix_skipn j _ _ Pw) as Pj.
    pose proof (ciPrefix_compat _ _ _ Pj Pw') as Hc.
    pose proof schemes_inside as Hall.
    rewrite forallb_forall in Hall. specialize (Hall w Hw).
    rewrite forallb_forall in Hall. specialize (Hall w' Hw').
    rewrite forallb_forall in Hall. specialize (Hall j).
    rewrite Hc in Hall. cbn [negb orb] in Hall.
    assert (Hin : In j (seq 1 (List.length w - 1))) by (apply in_seq; lia).
    apply Hall, Nat.eqb_eq in Hin.
    rewrite skipn_skipn in En'.
    replace (List.length w' + j) with (List.length w) in En' by lia.
    lia.
  - exfalso.
    destruct (digit_inside (j - List.length w) (skipn (List.length w) s))
      as (c & rest & Hsk & Hc); [lia|].
    rewrite skipn_skipn in Hsk.
    replace (j - List.length w + List.length w) with j in Hsk by lia.
    destruct (schemes_no_digit w' Hw') as (a & w'' & -> & Ha).
    rewrite Hsk in Pw'. cbn [Spec.ciPrefix] in Pw'.
    rewrite (isDigit_not_letter c a Hc Ha) in Pw'. discriminate.
Qed.

(** ** The matches of a line are its maximal URLs, from left to right *)

Lemma occursAt_cons (c : ascii) (s : jsstring) (j m : nat) :
  Spec.occursAt (c :: s) (S j) m <-> Spec.occursAt s j m.
Proof.
  unfold Spec.occursAt, Str.substr. cbn [skipn List.length]. split; intros [H1 H2]; split; auto; lia.
Qed.

Lemma urlLen_nil : Spec.urlLen [] = None.
Proof. reflexivity. Qed.

Lemma occursAt_pos (s : jsstring) (j m : nat) : Spec.occursAt s j m -> 0 < m.
Proof.
  intros [_ H]. destruct m; [|lia]. unfold Str.substr in H. discriminate.
Qed.

Lemma scan_sound (s : jsstring) :
  forall pos skip i n,
    In (i, n) (scan true urlPattern pos skip s) ->
    pos + skip <= i /\ Spec.occursAt s (i - pos) n.
Proof.
  induction s as [|c s IH]; intros pos skip i n Hin.
  - destruct skip; [|destruct Hin]. cbn [scan] in Hin.
    rewrite exec_urlPattern, urlLen_nil in Hin. destruct Hin.
  - destruct skip as [|k].
    + cbn [scan] in Hin. rewrite exec_urlPattern in Hin.
      destruct (Spec.urlLen (c :: s)) as [n0|] eqn:E.
      * destruct Hin as [[= <- <-]|Hin].
        -- apply urlLen_sound in E as (Hu & Hpos & Hlen).
           split; [lia|]. rewrite Nat.sub_diag. split; [lia|exact Hu].
        -- apply IH in Hin as [Hle Hocc]. split; [lia|].
           replace (i - pos) with (S (i - S pos)) by lia.
           now apply occursAt_cons.
      * apply IH in Hin as [Hle Hocc]. split; [lia|].
        replace (i - pos) with (S (i - S pos)) by lia.
        now apply occursAt_cons.
    + cbn [scan] in Hin. apply IH in Hin as [Hle Hocc]. split; [lia|].
      replace (i - pos) with (S (i - S pos)) by lia.
      now apply occursAt_cons.
Qed.

Lemma scan_sorted (s : jsstring) :
  forall pos skip,
    StronglySorted (fun a b => fst a + snd a <= fst b)
                   (scan true urlPattern pos skip s).
Proof.
  induction s as [|c s IH]; intros pos skip.
  - destruct skip; [|constructor]. cbn [scan].
    rewrite exec_urlPattern, urlLen_nil. constructor.
  - destruct skip as [|k]; cbn [scan]; [|apply IH].
    rewrite exec_urlPattern.
    destruct (Spec.urlLen (c :: s)) as [n0|] eqn:E; [|apply IH].
    constructor; [apply IH|].
    apply Forall_forall. intros [i n] Hin.
    apply scan_sound in Hin as [Hle _].
    apply urlLen_sound in E. cbn [fst snd]. lia.
Qed.

Lemma scan_complete (s : jsstring) :
  forall pos skip j m,
    skip <= j ->
    Spec.occursAt s j m ->
    exists i n,
      In (i, n) (scan true urlPattern pos skip s)
      /\ i <= pos + j /\ pos + j + m <= i + n.
Proof.
  induction s as [|c s IH]; intros pos skip j m Hskip Hocc.
  - pose proof (occursAt_pos _ _ _ Hocc). destruct Hocc as [Hlen _].
    simpl in Hlen. lia.
  - destruct skip as [|k].
    + cbn [scan]. rewrite exec_urlPattern.
      destruct (Spec.urlLen (c :: s)) as [n0|] eqn:E.
      * destruct (Nat.lt_ge_cases j n0) as [Hlt|Hge].
        -- exists pos, n0. split; [now left|]. split; [lia|].
           destruct j as [|j].
           ++ destruct Hocc as [Hlen Hu]. unfold Str.substr in Hu.
              cbn [skipn] in Hu.
              destruct (urlLen_complete _ m Hlen Hu) as (n' & En' & Hmn).
              rewrite E in En'. injection En' as <-. lia.
           ++ pose proof (urlLen_inside _ _ (S j) m E (conj (Nat.lt_0_succ j) Hlt) Hocc).
              lia.
        -- pose proof (urlLen_sound _ _ E) as (_ & Hpos & _).
           destruct j as [|j]; [lia|].
           apply occursAt_cons in Hocc.
           destruct (IH (S pos) (n0 - 1) j m ltac:(lia) Hocc)
             as (i & n & Hin & H1 & H2).
           exists i, n. split; [now right|]. lia.
      * destruct j as [|j].
        -- exfalso. destruct Hocc as [Hlen Hu]. unfold Str.substr in Hu.
           cbn [skipn] in Hu.
           destruct (urlLen_complete _ m Hlen Hu) as (n' & En' & _).
           congruence.
        -- apply occursAt_cons in Hocc.
           destruct (IH (S pos) 0 j m ltac:(lia) Hocc)
             as (i & n & Hin & H1 & H2).
           exists i, n. split; [assumption|]. lia.
    + cbn [scan]. destruct j as [|j]; [lia|].
      apply occursAt_cons in Hocc.
      destruct (IH (S pos) k j m ltac:(lia) Hocc) as (i & n & Hin & H1 & H2).
      exists i, n. split; [assumption|]. lia.
Qed.

Lemma extractUrls_matchPositions (text : jsstring) :
  extractUrls text =
  Spec.dedup (map (fun p => Str.substr (fst p) (snd p) text)
                  (matchPositions true urlPattern text)).
Proof.
  unfold extractUrls, matchGlobal. rewrite spread_new_dedup.
  destruct (matchPositions true urlPattern text); reflexivity.
Qed.

(** ** White space around a line does not change its classification *)

(** What [strip] takes away is made of the bytes of white space. *)
Lemma startsWith_firstn (w s : jsstring) :
  Str.startsWith w s = true -> firstn (List.length w) s = w.
Proof.
  revert s; induction w as [|a w IH]; intros s H; [reflexivity|].
  destruct s as [|b s]; [discriminate|].
  cbn [Str.startsWith] in H. apply andb_true_iff in H as [Hab H].
  apply Ascii.eqb_eq in Hab. subst b.
  cbn [List.length firstn]. now rewrite IH.
Qed.

Lemma wideSpaces_inert :
  forallb (fun w => forallb inert w && (0 <? List.length w)) Str.wideSpaces
  = true.
Proof. vm_compute. reflexivity. Qed.

Lemma spaceAt_inert (s : jsstring) (n : nat) :
  Str.spaceAt s = Some n ->
  0 < n /\ forallb inert (firstn n s) = true.
Proof.
  unfold Str.spaceAt. destruct s as [|c s]; [discriminate|].
  destruct (Char.isSpace c) eqn:Ec.
  - intros [= <-]. split; [lia|]. cbn [firstn forallb].
    now rewrite (isSpace_inert c Ec).
  - destruct (find _ Str.wideSpaces) as [w|] eqn:Ef; [|discriminate].
    intros [= <-]. apply find_some in Ef as [Hin Hw].
    pose proof wideSpaces_inert as Hall. rewrite forallb_forall in Hall.
    specialize (Hall w Hin). apply andb_true_iff in Hall as [Hi Hl].
    apply Nat.ltb_lt in Hl. split; [exact Hl|].
    now rewrite (startsWith_firstn w (c :: s) Hw).
Qed.

Lemma spaceBefore_inert (t : jsstring) (n : nat) :
  Str.spaceBefore t = Some n ->
  0 < n /\ forallb inert (firstn n t) = true.
Proof.
  unfold Str.spaceBefore. destruct t as [|c t]; [discriminate|].
  destruct (Char.isSpace c) eqn:Ec.
  - intros [= <-]. split; [lia|]. cbn [firstn forallb].
    now rewrite (isSpace_inert c Ec).
  - destruct (find _ Str.wideSpaces) as [w|] eqn:Ef; [|discriminate].
    intros [= <-]. apply find_some in Ef as [Hin Hw].
    pose proof wideSpaces_inert as Hall. rewrite forallb_forall in Hall.
    specialize (Hall w Hin). apply andb_true_iff in Hall as [Hi Hl].
    apply Nat.ltb_lt in Hl. split; [exact Hl|].
    apply startsWith_firstn in Hw. rewrite length_rev in Hw. rewrite Hw.
    rewrite forallb_forall in Hi |- *. intros x Hx. apply Hi.
    now apply in_rev.
Qed.

Lemma strip_split (spaceLen : jsstring -> option nat) :
  (forall s n, spaceLen s = Some n ->
               0 < n /\ forallb inert (firstn n s) = true) ->
  forall s skip,
    forallb inert (firstn skip s) = true ->
    exists ws, s = ws ++ Str.strip spaceLen skip s
               /\ forallb inert ws = true.
Proof.
  intros Hlen. induction s as [|c s IH]; intros skip Hskip.
  - exists []. destruct skip; cbn [Str.strip]; [|now split].
    destruct (spaceLen []); now split.
  - destruct skip as [|k]; cbn [Str.strip].
    + destruct (spaceLen (c :: s)) as [n|] eqn:E.
      * destruct (Hlen _ _ E) as [Hn Hin].
        destruct n as [|n]; [lia|]. cbn [firstn forallb] in Hin.
        apply andb_true_iff in Hin as [Hc Hin].
        replace (S n - 1) with n by lia.
        destruct (IH n Hin) as (ws & Hs & Hws).
        exists (c :: ws). cbn [app forallb]. rewrite Hc, Hws.
        split; [now rewrite <- Hs|reflexivity].
      * exists []. now split.
    + cbn [firstn forallb] in Hskip.
      apply andb_true_iff in Hskip as [Hc Hskip].
      destruct (IH k Hskip) as (ws & Hs & Hws).
      exists (c :: ws). cbn [app forallb]. rewrite Hc, Hws.
      split; [now rewrite <- Hs|reflexivity].
Qed.

Lemma trimStart_split (s : jsstring) :
  exists ws, s = ws ++ Str.trimStart s /\ forallb inert ws = true.
Proof. apply (strip_split Str.spaceAt spaceAt_inert s 0). reflexivity. Qed.

Lemma trimEnd_split (s : jsstring) :
  exists ws, s = Str.trimEnd s ++ ws /\ forallb inert ws = true.
Proof.
  destruct (strip_split Str.spaceBefore spaceBefore_inert (rev s) 0)
    as (ws & Hs & Hws); [reflexivity|].
  exists (rev ws). unfold Str.trimEnd. split.
  - rewrite <- rev_app_distr, <- Hs. now rewrite rev_involutive.
  - rewrite forallb_forall in Hws |- *. intros x Hx. apply Hws.
    now apply in_rev.
Qed.

Lemma trim_invariant {B : Type} (f : jsstring -> B) :
  (forall w s, inert w = true -> f (w :: s) = f s) ->
  (forall w s, inert w = true -> f (s ++ [w]) = f s) ->
  forall s, f (Str.trim s) = f s.
Proof.
  intros Hfront Hback.
  assert (Hstart : forall ws s, forallb inert ws = true -> f (ws ++ s) = f s).
  { induction ws as [|w ws IH]; intros s H; [reflexivity|].
    cbn [forallb] in H. apply andb_true_iff in H as [Hw H].
    cbn [app]. now rewrite Hfront, IH. }
  assert (Hend : forall ws s, forallb inert ws = true -> f (s ++ ws) = f s).
  { induction ws as [|w ws IH] using rev_ind; intros s H.
    - now rewrite app_nil_r.
    - rewrite forallb_app in H. apply andb_true_iff in H as [H Hw].
      cbn [forallb] in Hw. apply andb_true_iff in Hw as [Hw _].
      now rewrite app_assoc, Hback, IH. }
  intros s. unfold Str.trim.
  destruct (trimStart_split s) as (ws1 & H1 & Hw1).
  destruct (trimEnd_split (Str.trimStart s)) as (ws2 & H2 & Hw2).
  rewrite H1 at 2. rewrite Hstart by assumption.
  rewrite H2 at 2. now rewrite Hend.
Qed.

(** *** URLs *)

Lemma urlAt_nil_l (s : jsstring) :
  Spec.urlAt [] s =
  match Spec.countDigits s with 0 => None | S d => Some (S d) end.
Proof. reflexivity. Qed.

Lemma urlAt_cons (a : ascii) (w s : jsstring) :
  Spec.urlAt (a :: w) s =
  match s with
  | [] => None
  | b :: s' =>
      if Char.eqb (Char.toUpper b) (Char.toUpper a)
      then option_map S (Spec.urlAt w s') else None
  end.
Proof.
  unfold Spec.urlAt. destruct s as [|b s']; [reflexivity|].
  cbn [Spec.ciPrefix List.length skipn].
  destruct (Char.eqb _ _); [|reflexivity]. cbn [andb].
  destruct (Spec.ciPrefix w s'); [|reflexivity].
  destruct (Spec.countDigits _); reflexivity.
Qed.

Lemma countDigits_snoc (w : ascii) (s : jsstring) :
  Char.isDigit w = false ->
  Spec.countDigits (s ++ [w]) = Spec.countDigits s.
Proof.
  intros Hw. induction s as [|c s IH]; cbn [app Spec.countDigits].
  - now rewrite Hw.
  - now rewrite IH.
Qed.

Lemma urlAt_snoc (w : ascii) (w0 s : jsstring) :
  Char.isDigit w = false ->
  Spec.urlAt w0 (s ++ [w]) = Spec.urlAt w0 s.
Proof.
  intros Hw. revert s; induction w0 as [|a w0 IH]; intros s.
  - now rewrite !urlAt_nil_l, countDigits_snoc.
  - rewrite !urlAt_cons. destruct s as [|b s]; cbn [app].
    + destruct (Char.eqb _ _); [|reflexivity].
      destruct w0; reflexivity.
    + now rewrite IH.
Qed.

Lemma urlLen_snoc (w : ascii) (s : jsstring) :
  Char.isDigit w = false -> Spec.urlLen (s ++ [w]) = Spec.urlLen s.
Proof.
  intros Hw. unfold Spec.urlLen, Spec.schemes. cbn [Spec.firstSome].
  now rewrite !(urlAt_snoc w _ s Hw).
Qed.

Lemma urlLen_inert (w : ascii) (s : jsstring) :
  inert w = true -> Spec.urlLen (w :: s) = None.
Proof.
  intros Hw. destruct (Spec.urlLen (w :: s)) as [n|] eqn:E; [|reflexivity].
  apply urlLen_Some in E as (w0 & Hin & E).
  apply urlAt_Some in E as (P & _).
  exfalso. revert P. pose proof (inert_not_upper w Hw) as [_ Hu].
  unfold Spec.schemes in Hin. cbn [In] in Hin.
  destruct Hin as [<-|[<-|[<-|[<-|[]]]]]; cbn [list_ascii_of_string Spec.ciPrefix];
    rewrite Hu; intros P; apply andb_true_iff in P as [P _];
    apply Ascii.eqb_eq in P; subst w; vm_compute in Hw; discriminate.
Qed.

Lemma scan_shift (r : regex) (s : jsstring) :
  forall a pos skip,
    scan true r (a + pos) skip s
    = map (fun p => (a + fst p, snd p)) (scan true r pos skip s).
Proof.
  induction s as [|c s IH]; intros a pos skip.
  - destruct skip; [|reflexivity]. cbn [scan].
    destruct (exec true r []); reflexivity.
  - destruct skip as [|k]; cbn [scan].
    + destruct (exec true r (c :: s)); cbn [map fst snd];
        rewrite <- IH, Nat.add_succ_r; reflexivity.
    + rewrite <- IH, Nat.add_succ_r. reflexivity.
Qed.

Lemma urlLen_space (w : ascii) (s : jsstring) :
  Char.isSpace w = true -> Spec.urlLen (w :: s) = None.
Proof. intros Hw. apply urlLen_inert, isSpace_inert, Hw. Qed.

Lemma scan_snoc (w : ascii) (s : jsstring) :
  inert w = true ->
  forall pos skip,
    scan true urlPattern pos skip (s ++ [w]) = scan true urlPattern pos skip s.
Proof.
  intros Hw.
  pose proof (inert_not_digit w Hw) as Hd.
  induction s as [|c s IH]; intros pos skip.
  - cbn [app]. destruct skip as [|[|k]]; cbn [scan];
      rewrite ?exec_urlPattern, ?urlLen_inert, ?urlLen_nil by assumption;
      cbn [scan]; rewrite ?exec_urlPattern, ?urlLen_nil; reflexivity.
  - cbn [app]. destruct skip as [|k]; cbn [scan]; [|apply IH].
    rewrite !exec_urlPattern.
    change (c :: s ++ [w]) with ((c :: s) ++ [w]).
    rewrite urlLen_snoc by assumption.
    destruct (Spec.urlLen (c :: s)); now rewrite IH.
Qed.

Lemma substr_snoc (w : ascii) (s : jsstring) (i n : nat) :
  i + n <= List.length s ->
  Str.substr i n (s ++ [w]) = Str.substr i n s.
Proof.
  intros H. unfold Str.substr.
  rewrite skipn_app, firstn_app, length_skipn.
  replace (n - (List.length s - i)) with 0 by lia.
  cbn [firstn]. now rewrite app_nil_r.
Qed.

Lemma extractUrls_space_front (w : ascii) (s : jsstring) :
  inert w = true -> extractUrls (w :: s) = extractUrls s.
Proof.
  intros Hw. rewrite !extractUrls_matchPositions. f_equal.
  unfold matchPositions. cbn [scan].
  rewrite exec_urlPattern, urlLen_inert by assumption.
  change (scan true urlPattern 1 0 s) with (scan true urlPattern (1 + 0) 0 s).
  rewrite (scan_shift urlPattern s 1 0 0), map_map. reflexivity.
Qed.

Lemma extractUrls_space_back (w : ascii) (s : jsstring) :
  inert w = true -> extractUrls (s ++ [w]) = extractUrls s.
Proof.
  intros Hw. rewrite !extractUrls_matchPositions. f_equal.
  unfold matchPositions. rewrite scan_snoc by assumption.
  apply map_ext_in. intros [i n] Hin. cbn [fst snd].
  apply scan_sound in Hin as [_ [Hlen _]].
  apply substr_snoc. lia.
Qed.

Lemma extractUrls_trim (line : jsstring) :
  extractUrls (Str.trim line) = extractUrls line.
Proof.
  apply (trim_invariant extractUrls).
  - apply extractUrls_space_front.
  - apply extractUrls_space_back.
Qed.

(** *** Keywords *)

Lemma startsWith_snoc (w : ascii) (k s : jsstring) (d : ascii) :
  k <> [] ->
  Char.eqb (last k d) w = false ->
  Str.startsWith k (s ++ [w]) = Str.startsWith k s.
Proof.
  revert s; induction k as [|a k IH]; intros s Hk Hl; [congruence|].
  destruct k as [|a2 k].
  - destruct s as [|b s]; cbn [app Str.startsWith].
    + cbn [last] in Hl. now rewrite Hl.
    + reflexivity.
  - change (last (a :: a2 :: k) d) with (last (a2 :: k) d) in Hl.
    destruct s as [|b s]; cbn [app].
    + cbn [Str.startsWith]. now rewrite andb_false_r.
    + change (Str.startsWith (a :: a2 :: k) (b :: s ++ [w]))
        with (Char.eqb a b && Str.startsWith (a2 :: k) (s ++ [w])).
      rewrite IH by (congruence || assumption). reflexivity.
Qed.

Lemma includes_cons (k : jsstring) (c : ascii) (s : jsstring) :
  Str.includes k (c :: s) = Str.startsWith k (c :: s) || Str.includes k s.
Proof. reflexivity. Qed.

Lemma solid_front (k : jsstring) (w : ascii) (s : jsstring) :
  solidKeyword k = true -> inert w = true ->
  Str.startsWith k (w :: s) = false.
Proof.
  intros Hk Hw. destruct k as [|a k]; [discriminate|].
  cbn [solidKeyword] in Hk. apply andb_true_iff in Hk as [Ha _].
  cbn [Str.startsWith]. unfold Char.eqb.
  destruct (Ascii.eqb a w) eqn:E; [|reflexivity].
  apply Ascii.eqb_eq in E. subst a. rewrite Hw in Ha. discriminate.
Qed.

Lemma solid_back (k : jsstring) (w : ascii) (s : jsstring) :
  solidKeyword k = true -> inert w = true ->
  Str.startsWith k (s ++ [w]) = Str.startsWith k s.
Proof.
  intros Hk Hw. destruct k as [|a k]; [discriminate|].
  cbn [solidKeyword] in Hk. apply andb_true_iff in Hk as [_ Hl].
  apply (startsWith_snoc w (a :: k) s a); [discriminate|].
  unfold Char.eqb. destruct (Ascii.eqb _ w) eqn:E; [|reflexivity].
  apply Ascii.eqb_eq in E. rewrite E, Hw in Hl. discriminate.
Qed.

Lemma includes_lower_trim (k line : jsstring) :
  solidKeyword k = true ->
  Str.includes k (Str.toLowerCase (Str.trim line))
  = Str.includes k (Str.toLowerCase line).
Proof.
  intros Hk.
  apply (trim_invariant (fun s => Str.includes k (Str.toLowerCase s))).
  - intros w s Hw. unfold Str.toLowerCase. cbn [map].
    destruct (inert_not_upper w Hw) as [-> _].
    rewrite includes_cons, solid_front by assumption. reflexivity.
  - intros w s Hw. unfold Str.toLowerCase. rewrite map_app. cbn [map].
    destruct (inert_not_upper w Hw) as [-> _].
    induction (map Char.toLower s) as [|c t IH].
    + cbn [app]. rewrite includes_cons.
      rewrite (solid_front k w [] Hk Hw).
      cbn [Str.includes orb].
      destruct k; [discriminate|reflexivity].
    + cbn [app]. rewrite !includes_cons, IH.
      change (c :: t ++ [w]) with ((c :: t) ++ [w]).
      now rewrite solid_back.
Qed.

(** The keywords are such that lowering the ASCII letters of a line is
    all that the search for them needs. *)
Lemma keywords_asciiOnly :
  forallb asciiOnly (errorKeywords ++ importantKeywords) = true.
Proof. vm_compute. reflexivity. Qed.

Lemma keywords_solid :
  forallb solidKeyword (errorKeywords ++ importantKeywords) = true.
Proof. vm_compute. reflexivity. Qed.

Lemma existsb_includes_trim (ks : list jsstring) (line : jsstring) :
  forallb solidKeyword ks = true ->
  existsb (fun k => Str.includes k (Str.toLowerCase (Str.trim line))) ks
  = existsb (fun k => Str.includes k (Str.toLowerCase line)) ks.
Proof.
  intros H. induction ks as [|k ks IH]; [reflexivity|].
  cbn [forallb] in H. apply andb_true_iff in H as [Hk H].
  cbn [existsb]. now rewrite IH, includes_lower_trim.
Qed.

Lemma isErrorLine_trim (line : jsstring) :
  isErrorLine (Str.trim line) = isErrorLine line.
Proof.
  unfold isErrorLine. apply existsb_includes_trim.
  pose proof keywords_solid as H. rewrite forallb_app in H.
  now apply andb_true_iff in H as [H _].
Qed.

Lemma shouldShowLine_trim (line : jsstring) :
  shouldShowLine (Str.trim line) = shouldShowLine line.
Proof.
  unfold shouldShowLine.
  rewrite extractUrls_trim, isErrorLine_trim, existsb_includes_trim;
    [reflexivity|].
  pose proof keywords_solid as H. rewrite forallb_app in H.
  now apply andb_true_iff in H as [_ H].
Qed.

(** ** The state of a run *)

Lemma update_length {A : Type} (i : nat) (f : A -> A) (l : list A) :
  List.length (update i f l) = List.length l.
Proof.
  revert i; induction l as [|x l IH]; intros [|i]; simpl; auto.
Qed.

Lemma nth_error_update {A : Type} (i j : nat) (f : A -> A) (l : list A) :
  nth_error (update i f l) j =
  if j =? i then option_map f (nth_error l j) else nth_error l j.
Proof.
  revert i j; induction l as [|x l IH]; intros i j.
  - destruct i, j; simpl; try reflexivity; now destruct (j =? i).
  - destruct i as [|i], j as [|j]; simpl; try reflexivity. apply IH.
Qed.

(** The record of a worktree with some more chunks taken in. *)
Lemma info_eta (info : ProcessInfo) :
  {| worktree := worktree info; urls := urls info ++ [];
     output := output info ++ [] |} = info.
Proof. destruct info; simpl. now rewrite !app_nil_r. Qed.

Section RunFacts.

Variable chalk : Chalk.
Variables (verbose : bool) (route : option jsstring).
Variable selected : list Worktree.

Local Abbreviation handle' := (handle chalk verbose route selected).
Local Abbreviation handleAll' := (handleAll chalk verbose route selected).
Local Abbreviation await' := (awaitAllSettled chalk verbose route selected).

Local Abbreviation wellFormed := (wellFormed selected).

Lemma wellFormed_initial (lines : list jsstring) :
  wellFormed (initialState lines selected).
Proof.
  split; simpl.
  - rewrite map_map. simpl. apply map_id.
  - apply length_map.
Qed.

Lemma handle_wellFormed (st : RunState) (e : nat * ChildEvent) :
  wellFormed st -> wellFormed (handle' st e).
Proof.
  intros [Hw Hp]. unfold handle. destruct e as [i [chunk|code|message]]; simpl.
  - destruct (nth_error selected i) as [wt|] eqn:Es; [|now split].
    destruct (nth_error (processInfos st) i) as [info|] eqn:Ei; [|now split].
    split; simpl; [|assumption].
    rewrite <- Hw. apply nth_error_ext. intros j.
    rewrite !nth_error_map, nth_error_update.
    destruct (j =? i) eqn:E; [|reflexivity].
    apply Nat.eqb_eq in E. subst j. now rewrite Ei.
  - split; simpl; [assumption|]. now rewrite update_length.
  - split; simpl; [assumption|]. now rewrite update_length.
Qed.

Lemma handleAll_wellFormed (evs : list (nat * ChildEvent)) (st : RunState) :
  wellFormed st -> wellFormed (handleAll' st evs).
Proof.
  revert st; induction evs as [|e evs IH]; intros st H; [assumption|].
  apply IH. now apply handle_wellFormed.
Qed.

Lemma handle_info (st : RunState) (e : nat * ChildEvent) (i : nat)
    (info : ProcessInfo) :
  wellFormed st ->
  nth_error (processInfos st) i = Some info ->
  nth_error (processInfos (handle' st e)) i =
  Some {| worktree := worktree info;
          urls := urls info
                  ++ flat_map extractUrls (chunks (ownEvents i [e]));
          output := output info ++ chunks (ownEvents i [e]) |}.
Proof.
  intros [Hw _] Hi. unfold handle, ownEvents. cbn [filter].
  destruct e as [j ev]. cbn [fst snd].
  destruct ev as [chunk|code|message].
  - destruct (nth_error selected j) as [wt|] eqn:Es.
    + destruct (nth_error (processInfos st) j) as [info'|] eqn:Ej.
      * cbn [processInfos]. rewrite nth_error_update.
        rewrite (Nat.eqb_sym i j).
        destruct (j =? i) eqn:E.
        -- apply Nat.eqb_eq in E. subst j. rewrite Hi in Ej.
           injection Ej as <-. rewrite Hi. cbn. now rewrite !app_nil_r.
        -- rewrite Hi. cbn. now rewrite info_eta.
      * destruct (j =? i) eqn:E.
        -- apply Nat.eqb_eq in E. subst j. congruence.
        -- rewrite Hi. cbn. now rewrite info_eta.
    + destruct (j =? i) eqn:E.
      * apply Nat.eqb_eq in E. subst j. exfalso.
        rewrite <- Hw, nth_error_map, Hi in Es. discriminate.
      * rewrite Hi. cbn. now rewrite info_eta.
  - cbn [processInfos]. rewrite Hi.
    destruct (j =? i); cbn; now rewrite info_eta.
  - cbn [processInfos]. rewrite Hi.
    destruct (j =? i); cbn; now rewrite info_eta.
Qed.

Lemma handle_promise (st : RunState) (e : nat * ChildEvent) (i : nat)
    (p : PromiseState) :
  nth_error (runPromises st) i = Some p ->
  nth_error (runPromises (handle' st e)) i =
  Some (fold_left settle (ownEvents i [e]) p).
Proof.
  intros Hi. unfold handle, ownEvents. cbn [filter].
  destruct e as [j ev]. cbn [fst snd]. rewrite (Nat.eqb_sym j i).
  destruct ev as [chunk|code|message].
  - destruct (nth_error selected j), (nth_error (processInfos st) j);
      cbn [runPromises]; rewrite Hi; now destruct (i =? j).
  - cbn [runPromises]. rewrite nth_error_update, Hi.
    now destruct (i =? j).
  - cbn [runPromises]. rewrite nth_error_update, Hi.
    now destruct (i =? j).
Qed.

Lemma ownEvents_cons (i : nat) (e : nat * ChildEvent)
    (evs : list (nat * ChildEvent)) :
  ownEvents i (e :: evs) = ownEvents i [e] ++ ownEvents i evs.
Proof.
  unfold ownEvents. cbn [filter]. destruct (fst e =? i); reflexivity.
Qed.

Lemma ownEvents_app (i : nat) (evs1 evs2 : list (nat * ChildEvent)) :
  ownEvents i (evs1 ++ evs2) = ownEvents i evs1 ++ ownEvents i evs2.
Proof. unfold ownEvents. now rewrite filter_app, map_app. Qed.

Lemma chunks_app (evs1 evs2 : list ChildEvent) :
  chunks (evs1 ++ evs2) = chunks evs1 ++ chunks evs2.
Proof. apply flat_map_app. Qed.

Lemma handleAll_info (evs : list (nat * ChildEvent)) :
  forall (st : RunState) (i : nat) (info : ProcessInfo),
    wellFormed st ->
    nth_error (processInfos st) i = Some info ->
    nth_error (processInfos (handleAll' st evs)) i =
    Some {| worktree := worktree info;
            urls := urls info
                    ++ flat_map extractUrls (chunks (ownEvents i evs));
            output := output info ++ chunks (ownEvents i evs) |}.
Proof.
  induction evs as [|e evs IH]; intros st i info Hwf Hi.
  - cbn. now rewrite info_eta.
  - cbn [handleAll fold_left].
    pose proof (handle_info st e i info Hwf Hi) as H1.
    unfold handleAll in IH.
    rewrite (IH _ i _ (handle_wellFormed st e Hwf) H1). cbn [worktree urls output].
    rewrite (ownEvents_cons i e evs), chunks_app, flat_map_app, !app_assoc.
    reflexivity.
Qed.

Lemma handleAll_promise (evs : list (nat * ChildEvent)) :
  forall (st : RunState) (i : nat) (p : PromiseState),
    nth_error (runPromises st) i = Some p ->
    nth_error (runPromises (handleAll' st evs)) i =
    Some (fold_left settle (ownEvents i evs) p).
Proof.
  induction evs as [|e evs IH]; intros st i p Hi; [assumption|].
  cbn [handleAll fold_left]. unfold handleAll in IH.
  rewrite (IH _ i _ (handle_promise st e i p Hi)).
  now rewrite (ownEvents_cons i e evs), fold_left_app.
Qed.

Lemma await_split (evs : list (nat * ChildEvent)) :
  forall st st' later,
    await' st evs = Some (st', later) ->
    exists done,
      evs = done ++ later /\ st' = handleAll' st done
      /\ forallb isSettled (runPromises st') = true.
Proof.
  induction evs as [|e evs IH]; intros st st' later H; cbn [awaitAllSettled] in H.
  - destruct (forallb isSettled (runPromises st)) eqn:E; [|discriminate].
    injection H as <- <-. exists []. auto.
  - destruct (forallb isSettled (runPromises st)) eqn:E.
    + injection H as <- <-. exists []. auto.
    + destruct (IH _ _ _ H) as (done & -> & -> & Hs).
      exists (e :: done). auto.
Qed.

(** The wait ends with the event that settles the last promise. *)
Lemma await_prefix (evs : list (nat * ChildEvent)) :
  forall st st' later,
    await' st evs = Some (st', later) ->
    exists done,
      evs = done ++ later /\ st' = handleAll' st done
      /\ forallb isSettled (runPromises st') = true
      /\ forall shorter e rest,
           done = shorter ++ e :: rest ->
           forallb isSettled (runPromises (handleAll' st shorter)) = false.
Proof.
  induction evs as [|e evs IH]; intros st st' later H; cbn [awaitAllSettled] in H.
  - destruct (forallb isSettled (runPromises st)) eqn:E; [|discriminate].
    injection H as <- <-. exists []. repeat split; auto.
    intros [|? ?] ? ? ?; discriminate.
  - destruct (forallb isSettled (runPromises st)) eqn:E.
    + injection H as <- <-. exists []. repeat split; auto.
      intros [|? ?] ? ? ?; discriminate.
    + destruct (IH _ _ _ H) as (done & -> & -> & Hs & Hmin).
      exists (e :: done). repeat split; auto.
      intros [|e0 shorter] e1 rest Hd.
      * exact E.
      * injection Hd as <- Hd. cbn [handleAll fold_left].
        exact (Hmin shorter e1 rest Hd).
Qed.

Lemma settle_settled (p : PromiseState) (evs : list ChildEvent) :
  isSettled p = true -> fold_left settle evs p = p.
Proof.
  intros Hp. induction evs as [|ev evs IH]; [reflexivity|].
  cbn [fold_left].
  assert (E : settle p ev = p).
  { destruct p; [discriminate| |]; destruct ev as [c|[[| |]|]|m]; reflexivity. }
  now rewrite E.
Qed.

Lemma await_total (evs : list (nat * ChildEvent)) :
  forall st,
    (forall i p, nth_error (runPromises st) i = Some p ->
                 isSettled (fold_left settle (ownEvents i evs) p) = true) ->
    exists st' later, await' st evs = Some (st', later).
Proof.
  induction evs as [|e evs IH]; intros st H; cbn [awaitAllSettled].
  - destruct (forallb isSettled (runPromises st)) eqn:E; [eauto|].
    exfalso. assert (Hall : forallb isSettled (runPromises st) = true);
      [|congruence].
    apply forallb_forall. intros p Hin.
    apply In_nth_error in Hin as [i Hi]. exact (H i p Hi).
  - destruct (forallb isSettled (runPromises st)) eqn:E; [eauto|].
    apply IH. intros i p Hi.
    destruct (nth_error (runPromises st) i) as [p0|] eqn:E0.
    + rewrite (handle_promise st e i p0 E0) in Hi. injection Hi as <-.
      specialize (H i p0 E0).
      now rewrite (ownEvents_cons i e evs), fold_left_app in H.
    + exfalso. apply nth_error_None in E0.
      assert (Hl : List.length (runPromises (handle' st e))
                   = List.length (runPromises st)).
      { unfold handle. destruct e as [j [c|c|m]]; cbn [fst snd].
        - now destruct (nth_error selected j), (nth_error (processInfos st) j).
        - cbn. apply update_length.
        - cbn. apply update_length. }
      assert (Hs : nth_error (runPromises (handle' st e)) i <> None)
        by congruence.
      apply nth_error_Some in Hs. lia.
Qed.

Lemma handleAll_info_inv (evs : list (nat * ChildEvent)) (st : RunState)
    (i : nat) (info : ProcessInfo) :
  wellFormed st ->
  nth_error (processInfos (handleAll' st evs)) i = Some info ->
  exists info0,
    nth_error (processInfos st) i = Some info0
    /\ info = {| worktree := worktree info0;
                 urls := urls info0
                         ++ flat_map extractUrls (chunks (ownEvents i evs));
                 output := output info0 ++ chunks (ownEvents i evs) |}.
Proof.
  intros Hwf Hi.
  destruct (nth_error (processInfos st) i) as [info0|] eqn:E0.
  - exists info0. split; [reflexivity|].
    rewrite (handleAll_info evs st i info0 Hwf E0) in Hi. congruence.
  - exfalso. apply nth_error_None in E0.
    pose proof (handleAll_wellFormed evs st Hwf) as [Hw1 _].
    destruct Hwf as [Hw0 _].
    assert (Hn : nth_error (processInfos (handleAll' st evs)) i <> None)
      by congruence.
    apply nth_error_Some in Hn.
    rewrite <- (length_map worktree), Hw1, <- Hw0, length_map in Hn. lia.
Qed.

End RunFacts.

(** ** What [runCommand] has done when it returns *)

Lemma initial_info (lines : list jsstring) (selected : list Worktree)
    (i : nat) (info : ProcessInfo) :
  nth_error (processInfos (initialState lines selected)) i = Some info ->
  urls info = [] /\ output info = [].
Proof.
  cbn [initialState processInfos]. rewrite nth_error_map.
  destruct (nth_error selected i); [|discriminate].
  intros [= <-]. auto.
Qed.

Lemma initial_promise (lines : list jsstring) (selected : list Worktree)
    (i : nat) (p : PromiseState) :
  nth_error (runPromises (initialState lines selected)) i = Some p ->
  p = Pending.
Proof.
  cbn [initialState runPromises]. rewrite nth_error_map.
  destruct (nth_error selected i); [|discriminate]. now intros [= <-].
Qed.

Lemma runCommand_running (chalk : Chalk) (env : Env)
    (worktrees : list Worktree) :
  git_worktrees env = inr worktrees ->
  worktrees <> [] ->
  selection env worktrees <> [] ->
  runCommand chalk env =
  let selected := selection env worktrees in
  let command := res_command (resolved env) in
  let route := res_route (resolved env) in
  let st0 :=
    initialState
      (snd (loadConfig chalk (config_file env)) ++ res_log (resolved env)
       ++ [runHeader chalk command selected])
      selected in
  let spawned := map (fun wt => (path wt, command)) selected in
  match awaitAllSettled chalk (opt_verbose env) route selected st0
                        (events env) with
  | None =>
      let st := handleAll chalk (opt_verbose env) route selected st0
                          (events env) in
      {| run_console := console st; run_errors := [];
         run_spawned := spawned; run_results := None;
         run_summary := []; run_exit := None |}
  | Some (st, later) =>
      let summary :=
        printSummary chalk route (processInfos st) (runPromises st) in
      let st' :=
        handleAll chalk (opt_verbose env) route selected
          {| processInfos := processInfos st;
             runPromises := runPromises st;
             console := console st ++ summary |} later in
      {| run_console := console st'; run_errors := [];
         run_spawned := spawned;
         run_results := Some (runPromises st);
         run_summary := summary; run_exit := None |}
  end.
Proof.
  intros Hg Hw Hs. unfold runCommand. rewrite Hg.
  destruct worktrees as [|wt wts]; [congruence|]. cbn [List.length Nat.eqb].
  destruct (selection env (wt :: wts)) as [|s ss] eqn:E; [congruence|].
  reflexivity.
Qed.

Lemma runCommand_results (chalk : Chalk) (env : Env)
    (results : list PromiseState) :
  run_results (runCommand chalk env) = Some results ->
  exists worktrees,
    git_worktrees env = inr worktrees
    /\ worktrees <> [] /\ selection env worktrees <> [].
Proof.
  unfold runCommand. destruct (git_worktrees env) as [m|worktrees]; [discriminate|].
  destruct worktrees as [|wt wts]; [discriminate|]. cbn [List.length Nat.eqb].
  destruct (selection env (wt :: wts)) as [|s ss] eqn:E; [discriminate|].
  intros _. exists (wt :: wts). rewrite E. repeat split; discriminate.
Qed.

Lemma runCommand_settled (chalk : Chalk) (env : Env)
    (worktrees : list Worktree) (results : list PromiseState) :
  git_worktrees env = inr worktrees ->
  run_results (runCommand chalk env) = Some results ->
  exists done later infos,
    events env = done ++ later
    /\ map worktree infos = selection env worktrees
    /\ List.length results = List.length (selection env worktrees)
    /\ (forall i info, nth_error infos i = Some info ->
        urls info = flat_map extractUrls (chunks (ownEvents i done)))
    /\ (forall i p, nth_error results i = Some p ->
        p = outcome (ownEvents i (events env)) /\ isSettled p = true)
    /\ run_summary (runCommand chalk env)
       = printSummary chalk (res_route (resolved env)) infos results
    /\ run_spawned (runCommand chalk env)
       = map (fun wt => (path wt, res_command (resolved env)))
             (selection env worktrees).
Proof.
  intros Hg Hr.
  destruct (runCommand_results chalk env results Hr) as (w' & Hg' & Hw & Hs).
  assert (w' = worktrees) by congruence. subst w'.
  rewrite (runCommand_running chalk env worktrees Hg Hw Hs) in Hr |- *.
  cbv zeta in Hr |- *.
  set (selected := selection env worktrees) in *.
  set (st0 := initialState _ selected) in *.
  destruct (awaitAllSettled _ _ _ _ st0 (events env)) as [[st later]|] eqn:E;
    [|discriminate].
  cbn [run_results] in Hr. injection Hr as <-.
  apply await_split in E as (done & Hev & -> & Hall).
  pose proof (wellFormed_initial selected
                (snd (loadConfig chalk (config_file env))
                 ++ res_log (resolved env)
                 ++ [runHeader chalk (res_command (resolved env)) selected]))
    as Hwf0.
  fold st0 in Hwf0.
  pose proof (handleAll_wellFormed chalk (opt_verbose env)
                (res_route (resolved env)) selected done st0 Hwf0) as [Hw1 Hw2].
  exists done, later, (processInfos (handleAll chalk (opt_verbose env)
                         (res_route (resolved env)) selected st0 done)).
  split; [assumption|]. split; [assumption|]. split; [assumption|].
  split; [|split; [|split; reflexivity]].
  - intros i info Hi.
    destruct (nth_error (processInfos st0) i) as [info0|] eqn:E0.
    + rewrite (handleAll_info chalk _ _ selected done st0 i info0 Hwf0 E0) in Hi.
      injection Hi as <-. cbn [urls].
      apply initial_info in E0 as [-> _]. reflexivity.
    + exfalso. apply nth_error_None in E0.
      assert (Hn : nth_error (map worktree (processInfos (handleAll chalk
                     (opt_verbose env) (res_route (resolved env)) selected
                     st0 done))) i <> None)
        by (rewrite nth_error_map, Hi; discriminate).
      apply nth_error_Some in Hn. rewrite Hw1 in Hn.
      destruct Hwf0 as [Hw0 _]. rewrite <- Hw0, length_map in Hn. lia.
  - intros i p Hi.
    destruct (nth_error (runPromises st0) i) as [p0|] eqn:E0.
    + pose proof (initial_promise _ _ _ _ E0). subst p0.
      pose proof (handleAll_promise chalk (opt_verbose env)
                    (res_route (resolved env)) selected done st0 i Pending E0)
        as Hp.
      rewrite Hp in Hi. injection Hi as <-.
      assert (Hset : isSettled (fold_left settle (ownEvents i done) Pending)
                     = true).
      { rewrite forallb_forall in Hall. apply Hall.
        eapply nth_error_In. exact Hp. }
      split; [|exact Hset].
      unfold outcome. rewrite Hev, ownEvents_app, fold_left_app.
      rewrite (settle_settled _ (ownEvents i later) Hset). reflexivity.
    + exfalso. apply nth_error_None in E0.
      assert (Hn : nth_error (runPromises (handleAll chalk (opt_verbose env)
                     (res_route (resolved env)) selected st0 done)) i <> None)
        by (rewrite Hi; discriminate).
      apply nth_error_Some in Hn. destruct Hwf0 as [_ Hl0]. lia.
Qed.

Lemma runCommand_total (chalk : Chalk) (env : Env)
    (worktrees : list Worktree) :
  git_worktrees env = inr worktrees ->
  worktrees <> [] ->
  selection env worktrees <> [] ->
  forallb (fun i => isSettled (outcome (ownEvents i (events env))))
          (seq 0 (List.length (selection env worktrees))) = true ->
  run_results (runCommand chalk env)
  = Some (map (fun i => outcome (ownEvents i (events env)))
              (seq 0 (List.length (selection env worktrees)))).
Proof.
  intros Hg Hw Hs Hall.
  assert (Hex : exists results,
             run_results (runCommand chalk env) = Some results).
  { rewrite (runCommand_running chalk env worktrees Hg Hw Hs). cbv zeta.
    set (selected := selection env worktrees) in *.
    set (st0 := initialState _ selected).
    destruct (await_total chalk (opt_verbose env) (res_route (resolved env))
                selected (events env) st0) as (st' & later & E).
    - intros i p Hi. pose proof (initial_promise _ _ _ _ Hi). subst p.
      rewrite forallb_forall in Hall. apply (Hall i).
      apply in_seq. split; [lia|]. simpl.
      assert (Hn : nth_error (runPromises st0) i <> None) by congruence.
      apply nth_error_Some in Hn. unfold st0 in Hn.
      cbn [initialState runPromises] in Hn. now rewrite length_map in Hn.
    - rewrite E. eexists. reflexivity. }
  destruct Hex as (results & Hr). rewrite Hr. f_equal.
  destruct (runCommand_settled chalk env worktrees results Hg Hr)
    as (done & later & infos & _ & _ & Hlen & _ & Hres & _).
  apply nth_error_ext. intros i.
  rewrite nth_error_map, nth_error_seq.
  destruct (i <? List.length (selection env worktrees)) eqn:E.
  - apply Nat.ltb_lt in E.
    destruct (nth_error results i) as [p|] eqn:Ei.
    + destruct (Hres i p Ei) as [-> _]. reflexivity.
    + apply nth_error_None in Ei. lia.
  - apply Nat.ltb_ge in E. apply nth_error_None. lia.
Qed.

(** ** Rendering *)

Lemma mapi_from_ext {A B : Type} (f g : nat -> A -> B) (l : list A) :
  forall k,
    (forall i x, nth_error l i = Some x -> f (k + i) x = g (k + i) x) ->
    mapi_from f k l = mapi_from g k l.
Proof.
  induction l as [|x l IH]; intros k H; [reflexivity|]. cbn [mapi_from].
  f_equal.
  - specialize (H 0 x eq_refl). now rewrite Nat.add_0_r in H.
  - apply IH. intros i y Hi. specialize (H (S i) y Hi).
    now rewrite Nat.add_succ_r in H.
Qed.

Lemma mapi_ext {A B : Type} (f g : nat -> A -> B) (l : list A) :
  (forall i x, nth_error l i = Some x -> f i x = g i x) ->
  mapi f l = mapi g l.
Proof. intros H. apply mapi_from_ext. exact H. Qed.

Lemma normalizedRoute_withSlash (route : jsstring) :
  normalizedRoute route = Spec.withSlash route.
Proof.
  unfold normalizedRoute, Spec.withSlash. destruct route as [|b r]; [reflexivity|].
  cbn [list_ascii_of_string Str.startsWith]. rewrite andb_true_r. unfold Char.eqb.
  destruct (Ascii.eqb "/" b) eqn:E.
  - apply Ascii.eqb_eq in E. subst b. reflexivity.
  - destruct b as [[] [] [] [] [] [] [] []]; try reflexivity. discriminate.
Qed.

Lemma extractUrls_nil : extractUrls [] = [].
Proof. reflexivity. Qed.

Lemma isErrorLine_nil : isErrorLine [] = false.
Proof. reflexivity. Qed.

Lemma shouldShowLine_nil : shouldShowLine [] = false.
Proof. reflexivity. Qed.

Lemma length_pos_iff {A : Type} (l : list A) :
  (0 <? List.length l) = true <-> l <> [].
Proof.
  destruct l; simpl; split; try congruence; intros; try reflexivity.
  discriminate.
Qed.

(** A line that is not blank, in a run that is not verbose. *)
Lemma renderLine_quiet (chalk : Chalk) (route : option jsstring)
    (prefix line : jsstring) :
  Str.trim line <> [] ->
  renderLine chalk false route prefix line =
  if shouldShowLine line then
    if isErrorLine line then [prefix ++ $" " ++ red chalk line]
    else if 0 <? List.length (extractUrls line) then
      (prefix ++ $" " ++ green chalk line) ::
      (if truthy route then
         map (fun url =>
                routeLine chalk prefix
                          (url ++ normalizedRoute (routeText route)))
             (extractUrls line)
       else [])
    else [prefix ++ $" " ++ line]
  else [].
Proof.
  intros Hne. unfold renderLine.
  rewrite shouldShowLine_trim, isErrorLine_trim, extractUrls_trim.
  destruct (Str.trim line); [congruence|reflexivity].
Qed.

Lemma renderLine_blank (chalk : Chalk) (verbose : bool)
    (route : option jsstring) (prefix line : jsstring) :
  Str.trim line = [] -> renderLine chalk verbose route prefix line = [].
Proof. intros H. unfold renderLine. now rewrite H. Qed.

Lemma shouldShowLine_urls (line : jsstring) :
  extractUrls line <> [] -> shouldShowLine line = true.
Proof.
  intros H. unfold shouldShowLine.
  apply length_pos_iff in H. now rewrite H.
Qed.

Lemma not_blank_of (f : jsstring -> bool) (line : jsstring) :
  f [] = false -> f (Str.trim line) = true -> Str.trim line <> [].
Proof. intros H0 H1 E. rewrite E in H1. congruence. Qed.

(** ** The outcome of a process *)

Lemma outcome_firstExit (evs : list ChildEvent) :
  outcome evs = Spec.firstExit evs.
Proof.
  unfold outcome. induction evs as [|ev evs IH]; [reflexivity|].
  cbn [fold_left]. destruct ev as [chunk|code|message].
  - exact IH.
  - destruct code as [[|z|z]|]; cbn [settle onClose resolve reject Spec.firstExit];
      now rewrite settle_settled.
  - cbn [settle onError reject Spec.firstExit]. now rewrite settle_settled.
Qed.


(** ** The records and the promises of a run after its events *)

Lemma nth_error_mapi_from {A B : Type} (f : nat -> A -> B) (l : list A) :
  forall k i,
    nth_error (mapi_from f k l) i = option_map (f (k + i)) (nth_error l i).
Proof.
  induction l as [|x l IH]; intros k i.
  - now destruct i.
  - destruct i as [|i]; cbn [mapi_from nth_error option_map].
    + now rewrite Nat.add_0_r.
    + rewrite IH. now rewrite Nat.add_succ_r.
Qed.

Lemma nth_error_mapi {A B : Type} (f : nat -> A -> B) (l : list A) (i : nat) :
  nth_error (mapi f l) i = option_map (f i) (nth_error l i).
Proof. apply (nth_error_mapi_from f l 0 i). Qed.

Lemma mapi_from_mapi_from {A B C : Type} (f : nat -> B -> C)
    (g : nat -> A -> B) (l : list A) :
  forall k,
    mapi_from f k (mapi_from g k l) = mapi_from (fun i x => f i (g i x)) k l.
Proof.
  induction l as [|x l IH]; intros k; [reflexivity|].
  cbn [mapi_from]. now rewrite IH.
Qed.

Lemma mapi_mapi {A B C : Type} (f : nat -> B -> C) (g : nat -> A -> B)
    (l : list A) :
  mapi f (mapi g l) = mapi (fun i x => f i (g i x)) l.
Proof. apply mapi_from_mapi_from. Qed.

Lemma forallb_map_seq {A : Type} (p : A -> bool) (f : nat -> A) (n : nat) :
  forallb p (map f (seq 0 n)) = forallb (fun i => p (f i)) (seq 0 n).
Proof. generalize 0. induction n as [|n IH]; intros k; cbn; [|rewrite IH]; reflexivity. Qed.

Lemma records_after (chalk : Chalk) (verbose : bool) (route : option jsstring)
    (selected : list Worktree) (lines : list jsstring)
    (evs : list (nat * ChildEvent)) :
  processInfos (handleAll chalk verbose route selected
                          (initialState lines selected) evs)
  = SummarySpec.recordsAfter selected evs.
Proof.
  pose proof (wellFormed_initial selected lines) as Hwf0.
  apply nth_error_ext. intros i.
  unfold SummarySpec.recordsAfter. rewrite nth_error_mapi.
  destruct (nth_error selected i) as [wt|] eqn:E; cbn [option_map].
  - rewrite (handleAll_info chalk verbose route selected evs _ i
               {| worktree := wt; urls := []; output := [] |} Hwf0).
    + reflexivity.
    + cbn [initialState processInfos]. rewrite nth_error_map, E. reflexivity.
  - apply nth_error_None.
    pose proof (handleAll_wellFormed chalk verbose route selected evs _ Hwf0)
      as [Hw _].
    rewrite <- (length_map worktree), Hw. now apply nth_error_None.
Qed.

Lemma promises_after (chalk : Chalk) (verbose : bool) (route : option jsstring)
    (selected : list Worktree) (lines : list jsstring)
    (evs : list (nat * ChildEvent)) :
  runPromises (handleAll chalk verbose route selected
                         (initialState lines selected) evs)
  = map (fun i => Spec.firstExit (ownEvents i evs))
        (seq 0 (List.length selected)).
Proof.
  pose proof (wellFormed_initial selected lines) as Hwf0.
  apply nth_error_ext. intros i.
  rewrite nth_error_map, nth_error_seq.
  destruct (i <? List.length selected) eqn:E; cbn [option_map].
  - apply Nat.ltb_lt in E.
    rewrite (handleAll_promise chalk verbose route selected evs _ i Pending).
    + cbn [Nat.add]. f_equal. apply outcome_firstExit.
    + cbn [initialState runPromises]. rewrite nth_error_map.
      destruct (nth_error selected i) eqn:En; [reflexivity|].
      apply nth_error_None in En. lia.
  - apply Nat.ltb_ge in E. apply nth_error_None.
    pose proof (handleAll_wellFormed chalk verbose route selected evs _ Hwf0)
      as [_ Hl].
    lia.
Qed.

Lemma settled_after (chalk : Chalk) (verbose : bool) (route : option jsstring)
    (selected : list Worktree) (lines : list jsstring)
    (evs : list (nat * ChildEvent)) :
  forallb isSettled
          (runPromises (handleAll chalk verbose route selected
                                  (initialState lines selected) evs))
  = SummarySpec.allSettled (List.length selected) evs.
Proof. rewrite promises_after. apply forallb_map_seq. Qed.

Lemma firstExit_app (a b : list ChildEvent) :
  isSettled (Spec.firstExit a) = true ->
  Spec.firstExit (a ++ b) = Spec.firstExit a.
Proof.
  induction a as [|ev a IH]; intros H; [discriminate|].
  destruct ev as [chunk|[[|z|z]|]|message]; cbn [app Spec.firstExit] in *;
    auto.
Qed.

(** ** What [runCommand] has printed when every process has settled *)

Lemma runCommand_finished (chalk : Chalk) (env : Env)
    (worktrees : list Worktree) (results : list PromiseState) :
  git_worktrees env = inr worktrees ->
  run_results (runCommand chalk env) = Some results ->
  exists done later,
    events env = done ++ later
    /\ SummarySpec.settledWith (List.length (selection env worktrees)) done
    /\ results
       = map (fun i => Spec.firstExit (ownEvents i (events env)))
             (seq 0 (List.length (selection env worktrees)))
    /\ run_summary (runCommand chalk env)
       = printSummary chalk (res_route (resolved env))
           (SummarySpec.recordsAfter (selection env worktrees) done) results.
Proof.
  intros Hg Hr.
  destruct (runCommand_results chalk env results Hr) as (w' & Hg' & Hw & Hs).
  assert (w' = worktrees) by congruence. subst w'.
  rewrite (runCommand_running chalk env worktrees Hg Hw Hs) in Hr |- *.
  cbv zeta in Hr |- *.
  set (selected := selection env worktrees) in *.
  set (lines := snd (loadConfig chalk (config_file env)) ++ _) in *.
  destruct (awaitAllSettled _ _ _ _ _ (events env)) as [[st later]|] eqn:E;
    [|discriminate].
  cbn [run_results run_summary] in Hr |- *. injection Hr as <-.
  apply await_prefix in E as (done & Hev & -> & Hall & Hmin).
  exists done, later. split; [exact Hev|].
  rewrite settled_after in Hall.
  split.
  { split; [exact Hall|]. intros shorter e rest Hd.
    rewrite <- (settled_after chalk (opt_verbose env)
                  (res_route (resolved env)) selected lines).
    exact (Hmin shorter e rest Hd). }
  split.
  - rewrite promises_after. apply map_ext_in. intros i Hi.
    rewrite Hev, ownEvents_app. symmetry. apply firstExit_app.
    unfold SummarySpec.allSettled in Hall. rewrite forallb_forall in Hall.
    exact (Hall i Hi).
  - now rewrite records_after.
Qed.

(** ** The lines of the summary *)

Lemma route_variant_lines {B : Type} (route : option jsstring)
    (url : jsstring) (f : jsstring -> B) :
  (if truthy route then [f (url ++ normalizedRoute (routeText route))] else [])
  = match SummarySpec.routeVariant route url with
    | Some routeUrl => [f routeUrl]
    | None => []
    end.
Proof.
  destruct route as [[|c r]|]; cbn [truthy SummarySpec.routeVariant routeText];
    try reflexivity.
  now rewrite normalizedRoute_withSlash.
Qed.

Lemma summaryBlock_spec (chalk : Chalk) (route : option jsstring)
    (index : nat) (info : ProcessInfo) (result : PromiseState) :
  summaryBlock chalk route index info result
  = SummarySpec.block chalk route index (worktree info) (urls info) result.
Proof.
  unfold summaryBlock, SummarySpec.block, statusGlyph, uniqueUrls.
  rewrite spread_new_dedup. f_equal. f_equal.
  destruct (urls info) as [|u us] eqn:E; [reflexivity|].
  cbn [List.length Nat.ltb Nat.leb]. apply flat_map_ext. intros url.
  unfold summaryUrlLines. f_equal.
  apply (route_variant_lines route url
           (fun routeUrl => $"  " ++ gray chalk $"  Route:" ++ $" "
                            ++ underline chalk routeUrl)).
Qed.


(** ** More on the matches of a string *)

(** Nothing is found in the part of a string that a match covers. *)
Lemma scan_all_skipped (r : regex) (s : jsstring) :
  forall pos skip,
    List.length s < skip -> scan true r pos skip s = [].
Proof.
  induction s as [|c s IH]; intros pos skip H.
  - destruct skip; [simpl in H; lia|reflexivity].
  - destruct skip as [|k]; [lia|]. cbn [scan]. apply IH. simpl in H. lia.
Qed.

Lemma scan_skip_to_end (s : jsstring) (pos : nat) :
  scan true urlPattern pos (List.length s) s = [].
Proof.
  revert pos; induction s as [|c s IH]; intros pos.
  - cbn [List.length scan]. now rewrite exec_urlPattern, urlLen_nil.
  - cbn [List.length scan]. apply IH.
Qed.

Lemma isUrl_urlLen (u : jsstring) :
  Spec.isUrl u = true -> Spec.urlLen u = Some (List.length u).
Proof.
  intros H.
  destruct (urlLen_complete u (List.length u) (Nat.le_refl _)) as (n & Hn & Hle).
  - now rewrite firstn_all.
  - pose proof (urlLen_sound _ _ Hn) as (_ & _ & Hn'). 
    replace n with (List.length u) in Hn by lia. exact Hn.
Qed.

Lemma matchPositions_of_url (u : jsstring) :
  Spec.isUrl u = true ->
  matchPositions true urlPattern u = [(0, List.length u)].
Proof.
  intros H. pose proof (isUrl_urlLen u H) as E.
  unfold matchPositions. destruct u as [|c u]; [discriminate|].
  cbn [scan]. rewrite exec_urlPattern, E. f_equal.
  cbn [List.length]. rewrite Nat.sub_succ, Nat.sub_0_r.
  apply scan_skip_to_end.
Qed.

(** ** Keywords anywhere in a line *)

Lemma startsWith_app (k rest : jsstring) : Str.startsWith k (k ++ rest) = true.
Proof.
  induction k as [|a k IH]; [reflexivity|]. cbn [app Str.startsWith].
  unfold Char.eqb. now rewrite Ascii.eqb_refl, IH.
Qed.

Lemma includes_true_cons (k : jsstring) (c : ascii) (s : jsstring) :
  Str.includes k s = true -> Str.includes k (c :: s) = true.
Proof. intros H. rewrite includes_cons, H. apply orb_true_r. Qed.

Lemma includes_app (k pre post : jsstring) :
  Str.includes k (pre ++ k ++ post) = true.
Proof.
  induction pre as [|c pre IH].
  - cbn [app]. destruct (k ++ post) as [|c s] eqn:E.
    + destruct k; [reflexivity|discriminate].
    + rewrite includes_cons, <- E, startsWith_app. reflexivity.
  - cbn [app]. now apply includes_true_cons.
Qed.

Lemma toLowerCase_app (a b : jsstring) :
  Str.toLowerCase (a ++ b) = Str.toLowerCase a ++ Str.toLowerCase b.
Proof. apply map_app. Qed.

(** ** The records of a run *)

Lemma handleAll_info_None (chalk : Chalk) (verbose : bool)
    (route : option jsstring) (selected : list Worktree)
    (evs : list (nat * ChildEvent)) (st : RunState) (i : nat) :
  wellFormed selected st ->
  nth_error (processInfos st) i = None ->
  nth_error (processInfos (handleAll chalk verbose route selected st evs)) i
  = None.
Proof.
  intros Hwf H0.
  destruct (nth_error (processInfos (handleAll chalk verbose route selected
                                               st evs)) i) as [info|] eqn:E;
    [|reflexivity].
  apply handleAll_info_inv in E as (info0 & E0 & _); [congruence|assumption].
Qed.

(** ** The URLs of a chunk and of its lines *)

Lemma dedupFrom_dedupFrom {A : Type}
    (eq_dec : forall a b : A, {a = b} + {a <> b}) (l : list A) :
  forall s0 seen,
    incl s0 seen ->
    Spec.dedupFrom eq_dec seen (Spec.dedupFrom eq_dec s0 l)
    = Spec.dedupFrom eq_dec seen l.
Proof.
  induction l as [|x l IH]; intros s0 seen Hinc; [reflexivity|].
  cbn [Spec.dedupFrom].
  destruct (in_dec eq_dec x s0) as [H0|H0].
  - destruct (in_dec eq_dec x seen) as [H1|H1]; [|exfalso; auto].
    now apply IH.
  - cbn [Spec.dedupFrom].
    destruct (in_dec eq_dec x seen) as [H1|H1].
    + apply IH. intros y [<-|Hy]; auto.
    + f_equal. apply IH. intros y [<-|Hy]; [now left|right; auto].
Qed.

Lemma dedupFrom_flat_map_dedup {A B : Type}
    (eq_dec : forall a b : B, {a = b} + {a <> b})
    (f : A -> list B) (l : list A) :
  forall seen,
    Spec.dedupFrom eq_dec seen
      (flat_map (fun x => Spec.dedupFrom eq_dec [] (f x)) l)
    = Spec.dedupFrom eq_dec seen (flat_map f l).
Proof.
  induction l as [|x l IH]; intros seen; [reflexivity|].
  cbn [flat_map]. rewrite !dedupFrom_app.
  rewrite dedupFrom_dedupFrom by (intros y []).
  f_equal. rewrite IH. apply dedupFrom_ext. intros y.
  rewrite !in_app_iff, <- !in_rev, dedupFrom_In. simpl. tauto.
Qed.

Lemma matchedFrom_nil (skip : nat) : matchedFrom skip [] = [].
Proof.
  unfold matchedFrom. destruct skip; cbn [scan]; [|reflexivity].
  now rewrite exec_urlPattern, urlLen_nil.
Qed.

Lemma matchedFrom_shift (c : ascii) (s : jsstring) (k : nat) :
  map (fun p => Str.substr (fst p) (snd p) (c :: s))
      (scan true urlPattern 1 k s)
  = matchedFrom k s.
Proof.
  unfold matchedFrom.
  change (scan true urlPattern 1 k s) with (scan true urlPattern (1 + 0) k s).
  rewrite scan_shift, map_map. reflexivity.
Qed.

Lemma matchedFrom_skip (c : ascii) (s : jsstring) (k : nat) :
  matchedFrom (S k) (c :: s) = matchedFrom k s.
Proof. unfold matchedFrom at 1. cbn [scan]. apply matchedFrom_shift. Qed.

Lemma matchedFrom_here (c : ascii) (s : jsstring) :
  matchedFrom 0 (c :: s) =
  match Spec.urlLen (c :: s) with
  | Some n => firstn n (c :: s) :: matchedFrom (n - 1) s
  | None => matchedFrom 0 s
  end.
Proof.
  unfold matchedFrom at 1. cbn [scan]. rewrite exec_urlPattern.
  destruct (Spec.urlLen (c :: s)) as [n|].
  - cbn [map fst snd]. now rewrite matchedFrom_shift.
  - apply matchedFrom_shift.
Qed.

Lemma extractUrls_matchedFrom (text : jsstring) :
  extractUrls text = Spec.dedup (matchedFrom 0 text).
Proof. apply extractUrls_matchPositions. Qed.

Lemma schemes_no_space :
  forallb (fun w0 => forallb (fun a => negb (Char.isSpace (Char.toUpper a))) w0)
          Spec.schemes = true.
Proof. vm_compute. reflexivity. Qed.

Lemma countDigits_app_stop (w : ascii) (x rest : jsstring) :
  Char.isDigit w = false ->
  Spec.countDigits (x ++ w :: rest) = Spec.countDigits x.
Proof.
  intros Hw. induction x as [|c x IH]; cbn [app Spec.countDigits].
  - now rewrite Hw.
  - now rewrite IH.
Qed.

Lemma urlAt_app_space (w : ascii) (w0 x rest : jsstring) :
  Char.isSpace w = true ->
  forallb (fun a => negb (Char.isSpace (Char.toUpper a))) w0 = true ->
  Spec.urlAt w0 (x ++ w :: rest) = Spec.urlAt w0 x.
Proof.
  intros Hw. pose proof (isSpace_not_digit w Hw) as Hd.
  revert x; induction w0 as [|a w0 IH]; intros x Hall.
  - now rewrite !urlAt_nil_l, countDigits_app_stop.
  - cbn [forallb] in Hall. apply andb_true_iff in Hall as [Ha Hall].
    rewrite !urlAt_cons. destruct x as [|b x]; cbn [app].
    + destruct (Char.eqb _ _) eqn:E; [|reflexivity].
      apply Ascii.eqb_eq in E.
      destruct (isSpace_not_upper w Hw) as [_ Hu]. rewrite Hu in E.
      rewrite <- E, Hw in Ha. discriminate.
    + now rewrite IH.
Qed.

Lemma urlLen_app_space (w : ascii) (x rest : jsstring) :
  Char.isSpace w = true ->
  Spec.urlLen (x ++ w :: rest) = Spec.urlLen x.
Proof.
  intros Hw. pose proof schemes_no_space as H.
  unfold Spec.urlLen, Spec.schemes in *. cbn [forallb] in H.
  repeat (apply andb_true_iff in H as [? H]).
  cbn [Spec.firstSome].
  now rewrite !(urlAt_app_space w _ x rest Hw) by assumption.
Qed.

(** The first piece of a split and what follows it. *)
Lemma split_head (sep : ascii) (s : jsstring) :
  exists p ps tail,
    Str.split sep s = p :: ps /\ s = p ++ tail
    /\ (tail = [] /\ ps = []
        \/ exists t, tail = sep :: t /\ ps = Str.split sep t).
Proof.
  induction s as [|c s (p & ps & tail & Hs & Hp & Ht)].
  - exists [], [], []. auto.
  - cbn [Str.split]. destruct (Char.eqb c sep) eqn:E.
    + apply Ascii.eqb_eq in E. subst c.
      exists [], (Str.split sep s), (sep :: s). split; [reflexivity|].
      split; [reflexivity|]. right. now exists s.
    + rewrite Hs. exists (c :: p), ps, tail. split; [reflexivity|].
      split; [now rewrite Hp|exact Ht].
Qed.

Lemma matchedFrom_piece (sep : ascii) :
  Char.isSpace sep = true ->
  forall p tail skip,
    skip <= List.length p ->
    (tail = [] \/ exists t, tail = sep :: t) ->
    matchedFrom skip (p ++ tail) =
    matchedFrom skip p
    ++ match tail with
       | [] => []
       | _ :: t => matchedFrom 0 t
       end.
Proof.
  intros Hsep p. induction p as [|c p IH]; intros tail skip Hskip Htail.
  - cbn [List.length] in Hskip. assert (skip = 0) by lia. subst skip.
    rewrite matchedFrom_nil. cbn [app].
    destruct Htail as [->|(t & ->)]; [apply matchedFrom_nil|].
    rewrite matchedFrom_here, urlLen_space by assumption. reflexivity.
  - cbn [app]. destruct skip as [|k].
    + rewrite !matchedFrom_here.
      assert (E : Spec.urlLen (c :: p ++ tail) = Spec.urlLen (c :: p)).
      { destruct Htail as [->|(t & ->)]; [now rewrite app_nil_r|].
        change (c :: p ++ sep :: t) with ((c :: p) ++ sep :: t).
        now apply urlLen_app_space. }
      rewrite E. destruct (Spec.urlLen (c :: p)) as [n|] eqn:En.
      * pose proof (urlLen_sound _ _ En) as (_ & Hpos & Hlen).
        cbn [List.length] in Hlen.
        rewrite IH by (assumption || lia). cbn [app]. f_equal.
        change (c :: p ++ tail) with ((c :: p) ++ tail).
        rewrite firstn_app. cbn [List.length].
        replace (n - S (List.length p)) with 0 by lia.
        cbn [firstn]. now rewrite app_nil_r.
      * apply IH; [lia|assumption].
    + rewrite !matchedFrom_skip. apply IH; [simpl in Hskip; lia|assumption].
Qed.

Lemma matchedFrom_split (sep : ascii) (s : jsstring) :
  Char.isSpace sep = true ->
  matchedFrom 0 s = flat_map (matchedFrom 0) (Str.split sep s).
Proof.
  intros Hsep.
  assert (H : forall n s, List.length s <= n ->
              matchedFrom 0 s = flat_map (matchedFrom 0) (Str.split sep s)).
  { clear s. induction n as [|n IH]; intros s Hn.
    - destruct s; [|simpl in Hn; lia]. cbn [Str.split flat_map].
      now rewrite app_nil_r.
    - destruct (split_head sep s) as (p & ps & tail & Hs & Hp & Ht).
      rewrite Hs. cbn [flat_map]. rewrite Hp at 1.
      rewrite (matchedFrom_piece sep Hsep p tail 0 (Nat.le_0_l _)).
      + f_equal. destruct Ht as [[-> ->]|(t & -> & ->)]; [reflexivity|].
        apply IH. rewrite Hp, length_app in Hn. simpl in Hn. lia.
      + destruct Ht as [[-> _]|(t & -> & _)]; [now left|right; now exists t]. }
  now apply (H (List.length s)).
Qed.

(** ** Processes that have not settled *)

Lemma outcome_only_data (evs : list ChildEvent) :
  (forall ev, In ev evs -> exists chunk, ev = Data chunk) ->
  outcome evs = Pending.
Proof.
  unfold outcome. induction evs as [|ev evs IH]; intros H; [reflexivity|].
  destruct (H ev (or_introl eq_refl)) as (chunk & ->). cbn [fold_left settle].
  apply IH. intros ev' Hin. apply H. now right.
Qed.

(** ** Lines, joined and split *)

Import Porcelain.

Lemma wideSpace_bytes (w : jsstring) (c : ascii) :
  In w Str.wideSpaces -> In c w -> inert c = true.
Proof.
  intros Hw Hc. pose proof wideSpaces_inert as Hall.
  rewrite forallb_forall in Hall. specialize (Hall w Hw).
  apply andb_true_iff in Hall as [Hi _].
  rewrite forallb_forall in Hi. exact (Hi c Hc).
Qed.

Lemma startsWith_head (p s : jsstring) (a : ascii) :
  p <> [] -> Str.startsWith p (a :: s) = true -> In a p.
Proof.
  destruct p as [|b p]; [congruence|]. intros _ H.
  cbn [Str.startsWith] in H. apply andb_true_iff in H as [H _].
  apply Ascii.eqb_eq in H. subst b. now left.
Qed.

Lemma wideSpace_nonempty (w : jsstring) : In w Str.wideSpaces -> w <> [].
Proof.
  intros Hw. pose proof wideSpaces_inert as Hall.
  rewrite forallb_forall in Hall. specialize (Hall w Hw).
  apply andb_true_iff in Hall as [_ Hl]. apply Nat.ltb_lt in Hl.
  destruct w; [cbn in Hl; lia|discriminate].
Qed.

Lemma inert_false_space (a : ascii) : inert a = false -> Char.isSpace a = false.
Proof. unfold inert. intros H. now apply orb_false_iff in H as [H _]. Qed.

(** No white space character starts with a byte of another kind, and
    none ends with one. *)
Lemma spaceAt_solid (a : ascii) (s : jsstring) :
  inert a = false -> Str.spaceAt (a :: s) = None.
Proof.
  intros Ha. unfold Str.spaceAt. rewrite (inert_false_space a Ha).
  destruct (find _ Str.wideSpaces) as [w|] eqn:Ef; [|reflexivity].
  exfalso. apply find_some in Ef as [Hin Hw].
  apply startsWith_head in Hw; [|now apply wideSpace_nonempty].
  rewrite (wideSpace_bytes w a Hin Hw) in Ha. discriminate.
Qed.

Lemma spaceBefore_solid (a : ascii) (t : jsstring) :
  inert a = false -> Str.spaceBefore (a :: t) = None.
Proof.
  intros Ha. unfold Str.spaceBefore. rewrite (inert_false_space a Ha).
  destruct (find _ Str.wideSpaces) as [w|] eqn:Ef; [|reflexivity].
  exfalso. apply find_some in Ef as [Hin Hw].
  apply startsWith_head in Hw.
  - apply in_rev in Hw. rewrite (wideSpace_bytes w a Hin Hw) in Ha.
    discriminate.
  - intros E. apply (wideSpace_nonempty w Hin).
    rewrite <- (rev_involutive w), E. reflexivity.
Qed.

Lemma startsWith_app_inv (p d : jsstring) (a : ascii) (rest : jsstring) :
  Str.startsWith p (d ++ a :: rest) = true ->
  Str.startsWith p d = true \/ In a p.
Proof.
  revert d; induction p as [|b p IH]; intros d H; [now left|].
  destruct d as [|c d]; cbn [app Str.startsWith] in H |- *;
    apply andb_true_iff in H as [Hb H].
  - right. apply Ascii.eqb_eq in Hb. subst b. now left.
  - destruct (IH d H) as [Hd|Hin].
    + left. now rewrite Hb, Hd.
    + right. now right.
Qed.

(** A text that does not end with white space, put in front of a byte
    of another kind. *)
Lemma spaceBefore_app (t : jsstring) (a : ascii) (more : jsstring) :
  Str.spaceBefore t = None -> inert a = false ->
  Str.spaceBefore (t ++ a :: more) = None.
Proof.
  intros Ht Ha. destruct t as [|c t]; [now apply spaceBefore_solid|].
  unfold Str.spaceBefore in Ht |- *. cbn [app].
  destruct (Char.isSpace c); [discriminate|].
  destruct (find (fun w => Str.startsWith (rev w) (c :: t)) Str.wideSpaces)
    as [w0|] eqn:Ef0; [discriminate|].
  clear Ht.
  match goal with
  | |- option_map _ ?f = None => destruct f as [w|] eqn:Ef; [|reflexivity]
  end.
  exfalso. apply find_some in Ef as [Hin Hw].
  change (c :: t ++ a :: more) with ((c :: t) ++ a :: more) in Hw.
  apply startsWith_app_inv in Hw as [Hw|Hw].
  - pose proof (find_none _ _ Ef0 w Hin) as Hn. cbv beta in Hn. congruence.
  - apply in_rev in Hw. rewrite (wideSpace_bytes w a Hin Hw) in Ha.
    discriminate.
Qed.

Lemma strip_spaces (spaceLen : jsstring -> option nat) (ws t : jsstring) :
  (forall c s, Char.isSpace c = true -> spaceLen (c :: s) = Some 1) ->
  forallb Char.isSpace ws = true ->
  Str.strip spaceLen 0 (ws ++ t) = Str.strip spaceLen 0 t.
Proof.
  intros Hone. induction ws as [|w ws IH]; intros H; [reflexivity|].
  cbn [forallb] in H. apply andb_true_iff in H as [Hw H].
  cbn [app Str.strip]. rewrite (Hone w _ Hw). cbn [Nat.sub]. now apply IH.
Qed.

Lemma strip_none (spaceLen : jsstring -> option nat) (t : jsstring) :
  spaceLen t = None -> Str.strip spaceLen 0 t = t.
Proof. intros H. destruct t; cbn [Str.strip]; now rewrite H. Qed.

(** Trimming takes the white space after a text that starts and ends
    with other characters, and nothing else. *)
Lemma trim_exact (a : ascii) (x ws : jsstring) :
  inert a = false ->
  Str.spaceBefore (rev (a :: x)) = None ->
  forallb Char.isSpace ws = true ->
  Str.trim ((a :: x) ++ ws) = a :: x.
Proof.
  intros Ha Hl Hws. unfold Str.trim, Str.trimStart.
  change ((a :: x) ++ ws) with (a :: (x ++ ws)).
  rewrite strip_none by now apply spaceAt_solid.
  change (a :: (x ++ ws)) with ((a :: x) ++ ws).
  unfold Str.trimEnd. rewrite rev_app_distr, strip_spaces.
  - rewrite strip_none by assumption. apply rev_involutive.
  - intros c s Hc. unfold Str.spaceBefore. now rewrite Hc.
  - rewrite forallb_forall in *. intros c Hc. apply Hws. now apply in_rev.
Qed.

Lemma split_noLF (l : jsstring) :
  noLF l = true -> Str.split Text.LF l = [l].
Proof.
  induction l as [|c l IH]; intros H; [reflexivity|].
  cbn [noLF forallb] in H. apply andb_true_iff in H as [Hc H].
  cbn [Str.split]. apply negb_true_iff in Hc. rewrite Hc.
  unfold noLF in IH. now rewrite IH.
Qed.

Lemma split_line_app (l rest : jsstring) :
  noLF l = true ->
  Str.split Text.LF (l ++ Text.LF :: rest) = l :: Str.split Text.LF rest.
Proof.
  induction l as [|c l IH]; intros H.
  - cbn [app Str.split]. unfold Char.eqb. now rewrite Ascii.eqb_refl.
  - cbn [noLF forallb] in H. apply andb_true_iff in H as [Hc H].
    cbn [app Str.split]. apply negb_true_iff in Hc. rewrite Hc.
    unfold noLF in IH. now rewrite IH.
Qed.

Lemma split_joinLines (ls : list jsstring) :
  ls <> [] -> forallb noLF ls = true ->
  Str.split Text.LF (joinLines ls) = ls.
Proof.
  induction ls as [|l ls IH]; intros Hne H; [congruence|].
  cbn [forallb] in H. apply andb_true_iff in H as [Hl H].
  destruct ls as [|l2 ls].
  - cbn [joinLines]. now apply split_noLF.
  - change (joinLines (l :: l2 :: ls)) with (l ++ Text.LF :: joinLines (l2 :: ls)).
    rewrite split_line_app by assumption. f_equal.
    apply IH; [discriminate|assumption].
Qed.

Lemma render_joinLines (ls : list jsstring) :
  ls <> [] ->
  flat_map (fun line => line ++ [Text.LF]) (ls ++ [[]])
  = joinLines ls ++ [Text.LF; Text.LF].
Proof.
  induction ls as [|l ls IH]; intros Hne; [congruence|].
  destruct ls as [|l2 ls].
  - cbn. now rewrite <- app_assoc.
  - change ((l :: l2 :: ls) ++ [[]]) with (l :: ((l2 :: ls) ++ [[]])).
    cbn [flat_map]. rewrite IH by discriminate.
    change (joinLines (l :: l2 :: ls)) with (l ++ Text.LF :: joinLines (l2 :: ls)).
    now rewrite <- !app_assoc.
Qed.

Lemma joinLines_first (a : ascii) (l : jsstring) (ls : list jsstring) :
  exists x, joinLines ((a :: l) :: ls) = a :: x.
Proof.
  destruct ls as [|l2 ls]; [now exists l|].
  eexists. reflexivity.
Qed.

Lemma joinLines_cons (l0 : jsstring) (ls : list jsstring) :
  ls <> [] -> joinLines (l0 :: ls) = l0 ++ Text.LF :: joinLines ls.
Proof. destruct ls; [congruence|reflexivity]. Qed.

(** ** [parseWorktrees] on what git prints *)

Lemma parseEntry_blank (line : jsstring) (o1 o2 o1' o2' : option jsstring) :
  (o1 = o1' \/ o1 = Some [] /\ o1' = None) ->
  (o2 = o2' \/ o2 = Some [] /\ o2' = None) ->
  parseEntry line o1 o2 = parseEntry line o1' o2'.
Proof.
  intros [->|[-> ->]] [->|[-> ->]]; reflexivity.
Qed.

Lemma nth_error_snoc_blank (rest : list jsstring) (k : nat) :
  nth_error (rest ++ [[]]) k = nth_error rest k
  \/ nth_error (rest ++ [[]]) k = Some [] /\ nth_error rest k = None.
Proof.
  destruct (Nat.lt_trichotomy k (List.length rest)) as [H|[H|H]].
  - left. now apply nth_error_app1.
  - right. rewrite nth_error_app2 by lia.
    split; [|apply nth_error_None; lia].
    replace (k - List.length rest) with 0 by lia. reflexivity.
  - left. replace (nth_error rest k) with (@None jsstring)
      by (symmetry; apply nth_error_None; lia).
    apply nth_error_None. rewrite length_app. simpl. lia.
Qed.

Lemma parseLines_snoc_blank (ls : list jsstring) :
  parseLines (ls ++ [[]]) = parseLines ls.
Proof.
  induction ls as [|line rest IH]; [reflexivity|].
  cbn [app parseLines]. rewrite IH.
  rewrite (parseEntry_blank line _ _ _ _ (nth_error_snoc_blank rest 0)
                            (nth_error_snoc_blank rest 1)).
  reflexivity.
Qed.

Lemma takeUnits_ascii (s : jsstring) :
  forallb Char.isAscii s = true ->
  forall n, Text.takeUnits n s = firstn n s.
Proof.
  induction s as [|c s IH]; intros H n; [now destruct n|].
  cbn [forallb] in H. apply andb_true_iff in H as [Hc H].
  cbn [Text.takeUnits].
  assert (Hk : Text.isContinuation c = false).
  { unfold Text.isContinuation. unfold Char.isAscii in Hc.
    apply Nat.ltb_lt in Hc. apply andb_false_iff. left.
    apply Nat.leb_gt. exact Hc. }
  rewrite Hk. destruct n as [|n]; [reflexivity|].
  assert (Hl : (Char.code c <? 240) = true).
  { unfold Char.isAscii in Hc. apply Nat.ltb_lt in Hc. apply Nat.ltb_lt. lia. }
  rewrite Hl. cbn [firstn]. now rewrite IH.
Qed.

Lemma parseLines_entry (e : Listed) (rest : list jsstring) :
  wellFormed e = true ->
  parseLines (entryLines e ++ rest) = worktreeOf e :: parseLines rest.
Proof.
  unfold wellFormed. intros H. apply andb_true_iff in H as [H _].
  apply andb_true_iff in H as [_ H]. apply andb_true_iff in H as [_ Ha].
  destruct e as [p h [name| |]]; unfold entryLines, worktreeOf;
    cbn [l_path l_head l_checkout] in *.
  - cbn [app parseLines]. cbn [list_ascii_of_string Str.startsWith Char.eqb
                                Ascii.eqb Bool.eqb andb app].
    unfold parseEntry. cbn [nth_error].
    cbn [list_ascii_of_string Str.startsWith Char.eqb Ascii.eqb Bool.eqb andb
         app Text.nonEmpty skipn Text.replace List.length].
    now rewrite (takeUnits_ascii h Ha).
  - cbn [app parseLines]. cbn [list_ascii_of_string Str.startsWith Char.eqb
                                Ascii.eqb Bool.eqb andb app].
    unfold parseEntry. cbn [nth_error].
    cbn [list_ascii_of_string Str.startsWith Char.eqb Ascii.eqb Bool.eqb andb
         app Text.nonEmpty skipn Text.replace List.length].
    now rewrite (takeUnits_ascii h Ha).
  - reflexivity.
Qed.

Lemma parseLines_entries (es : list Listed) :
  forallb wellFormed es = true ->
  parseLines (flat_map entryLines es) = map worktreeOf es.
Proof.
  induction es as [|e es IH]; intros H; [reflexivity|].
  cbn [forallb] in H. apply andb_true_iff in H as [He H].
  cbn [flat_map map]. now rewrite parseLines_entry, IH.
Qed.

Lemma noLF_app (a b : jsstring) :
  noLF (a ++ b) = noLF a && noLF b.
Proof. apply forallb_app. Qed.

Lemma solidEnd_spaceBefore (s : jsstring) :
  solidEnd s = true -> Str.spaceBefore (rev s) = None.
Proof. unfold solidEnd. now destruct (Str.spaceBefore (rev s)). Qed.

(** The lines of an entry: some lines that are on one line each, the
    first one starting with [w], then a last line that does not end with
    white space, then the empty line. *)
Lemma entryLines_shape (e : Listed) :
  wellFormed e = true ->
  exists front c l,
    entryLines e = (front ++ [c :: l]) ++ [[]]
    /\ forallb noLF (front ++ [c :: l]) = true
    /\ (forall more, Str.spaceBefore (rev (c :: l) ++ more) = None)
    /\ exists y ys, front ++ [c :: l] = ("w"%char :: y) :: ys.
Proof.
  unfold wellFormed. destruct e as [p h co]. cbn [l_path l_head l_checkout].
  intros H. apply andb_true_iff in H as [H Hco].
  apply andb_true_iff in H as [Hp Hh]. apply andb_true_iff in Hh as [Hh _].
  assert (Hwp : noLF ($"worktree " ++ p) = true)
    by (rewrite noLF_app, Hp; reflexivity).
  assert (Hhh : noLF ($"HEAD " ++ h) = true)
    by (rewrite noLF_app, Hh; reflexivity).
  destruct co as [name| |]; unfold entryLines; cbn [l_path l_head l_checkout].
  - apply andb_true_iff in Hco as [Hn Hs].
    exists [ $"worktree " ++ p; $"HEAD " ++ h ], "b"%char,
      ($"ranch refs/heads/" ++ name).
    split; [reflexivity|]. split.
    + cbn [app forallb]. rewrite Hwp, Hhh.
      change ("b"%char :: $"ranch refs/heads/" ++ name)
        with ($"branch refs/heads/" ++ name).
      rewrite noLF_app, Hn. reflexivity.
    + split.
      * intros more.
        change ("b"%char :: $"ranch refs/heads/" ++ name)
          with ($"branch refs/heads" ++ "/"%char :: name).
        rewrite rev_app_distr. cbn [rev]. rewrite <- !app_assoc. cbn [app].
        apply spaceBefore_app; [now apply solidEnd_spaceBefore|reflexivity].
      * eexists; eexists; reflexivity.
  - exists [ $"worktree " ++ p; $"HEAD " ++ h ], "d"%char, $"etached".
    split; [reflexivity|]. split.
    + cbn [app forallb]. rewrite Hwp, Hhh. reflexivity.
    + split; [intros more; apply spaceBefore_solid; reflexivity|].
      eexists; eexists; reflexivity.
  - exists [ $"worktree " ++ p ], "b"%char, $"are".
    split; [reflexivity|]. split.
    + cbn [app forallb]. rewrite Hwp. reflexivity.
    + split; [intros more; apply spaceBefore_solid; reflexivity|].
      eexists; eexists; reflexivity.
Qed.

Lemma entryLines_noLF (e : Listed) :
  wellFormed e = true -> forallb noLF (entryLines e) = true.
Proof.
  intros H. destruct (entryLines_shape e H) as (front & c & l & -> & Hn & _).
  rewrite forallb_app, Hn. reflexivity.
Qed.

Lemma allLines_shape (es : list Listed) :
  es <> [] ->
  forallb wellFormed es = true ->
  exists front c l,
    flat_map entryLines es = (front ++ [c :: l]) ++ [[]]
    /\ forallb noLF (front ++ [c :: l]) = true
    /\ (forall more, Str.spaceBefore (rev (c :: l) ++ more) = None)
    /\ exists y ys, front ++ [c :: l] = ("w"%char :: y) :: ys.
Proof.
  induction es as [|e es IH]; intros Hne H; [congruence|].
  cbn [forallb] in H. apply andb_true_iff in H as [He H].
  destruct es as [|e2 es].
  - cbn [flat_map]. rewrite app_nil_r. now apply entryLines_shape.
  - destruct (IH ltac:(discriminate) H)
      as (front & c & l & E & Hn & Hl & _).
    cbn [flat_map] in E |- *. rewrite E.
    exists (entryLines e ++ front), c, l.
    split; [now rewrite <- !app_assoc|].
    split.
    + rewrite <- app_assoc, forallb_app, Hn, (entryLines_noLF e He).
      reflexivity.
    + split; [exact Hl|].
      destruct (entryLines_shape e He) as (f0 & c0 & l0 & E0 & _ & _ & y & ys & Ey).
      rewrite E0, Ey. eexists; eexists. reflexivity.
Qed.

(** The last line of a text is at the end of it. *)
Lemma joinLines_end (ls : list jsstring) (line : jsstring) :
  exists pre, joinLines (ls ++ [line]) = pre ++ line.
Proof.
  induction ls as [|l0 ls IH]; [now exists []|].
  destruct IH as (pre & E). cbn [app].
  rewrite joinLines_cons by (destruct ls; discriminate).
  exists (l0 ++ Text.LF :: pre). rewrite E, <- app_assoc. reflexivity.
Qed.

Lemma parseLines_paths (lines : list jsstring) :
  map path (parseLines lines)
  = map (skipn 9) (filter (Str.startsWith $"worktree ") lines).
Proof.
  induction lines as [|line rest IH]; [reflexivity|].
  cbn [parseLines filter]. destruct (Str.startsWith $"worktree " line).
  - cbn [map]. now rewrite IH.
  - exact IH.
Qed.

Lemma continuation_of_N (k : N) :
  (k < 64)%N -> Text.isContinuation (ascii_of_N (128 + k)) = true.
Proof.
  intros Hk. unfold Text.isContinuation, Char.code, nat_of_ascii.
  rewrite N_ascii_embedding by lia.
  apply andb_true_iff. split; [apply Nat.leb_le|apply Nat.ltb_lt]; lia.
Qed.

Lemma units_highSurrogate (c : ascii) (rest : jsstring) :
  units (Text.highSurrogate c rest) = 1.
Proof.
  unfold Text.highSurrogate. cbv zeta. cbn [map units].
  rewrite !continuation_of_N by (apply N.mod_lt; discriminate).
  reflexivity.
Qed.

Lemma units_takeUnits (s : jsstring) :
  forall n, units (Text.takeUnits n s) <= n.
Proof.
  induction s as [|c s IH]; intros n; [cbn; lia|].
  cbn [Text.takeUnits].
  destruct (Text.isContinuation c) eqn:Ec.
  - cbn [units]. rewrite Ec. apply IH.
  - destruct n as [|n]; [cbn; lia|].
    destruct (Char.code c <? 240) eqn:El.
    + cbn [units]. rewrite Ec, El. specialize (IH n). lia.
    + destruct n as [|n].
      * rewrite units_highSurrogate. lia.
      * cbn [units]. rewrite Ec, El. specialize (IH n). lia.
Qed.

Lemma parseEntry_commit (line : jsstring) (o1 o2 : option jsstring) :
  units (commit (parseEntry line o1 o2)) <= 7.
Proof.
  unfold parseEntry. cbn [commit]. destruct o1 as [h|]; [|simpl; lia].
  destruct (_ && _); [|simpl; lia].
  apply units_takeUnits.
Qed.

Lemma parseLines_commit (lines : list jsstring) :
  Forall (fun wt => units (commit wt) <= 7) (parseLines lines).
Proof.
  induction lines as [|line rest IH]; [constructor|].
  cbn [parseLines]. destruct (Str.startsWith $"worktree " line); [|exact IH].
  constructor; [apply parseEntry_commit|exact IH].
Qed.

(** ** The options of the command line *)

Lemma indexOf_app (x : jsstring) (pre post : list jsstring) :
  ~ In x pre -> Text.indexOf x (pre ++ x :: post) = Some (List.length pre).
Proof.
  induction pre as [|y pre IH]; intros H; cbn [app Text.indexOf].
  - destruct (Str.eq_dec x x); [reflexivity|congruence].
  - destruct (Str.eq_dec y x) as [->|Hne]; [exfalso; apply H; now left|].
    rewrite IH by (intros Hin; apply H; now right). reflexivity.
Qed.

Lemma nth_error_after (pre : list jsstring) (x : jsstring) (rest : list jsstring) :
  nth_error (pre ++ x :: rest) (List.length pre + 1) = nth_error rest 0.
Proof.
  rewrite nth_error_app2 by lia.
  replace (List.length pre + 1 - List.length pre) with 1 by lia. reflexivity.
Qed.

(** ** Removing worktrees *)

Lemma filteri_from_all {A : Type} (f : nat -> A -> bool) (l : list A) :
  forall i, (forall j x, i <= j -> f j x = true) -> filteri_from f i l = l.
Proof.
  induction l as [|x l IH]; intros i H; [reflexivity|].
  cbn [filteri_from]. rewrite (H i x (Nat.le_refl i)). f_equal.
  apply IH. intros j y Hj. apply H. lia.
Qed.

Lemma filteri_not_first {A : Type} (l : list A) :
  filteri (fun index _ => negb (index =? 0)) l = tl l.
Proof.
  destruct l as [|x l]; [reflexivity|]. unfold filteri. cbn [filteri_from tl].
  cbn [Nat.eqb negb]. apply filteri_from_all. intros [|j] _ Hj; [lia|reflexivity].
Qed.

Lemma removeCommand_inj (p p' : jsstring) :
  removeCommand p = removeCommand p' -> p = p'.
Proof.
  unfold removeCommand. intros H. apply app_inv_head in H.
  apply app_inv_head in H. now apply app_inv_tail in H.
Qed.

Lemma forceRemoveCommand_inj (p p' : jsstring) :
  forceRemoveCommand p = forceRemoveCommand p' -> p = p'.
Proof.
  unfold forceRemoveCommand. intros H. apply app_inv_head in H.
  apply app_inv_head in H. now apply app_inv_tail in H.
Qed.

Lemma isForce_remove (p : jsstring) : isForce (removeCommand p) = false.
Proof. reflexivity. Qed.

Lemma isForce_force (p : jsstring) : isForce (forceRemoveCommand p) = true.
Proof. reflexivity. Qed.

Lemma remove_not_force (p p' : jsstring) :
  removeCommand p <> forceRemoveCommand p'.
Proof.
  intros H. pose proof (isForce_remove p) as H1.
  rewrite H, isForce_force in H1. discriminate.
Qed.

Section RemoveFacts.

Variable chalk : Chalk.
Variable World : Type.
Variable execGit : World -> jsstring -> World * option jsstring.

Local Abbreviation removeEach' := (removeEach chalk World execGit).

Lemma removeEach_commands (wts : list Worktree) :
  forall w cmd,
    In cmd (snd (removeEach' w wts)) ->
    exists wt, In wt wts
               /\ (cmd = removeCommand (path wt)
                   \/ cmd = forceRemoveCommand (path wt)).
Proof.
  induction wts as [|wt rest IH]; intros w cmd Hin; [destruct Hin|].
  cbn [removeEach] in Hin.
  destruct (snd (execGit w (removeCommand (path wt)))) as [m|].
  - specialize (IH (fst (execGit (fst (execGit w (removeCommand (path wt))))
                                 (forceRemoveCommand (path wt)))) cmd).
    destruct (removeEach' _ rest) as [[w' out] cmds].
    cbn [snd] in Hin, IH. destruct Hin as [<-|[<-|Hin]].
    + exists wt. split; [now left|now left].
    + exists wt. split; [now left|now right].
    + destruct (IH Hin) as (wt' & Hwt & Hc).
      exists wt'. split; [now right|exact Hc].
  - specialize (IH (fst (execGit w (removeCommand (path wt)))) cmd).
    destruct (removeEach' _ rest) as [[w' out] cmds].
    cbn [snd] in Hin, IH. destruct Hin as [<-|Hin].
    + exists wt. split; [now left|now left].
    + destruct (IH Hin) as (wt' & Hwt & Hc).
      exists wt'. split; [now right|exact Hc].
Qed.

Lemma removeEach_attempts (wts : list Worktree) :
  forall w,
    filter (fun cmd => negb (isForce cmd)) (snd (removeEach' w wts))
    = map (fun wt => removeCommand (path wt)) wts.
Proof.
  induction wts as [|wt rest IH]; intros w; [reflexivity|].
  cbn [removeEach].
  destruct (snd (execGit w (removeCommand (path wt)))) as [m|].
  - specialize (IH (fst (execGit (fst (execGit w (removeCommand (path wt))))
                                 (forceRemoveCommand (path wt))))).
    destruct (removeEach' _ rest) as [[w' out] cmds].
    cbn [snd] in IH |- *. cbn [filter map].
    rewrite isForce_remove, isForce_force. cbn [negb]. now rewrite IH.
  - specialize (IH (fst (execGit w (removeCommand (path wt))))).
    destruct (removeEach' _ rest) as [[w' out] cmds].
    cbn [snd] in IH |- *. cbn [filter map].
    rewrite isForce_remove. cbn [negb]. now rewrite IH.
Qed.

Lemma removeEach_lines (wts : list Worktree) :
  forall w,
    Forall2 (fun wt line =>
               line = removedLine chalk wt
               \/ line = forceRemovedLine chalk wt
               \/ exists message, line = failedLine chalk wt message)
            wts (snd (fst (removeEach' w wts))).
Proof.
  induction wts as [|wt rest IH]; intros w; [constructor|].
  cbn [removeEach].
  destruct (snd (execGit w (removeCommand (path wt)))) as [m|].
  - specialize (IH (fst (execGit (fst (execGit w (removeCommand (path wt))))
                                 (forceRemoveCommand (path wt))))).
    destruct (removeEach' _ rest) as [[w' out] cmds].
    cbn [fst snd] in IH |- *. constructor; [|exact IH].
    destruct (snd (execGit _ (forceRemoveCommand (path wt)))); eauto.
  - specialize (IH (fst (execGit w (removeCommand (path wt))))).
    destruct (removeEach' _ rest) as [[w' out] cmds].
    cbn [fst snd] in IH |- *. constructor; [now left|exact IH].
Qed.

Lemma removeAll_fields (w : World) (wts : list Worktree) :
  rr_commands World (removeAll chalk World execGit w wts)
  = snd (removeEach' w wts)
  /\ rr_console World (removeAll chalk World execGit w wts)
     = [ bold chalk ($"
🗑️  Removing " ++ showNat (List.length wts) ++ $" worktree(s)...
") ]
       ++ snd (fst (removeEach' w wts))
       ++ [ bold_green chalk $"
✨ Done!
" ]
  /\ rr_exit World (removeAll chalk World execGit w wts) = None.
Proof.
  unfold removeAll. destruct (removeEach' w wts) as [[w' out] cmds].
  repeat split.
Qed.

Lemma removeWorktrees_cases (env : RemoveEnv) (w : World) (stdout : jsstring) :
  rm_list env = inr stdout ->
  (exists lines,
      removeWorktrees chalk World execGit env w = said World w lines)
  \/ (confirmed env = true
      /\ removeWorktrees chalk World execGit env w
         = removeAll chalk World execGit w (toRemove env stdout)).
Proof.
  intros Hl. unfold removeWorktrees, toRemove, confirmed. rewrite Hl.
  destruct (List.length (parseWorktrees stdout) =? 0);
    [left; eexists; reflexivity|].
  rewrite filteri_not_first.
  destruct (List.length (tl (parseWorktrees stdout)) =? 0);
    [left; eexists; reflexivity|].
  destruct (rm_all env).
  - destruct (rm_confirmAll env); cbn [negb];
      [right; split; reflexivity|left; eexists; reflexivity].
  - destruct (List.length (rm_selected env) =? 0);
      [left; eexists; reflexivity|].
    destruct (rm_confirm env); cbn [negb];
      [right; split; reflexivity|left; eexists; reflexivity].
Qed.

Lemma removeWorktrees_confirmed (env : RemoveEnv) (w : World)
    (stdout : jsstring) :
  rm_list env = inr stdout ->
  tl (parseWorktrees stdout) <> [] ->
  toRemove env stdout <> [] ->
  confirmed env = true ->
  removeWorktrees chalk World execGit env w
  = removeAll chalk World execGit w (toRemove env stdout).
Proof.
  intros Hl Htl Hsel Hc. unfold removeWorktrees, toRemove, confirmed in *.
  rewrite Hl. rewrite filteri_not_first.
  destruct (parseWorktrees stdout) as [|m rest]; [cbn in Htl; congruence|].
  cbn [tl] in *. cbn [List.length Nat.eqb].
  destruct rest as [|r rest]; [congruence|]. cbn [List.length Nat.eqb].
  destruct (rm_all env).
  - now rewrite Hc.
  - destruct (rm_selected env) as [|s sel]; [congruence|].
    cbn [List.length Nat.eqb]. now rewrite Hc.
Qed.

End RemoveFacts.

(** ** Replacing the first occurrence *)

Lemma replace_absent (pat rep s : jsstring) :
  Str.includes pat s = false -> Text.replace pat rep s = s.
Proof.
  induction s as [|c s IH]; intros H.
  - cbn [Str.includes] in H. apply orb_false_iff in H as [H _].
    cbn [Text.replace]. now rewrite H.
  - rewrite includes_cons in H. apply orb_false_iff in H as [H1 H2].
    cbn [Text.replace]. rewrite H1. f_equal. now apply IH.
Qed.

Lemma startsWith_through (p d : jsstring) (a : ascii) (rest : jsstring) :
  Str.startsWith p (d ++ a :: rest) = true ->
  Str.startsWith p d = true \/ In a p.
Proof.
  revert d; induction p as [|b p IH]; intros d H; [now left|].
  destruct d as [|c d].
  - cbn [app Str.startsWith] in H. apply andb_true_iff in H as [H _].
    apply Ascii.eqb_eq in H. right. now left.
  - cbn [app Str.startsWith] in H |- *. apply andb_true_iff in H as [H1 H2].
    rewrite H1. destruct (IH d H2) as [H|H]; [now left|right; now right].
Qed.

Lemma skipn_app_exact {A : Type} (l rest : list A) :
  skipn (List.length l) (l ++ rest) = rest.
Proof. induction l; [reflexivity|assumption]. Qed.

(** A pattern whose first character does not come again in it is found
    first where it is put, after a text that does not hold it. *)
Lemma replace_after (a : ascii) (p rep d rest : jsstring) :
  ~ In a p ->
  Str.includes (a :: p) d = false ->
  Text.replace (a :: p) rep (d ++ (a :: p) ++ rest) = d ++ rep ++ rest.
Proof.
  intros Ha. induction d as [|c d IH]; intros H.
  - cbn [app]. change (a :: p ++ rest) with ((a :: p) ++ rest).
    destruct ((a :: p) ++ rest) as [|x y] eqn:E; [discriminate|].
    cbn [Text.replace]. rewrite <- E, startsWith_app, skipn_app_exact.
    reflexivity.
  - rewrite includes_cons in H. apply orb_false_iff in H as [H1 H2].
    cbn [app Text.replace].
    match goal with
    | |- context [if ?b then _ else _] => assert (E : b = false)
    end.
    { match goal with |- ?b = false => destruct b eqn:E end; [|reflexivity].
      exfalso.
      cbn [Str.startsWith] in E. apply andb_true_iff in E as [E1 E2].
      apply startsWith_through in E2 as [E2|E2]; [|auto].
      cbn [Str.startsWith] in H1. rewrite E1, E2 in H1. discriminate. }
    rewrite E. f_equal. now apply IH.
Qed.

Lemma replace_default_label (d : jsstring) :
  Str.includes $" (default)" d = false ->
  Text.replace $" (default)" [] (d ++ $" (default)") = d.
Proof.
  intros H.
  pose proof (replace_after " "%char $"(default)" [] d []) as E.
  cbn [app] in E. rewrite app_nil_r in E.
  change (" "%char :: $"(default)") with $" (default)" in E.
  rewrite E; [now rewrite app_nil_r| |exact H].
  intros Hin. cbn in Hin.
  repeat destruct Hin as [Hin|Hin]; try discriminate Hin. exact Hin.
Qed.

(** ** Adding to a list of the configuration *)

Lemma includes_In (l : list jsstring) (x : jsstring) :
  Text.includes l x = true <-> In x l.
Proof.
  unfold Text.includes. destruct (in_dec Str.eq_dec x l); split; auto.
  discriminate.
Qed.

Lemma pushNew_In (l : option (list jsstring)) (x : jsstring) :
  In x (pushNew l x).
Proof.
  destruct l as [l|]; cbn [pushNew]; [|now left].
  destruct (Text.includes l x) eqn:E; [now apply includes_In|].
  apply in_or_app. right. now left.
Qed.

Lemma pushNew_again (l : option (list jsstring)) (x : jsstring) :
  pushNew (Some (pushNew l x)) x = pushNew l x.
Proof.
  cbn [pushNew]. pose proof (pushNew_In l x) as H.
  apply includes_In in H. now rewrite H.
Qed.

Lemma pushNew_NoDup (l : option (list jsstring)) (x : jsstring) :
  NoDup (orEmpty l) -> NoDup (pushNew l x).
Proof.
  destruct l as [l|]; cbn [pushNew orEmpty]; intros H.
  - destruct (Text.includes l x) eqn:E; [exact H|].
    apply NoDup_app; [exact H|repeat constructor; intros []|].
    intros y Hy [<-|[]]. apply includes_In in Hy. congruence.
  - repeat constructor. intros [].
Qed.

Lemma pushNew_keeps (l : option (list jsstring)) (x : jsstring) :
  exists more, pushNew l x = orEmpty l ++ more.
Proof.
  destruct l as [l|]; cbn [pushNew orEmpty]; [|now exists [x]].
  destruct (Text.includes l x); [exists []; now rewrite app_nil_r|now exists [x]].
Qed.

(** ** Copying files *)

Section CopyFacts.

Variable chalk : Chalk.
Variable pathJoin : jsstring -> jsstring -> jsstring.
Variable dirname : jsstring -> jsstring.
Variable FS : Type.
Variable readConfig : FS -> jsstring -> ConfigFile.
Variable existsSync : FS -> jsstring -> bool.
Variable mkdirSync : FS -> jsstring -> FS * option jsstring.
Variable copyFileSync : FS -> jsstring -> jsstring -> FS * option jsstring.
Variable saveConfig : FS -> jsstring -> Config -> FS * option jsstring.

Local Abbreviation copyEach' :=
  (copyEach chalk pathJoin dirname FS existsSync mkdirSync copyFileSync).
Local Abbreviation saveChosen' := (saveChosen chalk FS saveConfig).
Local Abbreviation copyFiles' :=
  (copyFiles chalk pathJoin dirname FS readConfig existsSync mkdirSync
             copyFileSync saveConfig).











End CopyFacts.

(** * The claims of the specification *)

(** ** URL extraction *)

(** C1. For every line, [extractUrls] returns the URLs of the line: the
    substrings that are one of [http://localhost:], [https://localhost:],
    [http://127.0.0.1:] and [localhost:] (letter case apart) followed by
    one or more digits. They are taken from left to right, each one as
    long as it can be (a URL that lies inside a longer one, as
    [localhost:30] does in [http://localhost:3000], is part of that
    match), and the list is given without repetitions (equal strings),
    every URL at the place where it is seen first. *)
Theorem extractUrls_spec (line : jsstring) :
  exists occs : list (nat * nat),
    extractUrls line
    = Spec.dedup (map (fun p => Str.substr (fst p) (snd p) line) occs)
    /\ StronglySorted (fun a b => fst a + snd a <= fst b) occs
    /\ (forall i n, In (i, n) occs -> Spec.occursAt line i n)
    /\ (forall j m, Spec.occursAt line j m ->
        exists i n, In (i, n) occs /\ i <= j /\ j + m <= i + n)
    /\ NoDup (extractUrls line)
    /\ (forall u, In u (extractUrls line) -> Spec.isUrl u = true).
Proof.
  exists (matchPositions true urlPattern line).
  assert (Hsound : forall i n,
             In (i, n) (matchPositions true urlPattern line) ->
             Spec.occursAt line i n).
  { intros i n Hin. apply scan_sound in Hin as [_ Hocc].
    now rewrite Nat.sub_0_r in Hocc. }
  split; [apply extractUrls_matchPositions|].
  split; [apply scan_sorted|].
  split; [exact Hsound|].
  split.
  - intros j m Hocc.
    destruct (scan_complete line 0 0 j m (Nat.le_0_l j) Hocc)
      as (i & n & Hin & H1 & H2).
    exists i, n. split; [exact Hin|]. simpl in H1, H2. lia.
  - rewrite extractUrls_matchPositions. split; [apply dedup_NoDup|].
    intros u Hu. apply dedup_In, in_map_iff in Hu as ([i n] & <- & Hin).
    apply Hsound in Hin as [_ H]. exact H.
Qed.

Example extractUrls_two_forms :
  extractUrls $"Local:   http://localhost:5173/ and https://LocalHost:80x"
  = [$"http://localhost:5173"; $"https://LocalHost:80"].
Proof. vm_compute. reflexivity. Qed.

Example extractUrls_repeated :
  extractUrls $"localhost:3000 http://127.0.0.1:8080 localhost:3000"
  = [$"localhost:3000"; $"http://127.0.0.1:8080"].
Proof. vm_compute. reflexivity. Qed.

(** C2, as the specification states it: the second match would be dropped
    as a repetition of the first. It is not: the two strings differ. *)
Lemma extractUrls_example_not_one :
  extractUrls $"Server on http://localhost:3000 and LOCALHOST:3000"
  <> [$"http://localhost:3000"].
Proof. vm_compute. discriminate. Qed.

(** C2, amended. On the line of the example both matches are returned:
    repetitions are recognised by equality of strings, and
    [LOCALHOST:3000] is not the string [http://localhost:3000]. *)
Theorem extractUrls_example :
  extractUrls $"Server on http://localhost:3000 and LOCALHOST:3000"
  = [$"http://localhost:3000"; $"LOCALHOST:3000"].
Proof. vm_compute. reflexivity. Qed.

(** ** Routes *)

(** C7. For a route that is supplied (not empty) and a URL, the variant
    with the route is the URL followed by the route, the route getting a
    slash in front exactly when it does not start with one: in both
    sections of the summary and in the route lines written while the
    command runs. The route [pitchdeck/1] and the URL
    [http://localhost:3000] give [http://localhost:3000/pitchdeck/1]. *)
Theorem route_variant (chalk : Chalk) (r url : jsstring) :
  r <> [] ->
  normalizedRoute r = Spec.withSlash r
  /\ summaryUrlLines chalk (Some r) url
     = [ $"  " ++ gray chalk $"→" ++ $" " ++ underline chalk url;
         $"  " ++ gray chalk $"  Route:" ++ $" "
         ++ underline chalk (url ++ Spec.withSlash r) ]
  /\ globalUrlLines chalk (Some r) url
     = [ $"  " ++ cyan chalk $"•" ++ $" " ++ underline chalk url;
         $"    " ++ gray chalk $"Route:" ++ $" "
         ++ underline chalk (url ++ Spec.withSlash r) ]
  /\ (forall prefix line,
         In url (extractUrls line) -> isErrorLine line = false ->
         In (routeLine chalk prefix (url ++ Spec.withSlash r))
            (renderLine chalk false (Some r) prefix line))
  /\ $"http://localhost:3000" ++ normalizedRoute $"pitchdeck/1"
     = $"http://localhost:3000/pitchdeck/1".
Proof.
  intros Hr.
  assert (Ht : truthy (Some r) = true) by (destruct r; [congruence|reflexivity]).
  split; [apply normalizedRoute_withSlash|].
  split.
  { unfold summaryUrlLines. rewrite Ht. cbn [routeText].
    now rewrite normalizedRoute_withSlash. }
  split.
  { unfold globalUrlLines. rewrite Ht. cbn [routeText].
    now rewrite normalizedRoute_withSlash. }
  split; [|reflexivity].
  intros prefix line Hin Herr.
  assert (Hne : extractUrls line <> []) by (intros E; rewrite E in Hin; destruct Hin).
  assert (Hb : Str.trim line <> []).
  { intros E. apply Hne. rewrite <- extractUrls_trim, E. reflexivity. }
  rewrite renderLine_quiet by assumption.
  rewrite shouldShowLine_urls, Herr by assumption.
  apply length_pos_iff in Hne. rewrite Hne, Ht. cbn [routeText].
  right. rewrite <- normalizedRoute_withSlash.
  apply (in_map (fun u => routeLine chalk prefix (u ++ normalizedRoute r))).
  exact Hin.
Qed.

Lemma route_variant_witness :
  $"pitchdeck/1" <> []
  /\ summaryUrlLines plainChalk (Some $"pitchdeck/1") $"http://localhost:3000"
     = [ $"  → http://localhost:3000";
         $"    Route: http://localhost:3000/pitchdeck/1" ].
Proof.
  assert (H : $"pitchdeck/1" <> []) by discriminate.
  split; [exact H|].
  destruct (route_variant plainChalk $"pitchdeck/1" $"http://localhost:3000" H)
    as (_ & E & _).
  rewrite E. reflexivity.
Defined.

(** C8, as the specification states it: a line with a URL would get its
    route lines also when it matches the error vocabulary. The line
    below has a URL and is rendered, and no route line follows it. *)
Lemma error_line_without_route_line :
  let line := $"Error: port 3000 is in use, trying http://localhost:3001" in
  extractUrls line = [$"http://localhost:3001"]
  /\ renderLine plainChalk false (Some $"/app") $"[main]" line
     = [$"[main] " ++ line]
  /\ ~ In (routeLine plainChalk $"[main]"
                     ($"http://localhost:3001" ++ normalizedRoute $"/app"))
          (renderLine plainChalk false (Some $"/app") $"[main]" line).
Proof.
  cbv zeta. split; [vm_compute; reflexivity|].
  split; [vm_compute; reflexivity|].
  vm_compute. intros [H|[]]. discriminate H.
Qed.

(** C8, amended. When the run is not verbose and a route is supplied, a
    line with at least one URL that does not match the error vocabulary
    is written in green and followed by one route line per URL of the
    line, the URL with the normalised route; a line with a URL that
    matches the error vocabulary is written once, in red, with no route
    line. *)
Theorem route_lines (chalk : Chalk) (r prefix line : jsstring) :
  r <> [] ->
  extractUrls line <> [] ->
  renderLine chalk false (Some r) prefix line =
  if isErrorLine line then [prefix ++ $" " ++ red chalk line]
  else
    (prefix ++ $" " ++ green chalk line) ::
    map (fun url => routeLine chalk prefix (url ++ Spec.withSlash r))
        (extractUrls line).
Proof.
  intros Hr Hne.
  assert (Ht : truthy (Some r) = true) by (destruct r; [congruence|reflexivity]).
  assert (Hb : Str.trim line <> []).
  { intros E. apply Hne. rewrite <- extractUrls_trim, E. reflexivity. }
  rewrite renderLine_quiet by assumption.
  rewrite shouldShowLine_urls by assumption.
  destruct (isErrorLine line); [reflexivity|].
  apply length_pos_iff in Hne. rewrite Hne, Ht. cbn [routeText].
  f_equal. apply map_ext. intros u. now rewrite normalizedRoute_withSlash.
Qed.

Lemma route_lines_witness :
  $"app" <> []
  /\ extractUrls $"  Local: http://localhost:5173/ or localhost:5173 " <> []
  /\ renderLine plainChalk false (Some $"app") $"[main]"
                $"  Local: http://localhost:5173/ or localhost:5173 "
     = [ $"[main]   Local: http://localhost:5173/ or localhost:5173 ";
         $"[main] ┃ Route   http://localhost:5173/app";
         $"[main] ┃ Route   localhost:5173/app" ].
Proof.
  assert (H1 : $"app" <> []) by discriminate.
  assert (H2 : extractUrls $"  Local: http://localhost:5173/ or localhost:5173 "
               <> []) by (vm_compute; discriminate).
  split; [exact H1|]. split; [exact H2|].
  rewrite (route_lines plainChalk _ _ _ H1 H2). vm_compute. reflexivity.
Defined.

(** ** Which lines are shown *)



(** ** The URLs of a worktree *)

(** C3, as the specification states it: the URLs collected for a worktree
    would never hold a string twice. After two chunks that show the same
    URL they do. *)
Lemma urls_repeated_across_chunks :
  exists info,
    nth_error
      (processInfos
         (handleAll plainChalk false None [Example.wtMain]
                    (initialState [] [Example.wtMain]) Example.twoChunks))
      0 = Some info
    /\ urls info = [$"http://localhost:3000"; $"http://localhost:3000"]
    /\ ~ NoDup (urls info).
Proof.
  eexists. split; [vm_compute; reflexivity|]. cbn [urls].
  split; [reflexivity|].
  intros H. inversion_clear H as [|? ? Hn _]. apply Hn. now left.
Qed.

(** C3, amended. After every chunk, the URLs collected for a worktree
    are the URLs of its chunks, chunk after chunk in the order of
    arrival: the URLs of one chunk are without repetitions, and a URL
    that several chunks show is kept once per chunk. The repetitions are
    removed when the summary is printed: the URLs of the worktree's block
    are without repetitions, and are the URLs collected. *)
Theorem urls_accumulated (chalk : Chalk) (verbose : bool)
    (route : option jsstring) (selected : list Worktree)
    (lines : list jsstring) (evs : list (nat * ChildEvent))
    (i : nat) (info : ProcessInfo) :
  nth_error
    (processInfos
       (handleAll chalk verbose route selected
                  (initialState lines selected) evs))
    i = Some info ->
  urls info = flat_map extractUrls (chunks (ownEvents i evs))
  /\ (forall chunk, NoDup (extractUrls chunk))
  /\ NoDup (uniqueUrls info)
  /\ (forall u, In u (uniqueUrls info) <-> In u (urls info)).
Proof.
  intros Hi.
  apply handleAll_info_inv in Hi as (info0 & H0 & ->);
    [|apply wellFormed_initial].
  apply initial_info in H0 as [-> _]. cbn [urls app].
  split; [reflexivity|]. split.
  - intros chunk. rewrite extractUrls_matchPositions. apply dedup_NoDup.
  - unfold uniqueUrls. cbn [urls]. rewrite spread_new_dedup.
    split; [apply dedup_NoDup|]. intros u. apply dedup_In.
Qed.

Lemma urls_accumulated_witness :
  exists info,
    nth_error
      (processInfos
         (handleAll plainChalk false None [Example.wtMain]
                    (initialState [] [Example.wtMain]) Example.twoChunks))
      0 = Some info
    /\ urls info = flat_map extractUrls (chunks (ownEvents 0 Example.twoChunks))
    /\ NoDup (uniqueUrls info).
Proof.
  eexists. split; [vm_compute; reflexivity|].
  match goal with
  | |- urls ?x = _ /\ _ =>
      assert (H : nth_error
                    (processInfos
                       (handleAll plainChalk false None [Example.wtMain]
                          (initialState [] [Example.wtMain])
                          Example.twoChunks)) 0 = Some x)
        by (vm_compute; reflexivity);
      destruct (urls_accumulated _ _ _ _ _ _ _ _ H) as (E & _ & Hn & _)
  end.
  split; [exact E|exact Hn].
Defined.

(** C10. In the summary, the block of a worktree lists the URLs
    collected for it without repetitions (equal strings), every URL where
    it is seen first: a URL collected from several chunks is printed
    once. *)
Theorem summary_block_urls (chalk : Chalk) (route : option jsstring)
    (index : nat) (info : ProcessInfo) (result : PromiseState) :
  summaryBlock chalk route index info result
  = [ statusGlyph chalk result ++ $" "
      ++ getWorktreeColor chalk index (branch (worktree info))
      ++ $" (" ++ path (worktree info) ++ $")" ]
    ++ flat_map (summaryUrlLines chalk route) (Spec.dedup (urls info))
    ++ match result with
       | Rejected message =>
           [ $"  " ++ red chalk $"Error:" ++ $" " ++ message ]
       | _ => []
       end
    ++ [ [] ]
  /\ NoDup (Spec.dedup (urls info))
  /\ (forall u, In u (Spec.dedup (urls info)) <-> In u (urls info))
  /\ (forall u, In u (urls info) ->
      In ($"  " ++ gray chalk $"→" ++ $" " ++ underline chalk u)
         (summaryBlock chalk route index info result)).
Proof.
  assert (E : (if 0 <? List.length (urls info)
               then flat_map (summaryUrlLines chalk route) (uniqueUrls info)
               else [])
              = flat_map (summaryUrlLines chalk route) (Spec.dedup (urls info))).
  { unfold uniqueUrls. rewrite spread_new_dedup.
    destruct (urls info); reflexivity. }
  split; [unfold summaryBlock; now rewrite E|].
  split; [apply dedup_NoDup|]. split; [intros u; apply dedup_In|].
  intros u Hu. unfold summaryBlock. rewrite E.
  apply in_or_app. right. apply in_or_app. left.
  apply in_flat_map. exists u. split; [now apply dedup_In|]. now left.
Qed.

Example summary_block_two_chunks :
  summaryBlock plainChalk None 0
    {| worktree := Example.wtMain;
       urls := [$"http://localhost:3000"; $"http://localhost:3000"];
       output := [] |}
    Fulfilled
  = [ $"✓ main (/repo)"; $"  → http://localhost:3000"; [] ].
Proof. vm_compute. reflexivity. Qed.

(** ** The run *)

(** C5. When no worktree is selected, [runCommand] says so and returns:
    no process is spawned, no summary is printed, nothing is written as
    an error and the program does not exit with an error code. The
    notice is all that is written, after the warning of [loadConfig]
    when the configuration file cannot be parsed. *)
Theorem empty_selection (chalk : Chalk) (env : Env)
    (worktrees : list Worktree) :
  git_worktrees env = inr worktrees ->
  selection env worktrees = [] ->
  runCommand chalk env
  = returned
      (match config_file env with
       | BadConfigFile =>
           [ yellow chalk $"Warning: Could not parse config file" ]
       | _ => []
       end
       ++ [ yellow chalk
              (match worktrees with
               | [] => $"No worktrees found."
               | _ :: _ => $"No worktrees selected."
               end) ])
  /\ run_spawned (runCommand chalk env) = []
  /\ run_summary (runCommand chalk env) = []
  /\ run_results (runCommand chalk env) = None
  /\ run_errors (runCommand chalk env) = []
  /\ run_exit (runCommand chalk env) = None.
Proof.
  intros Hg Hs.
  assert (E : runCommand chalk env
              = returned
                  (match config_file env with
                   | BadConfigFile =>
                       [ yellow chalk $"Warning: Could not parse config file" ]
                   | _ => []
                   end
                   ++ [ yellow chalk
                          (match worktrees with
                           | [] => $"No worktrees found."
                           | _ :: _ => $"No worktrees selected."
                           end) ])).
  { unfold runCommand. rewrite Hg.
    assert (El : snd (loadConfig chalk (config_file env))
                 = match config_file env with
                   | BadConfigFile =>
                       [ yellow chalk $"Warning: Could not parse config file" ]
                   | _ => []
                   end) by (destruct (config_file env); reflexivity).
    rewrite El. destruct worktrees as [|wt wts].
    - reflexivity.
    - cbn [List.length Nat.eqb]. rewrite Hs. reflexivity. }
  rewrite E. repeat split.
Qed.

Lemma empty_selection_witness :
  selection Example.envNothingSelected [Example.wtMain; Example.wtFeature] = []
  /\ runCommand plainChalk Example.envNothingSelected
     = returned [$"No worktrees selected."].
Proof.
  assert (H : selection Example.envNothingSelected
                        [Example.wtMain; Example.wtFeature] = [])
    by reflexivity.
  split; [exact H|].
  destruct (empty_selection plainChalk Example.envNothingSelected
              [Example.wtMain; Example.wtFeature] eq_refl H) as (E & _).
  rewrite E. reflexivity.
Defined.

Example empty_selection_bad_config :
  run_console (runCommand plainChalk Example.envBadConfig)
  = [ $"Warning: Could not parse config file"; $"No worktrees selected." ]
  /\ run_spawned (runCommand plainChalk Example.envBadConfig) = []
  /\ run_exit (runCommand plainChalk Example.envBadConfig) = None.
Proof. vm_compute. repeat split. Qed.

(** The events of an example up to the one that settles the last
    process are all its events. *)
Ltac whole_run Hev Hall later :=
  unfold SummarySpec.settledWith in Hall; destruct Hall as [Hall _];
  cbn [events Example.envThreeServers Example.envOneFails] in Hev;
  repeat match type of Hev with
         | _ :: _ = ?done ++ _ =>
             destruct done as [|? done];
             [exfalso; revert Hall; vm_compute; discriminate
             |cbn [app] in Hev; injection Hev as <- Hev]
         end;
  match type of Hev with
  | [] = ?done ++ _ =>
      destruct done; [|discriminate Hev]; destruct later; [|discriminate Hev]
  end.



Example global_section_three_servers :
  run_summary (runCommand plainChalk Example.envThreeServers)
  = [ $"

📊 Summary:
";
      $"✓ main (/repo)"; $"  → http://localhost:3000"; [];
      $"✓ feature (/repo-feature)"; $"  → http://localhost:3001";
      $"  → http://localhost:3000"; [];
      $"✓ fix (/repo-fix)"; $"  → http://localhost:3002"; [];
      $"🌐 All running services:
";
      $"  • http://localhost:3000"; $"  • http://localhost:3001";
      $"  • http://localhost:3002"; [] ].
Proof. vm_compute. reflexivity. Qed.

(** C6. A run over N worktrees spawns the command in each of them and
    waits until every process has settled; the result of each worktree is
    the outcome of its own process, whatever the others do: success when
    it closes with exit code 0, failure with the exit code or with the
    spawn error otherwise. Once every process has settled the summary is
    printed, with one block per worktree in the order of the selection:
    the block starts with the mark of success or the mark of failure,
    according to that outcome, and holds the reason of a failure. With
    one process that exits with 1 and one that exits with 0, both
    outcomes are reported. *)
Theorem all_outcomes_reported (chalk : Chalk) (env : Env)
    (worktrees : list Worktree) :
  git_worktrees env = inr worktrees ->
  worktrees <> [] ->
  selection env worktrees <> [] ->
  forallb (fun i => isSettled (outcome (ownEvents i (events env))))
          (seq 0 (List.length (selection env worktrees))) = true ->
  run_results (runCommand chalk env)
  = Some (map (fun i => Spec.firstExit (ownEvents i (events env)))
              (seq 0 (List.length (selection env worktrees))))
  /\ run_spawned (runCommand chalk env)
     = map (fun wt => (path wt, res_command (resolved env)))
           (selection env worktrees)
  /\ exists done later,
      events env = done ++ later
      /\ SummarySpec.settledWith (List.length (selection env worktrees)) done
      /\ run_summary (runCommand chalk env)
         = [ bold chalk $"

📊 Summary:
" ]
           ++ List.concat
                (mapi (fun i wt =>
                         SummarySpec.block chalk (res_route (resolved env)) i
                           wt
                           (flat_map extractUrls (chunks (ownEvents i done)))
                           (Spec.firstExit (ownEvents i (events env))))
                      (selection env worktrees))
           ++ globalSection chalk (res_route (resolved env))
                (SummarySpec.recordsAfter (selection env worktrees) done).
Proof.
  intros Hg Hw Hs Hall.
  pose proof (runCommand_total chalk env worktrees Hg Hw Hs Hall) as Hr.
  destruct (runCommand_settled chalk env worktrees _ Hg Hr)
    as (_ & _ & _ & _ & _ & _ & _ & _ & _ & Hsp).
  destruct (runCommand_finished chalk env worktrees _ Hg Hr)
    as (done & later & Hev & Hset & Hres & Hsum).
  split; [now rewrite Hr, Hres|].
  split; [exact Hsp|].
  exists done, later. split; [exact Hev|]. split; [exact Hset|].
  rewrite Hsum. unfold printSummary. do 3 f_equal.
  unfold SummarySpec.recordsAfter. rewrite mapi_mapi.
  apply mapi_ext. intros i wt Hi. rewrite summaryBlock_spec.
  cbn [worktree urls]. f_equal.
  rewrite Hres. apply nth_error_nth. rewrite nth_error_map, nth_error_seq.
  assert (Hlt : i < List.length (selection env worktrees))
    by (apply nth_error_Some; congruence).
  apply Nat.ltb_lt in Hlt. rewrite Hlt. reflexivity.
Qed.

Lemma all_outcomes_reported_witness :
  run_results (runCommand plainChalk Example.envOneFails)
  = Some [ Rejected $"Command exited with code 1"; Fulfilled ]
  /\ run_spawned (runCommand plainChalk Example.envOneFails)
     = [ ($"/repo", $"npm test"); ($"/repo-feature", $"npm test") ]
  /\ exists rest,
      run_summary (runCommand plainChalk Example.envOneFails)
      = [ $"

📊 Summary:
";
          $"✗ main (/repo)"; $"  Error: Command exited with code 1"; [];
          $"✓ feature (/repo-feature)"; $"  → http://localhost:3000"; [] ]
        ++ rest.
Proof.
  destruct (all_outcomes_reported plainChalk Example.envOneFails
              [Example.wtMain; Example.wtFeature] eq_refl
              ltac:(discriminate) ltac:(discriminate) eq_refl)
    as (Hr & Hsp & done & later & Hev & Hall & Hsum).
  split; [rewrite Hr; vm_compute; reflexivity|].
  split; [rewrite Hsp; vm_compute; reflexivity|].
  whole_run Hev Hall later.
  eexists. rewrite Hsum. vm_compute. reflexivity.
Defined.

Example summary_one_fails :
  run_summary (runCommand plainChalk Example.envOneFails)
  = [ $"

📊 Summary:
";
      $"✗ main (/repo)"; $"  Error: Command exited with code 1"; [];
      $"✓ feature (/repo-feature)"; $"  → http://localhost:3000"; [];
      $"🌐 All running services:
";
      $"  • http://localhost:3000"; [] ].
Proof. vm_compute. reflexivity. Qed.

(** * Further properties of the program *)

(** ** The line classifier *)

(** X1. A string that is a service URL is extracted whole from itself,
    and so is every URL that [extractUrls] returns. *)
Theorem extractUrls_of_url (u : jsstring) :
  Spec.isUrl u = true ->
  extractUrls u = [u]
  /\ (forall line v, In v (extractUrls line) -> extractUrls v = [v]).
Proof.
  assert (Hone : forall v, Spec.isUrl v = true -> extractUrls v = [v]).
  { intros v Hv. rewrite extractUrls_matchPositions.
    rewrite (matchPositions_of_url v Hv). cbn [map fst snd].
    unfold Str.substr. cbn [skipn]. rewrite firstn_all. reflexivity. }
  intros Hu. split; [now apply Hone|].
  intros line v Hv. apply Hone.
  rewrite extractUrls_matchPositions in Hv.
  apply dedup_In, in_map_iff in Hv as ([i n] & <- & Hin).
  apply scan_sound in Hin as [_ [_ H]]. rewrite Nat.sub_0_r in H. exact H.
Qed.

Lemma extractUrls_of_url_witness :
  Spec.isUrl $"https://LocalHost:8443" = true
  /\ extractUrls $"https://LocalHost:8443" = [$"https://LocalHost:8443"].
Proof.
  assert (H : Spec.isUrl $"https://LocalHost:8443" = true) by reflexivity.
  split; [exact H|]. exact (proj1 (extractUrls_of_url _ H)).
Defined.

(** X2. A line that contains one of the error keywords, in any letter
    case and anywhere in the line, is an error line: it is shown when the
    run is not verbose, once, in red, whatever else it contains. *)
Theorem error_keyword_anywhere (chalk : Chalk) (route : option jsstring)
    (prefix pre k k' post : jsstring) :
  In k errorKeywords ->
  Str.toLowerCase k' = k ->
  isErrorLine (pre ++ k' ++ post) = true
  /\ shouldShowLine (pre ++ k' ++ post) = true
  /\ renderLine chalk false route prefix (pre ++ k' ++ post)
     = [prefix ++ $" " ++ red chalk (pre ++ k' ++ post)].
Proof.
  intros Hk Hlow.
  assert (He : isErrorLine (pre ++ k' ++ post) = true).
  { unfold isErrorLine. apply existsb_exists. exists k. split; [exact Hk|].
    rewrite !toLowerCase_app, Hlow. apply includes_app. }
  assert (Hs : shouldShowLine (pre ++ k' ++ post) = true).
  { unfold shouldShowLine. rewrite He. now destruct (0 <? _). }
  split; [exact He|]. split; [exact Hs|].
  rewrite renderLine_quiet.
  - now rewrite Hs, He.
  - apply (not_blank_of isErrorLine); [reflexivity|].
    now rewrite isErrorLine_trim.
Qed.

Lemma error_keyword_anywhere_witness :
  In $"not found" errorKeywords
  /\ Str.toLowerCase $"Not Found" = $"not found"
  /\ renderLine plainChalk false None $"[main]"
                ($"sh: pnpm: command " ++ $"Not Found" ++ $" (127)")
     = [ $"[main] sh: pnpm: command Not Found (127)" ].
Proof.
  assert (H1 : In $"not found" errorKeywords) by (vm_compute; tauto).
  assert (H2 : Str.toLowerCase $"Not Found" = $"not found") by reflexivity.
  split; [exact H1|]. split; [exact H2|].
  destruct (error_keyword_anywhere plainChalk None $"[main]"
              $"sh: pnpm: command " _ _ $" (127)" H1 H2) as (_ & _ & E).
  rewrite E. reflexivity.
Defined.

(** X3. The URLs of a chunk are the URLs of its lines: a match never
    runs over the end of a line, so what the callback collects from the
    chunk as a whole is what it finds line by line, without the
    repetitions. *)
Theorem extractUrls_by_line (chunk : jsstring) :
  extractUrls chunk
  = Spec.dedup (flat_map extractUrls (Str.split "010"%char chunk))
  /\ (forall u, In u (extractUrls chunk) <->
      exists line, In line (Str.split "010"%char chunk)
                   /\ In u (extractUrls line)).
Proof.
  assert (E : extractUrls chunk
              = Spec.dedup (flat_map extractUrls (Str.split "010"%char chunk))).
  { rewrite extractUrls_matchedFrom.
    rewrite (matchedFrom_split "010"%char chunk eq_refl).
    unfold Spec.dedup. rewrite <- dedupFrom_flat_map_dedup.
    f_equal. apply flat_map_ext. intros line.
    symmetry. apply extractUrls_matchedFrom. }
  split; [exact E|].
  intros u. rewrite E, dedup_In, in_flat_map. reflexivity.
Qed.

Example extractUrls_by_line_two_lines :
  extractUrls $"Local: http://localhost:3000
Network: http://127.0.0.1:3000 (localhost:3000)"
  = [ $"http://localhost:3000"; $"http://127.0.0.1:3000"; $"localhost:3000" ].
Proof. vm_compute. reflexivity. Qed.

(** ** The processes of a run *)

(** X4. The promise of a process is settled once: after the event that
    settles it, no later event changes the outcome. A spawn error that
    is followed by a close with exit code 0 stays a failure. *)
Theorem settled_once (evs later : list ChildEvent) :
  isSettled (outcome evs) = true ->
  outcome (evs ++ later) = outcome evs.
Proof.
  intros H. unfold outcome. rewrite fold_left_app.
  now apply settle_settled.
Qed.

Lemma settled_once_witness :
  isSettled (outcome [Data $"sh: 1: pnpm: not found"; SpawnError $"spawn ENOENT"])
  = true
  /\ outcome ([Data $"sh: 1: pnpm: not found"; SpawnError $"spawn ENOENT"]
              ++ [Close (Some 0%Z)])
     = Rejected $"spawn ENOENT".
Proof.
  assert (H : isSettled (outcome [Data $"sh: 1: pnpm: not found";
                                  SpawnError $"spawn ENOENT"]) = true)
    by reflexivity.
  split; [exact H|].
  rewrite (settled_once _ [Close (Some 0%Z)] H). reflexivity.
Defined.

(** X5. There is no timeout: as long as the process of one selected
    worktree has neither closed nor failed to start, whatever it and the
    other processes have written, [runCommand] is still waiting and has
    printed no summary. *)
Theorem waiting_without_summary (chalk : Chalk) (env : Env)
    (worktrees : list Worktree) (i : nat) :
  git_worktrees env = inr worktrees ->
  i < List.length (selection env worktrees) ->
  (forall ev, In ev (ownEvents i (events env)) -> exists chunk, ev = Data chunk) ->
  run_results (runCommand chalk env) = None
  /\ run_summary (runCommand chalk env) = []
  /\ run_exit (runCommand chalk env) = None.
Proof.
  intros Hg Hi Hdata.
  pose proof (outcome_only_data _ Hdata) as Hp.
  assert (Hnone : run_results (runCommand chalk env) = None).
  { destruct (run_results (runCommand chalk env)) as [results|] eqn:Hr;
      [|reflexivity].
    exfalso.
    destruct (runCommand_settled chalk env worktrees results Hg Hr)
      as (_ & _ & _ & _ & _ & Hlen & _ & Hres & _).
    destruct (nth_error results i) as [p|] eqn:E.
    - destruct (Hres i p E) as [-> Hs]. rewrite Hp in Hs. discriminate.
    - apply nth_error_None in E. lia. }
  split; [exact Hnone|].
  revert Hnone. unfold runCommand. rewrite Hg.
  destruct (List.length worktrees =? 0); [intros _; split; reflexivity|].
  destruct (List.length (selection env worktrees) =? 0);
    [intros _; split; reflexivity|].
  cbv zeta.
  destruct (awaitAllSettled _ _ _ _ _ _) as [[st later]|];
    [discriminate|intros _; split; reflexivity].
Qed.

Lemma waiting_without_summary_witness :
  let env :=
    {| config_file := NoConfigFile; git_worktrees := inr [Example.wtMain; Example.wtFeature];
       opt_all := true; opt_verbose := false; prompt_selected := [];
       resolved := Example.noRoute $"pnpm dev";
       events := [ (0, Data $"ready on http://localhost:3000");
                   (1, Close (Some 1%Z)) ] |} in
  run_results (runCommand plainChalk env) = None
  /\ run_summary (runCommand plainChalk env) = [].
Proof.
  intros env.
  assert (H : forall ev, In ev (ownEvents 0 (events env)) ->
                         exists chunk, ev = Data chunk).
  { intros ev [<-|[]]. eexists. reflexivity. }
  destruct (waiting_without_summary plainChalk env
              [Example.wtMain; Example.wtFeature] 0 eq_refl
              ltac:(simpl; lia) H) as (H1 & H2 & _).
  split; assumption.
Defined.

(** X6. The record of a worktree is touched by the events of its own
    process only. After any events, it holds the worktree it was made
    for, the raw chunks of that process in the order of arrival, and the
    URLs of those chunks; two runs in which the process of a worktree
    sends the same events leave the same record for it, whatever the
    other processes do. *)
Theorem records_isolated (chalk : Chalk) (verbose : bool)
    (route : option jsstring) (selected : list Worktree)
    (lines : list jsstring) (evs : list (nat * ChildEvent)) (i : nat) :
  (forall info,
      nth_error
        (processInfos (handleAll chalk verbose route selected
                                 (initialState lines selected) evs)) i
      = Some info ->
      nth_error selected i = Some (worktree info)
      /\ output info = chunks (ownEvents i evs)
      /\ urls info = flat_map extractUrls (output info))
  /\ (forall evs',
         ownEvents i evs' = ownEvents i evs ->
         nth_error
           (processInfos (handleAll chalk verbose route selected
                                    (initialState lines selected) evs')) i
         = nth_error
             (processInfos (handleAll chalk verbose route selected
                                      (initialState lines selected) evs)) i).
Proof.
  pose proof (wellFormed_initial selected lines) as Hwf.
  split.
  - intros info Hi.
    apply handleAll_info_inv in Hi as (info0 & H0 & ->); [|exact Hwf].
    pose proof (initial_info _ _ _ _ H0) as [Hu Ho].
    cbn [worktree output urls]. rewrite Hu, Ho. cbn [app].
    split; [|split; reflexivity].
    cbn [initialState processInfos] in H0. rewrite nth_error_map in H0.
    destruct (nth_error selected i) as [wt|]; [|discriminate].
    injection H0 as <-. reflexivity.
  - intros evs' Hown.
    destruct (nth_error (processInfos (initialState lines selected)) i)
      as [info0|] eqn:E0.
    + rewrite !(handleAll_info chalk verbose route selected _ _ i info0 Hwf E0).
      now rewrite Hown.
    + now rewrite !handleAll_info_None.
Qed.

(** X7. In a verbose run the callback writes every line of a chunk that
    is not blank, in the order of the chunk, unchanged behind the tag of
    the worktree: nothing is filtered, coloured or added. So a verbose
    run hides nothing that a quiet run shows: a line of the chunk for
    which the quiet run writes something is written by the verbose run,
    as it is. *)
Theorem verbose_output (chalk : Chalk) (route : option jsstring)
    (prefix : jsstring) (info : ProcessInfo) (chunk : jsstring) :
  snd (onOutput chalk true route prefix info chunk)
  = map (fun line => prefix ++ $" " ++ line)
        (filter (fun line =>
                   match Str.trim line with [] => false | _ :: _ => true end)
                (Str.split "010"%char chunk))
  /\ (forall quietRoute line,
        In line (Str.split "010"%char chunk) ->
        renderLine chalk false quietRoute prefix line <> [] ->
        In (prefix ++ $" " ++ line)
           (snd (onOutput chalk true route prefix info chunk))).
Proof.
  assert (E : snd (onOutput chalk true route prefix info chunk)
              = map (fun line => prefix ++ $" " ++ line)
                    (filter (fun line =>
                               match Str.trim line with
                               | [] => false
                               | _ :: _ => true
                               end)
                            (Str.split "010"%char chunk))).
  { unfold onOutput. cbn [snd].
    induction (Str.split "010"%char chunk) as [|line ls IH]; [reflexivity|].
    cbn [flat_map filter]. rewrite IH. unfold renderLine.
    destruct (Str.trim line); reflexivity. }
  split; [exact E|].
  intros quietRoute line Hin Hq. rewrite E.
  apply (in_map (fun line => prefix ++ $" " ++ line)).
  apply filter_In. split; [exact Hin|].
  destruct (Str.trim line) eqn:Et; [|reflexivity].
  exfalso. apply Hq. now apply renderLine_blank.
Qed.

(** X8. The colours repeat after twelve worktrees: two worktrees whose
    positions in the selection differ by a multiple of twelve get the
    same colour, and the same tag when they are on the same branch. *)
Theorem colours_cycle (chalk : Chalk) (index k : nat) (wt : Worktree) :
  getWorktreeColor chalk (index + 12 * k) = getWorktreeColor chalk index
  /\ linePrefix chalk (index + 12 * k) wt = linePrefix chalk index wt.
Proof.
  assert (E : getWorktreeColor chalk (index + 12 * k)
              = getWorktreeColor chalk index).
  { unfold getWorktreeColor. cbn [List.length].
    rewrite (Nat.mul_comm 12 k), Nat.Div0.mod_add. reflexivity. }
  split; [exact E|]. unfold linePrefix. now rewrite E.
Qed.

(** ** Reading the list of worktrees *)

(** X9. [parseWorktrees] reads back what git prints: for worktrees whose
    paths, commit ids and branch names are on one line, whose commit ids
    are made of ASCII characters and whose branch names do not end with
    white space, listed in the porcelain format (a [worktree] line, a
    [HEAD] line, a [branch] or [detached] line, or a [bare] line, and an
    empty line), it returns one worktree per entry, in the order of the
    list, with the path, the branch name without [refs/heads/]
    ([detached] when there is none) and the first seven characters of
    the commit id (none for a bare worktree). *)
Theorem parseWorktrees_porcelain (es : list Porcelain.Listed) :
  forallb Porcelain.wellFormed es = true ->
  parseWorktrees (Porcelain.render es) = map Porcelain.worktreeOf es.
Proof.
  intros H. destruct es as [|e0 es0]; [reflexivity|].
  set (es := e0 :: es0) in *.
  destruct (allLines_shape es ltac:(discriminate) H)
    as (front & c & l & E & Hn & Hl & y & ys & Ey).
  unfold parseWorktrees, Porcelain.render. rewrite E.
  rewrite render_joinLines by (destruct front; discriminate).
  assert (Hj : exists x, joinLines (front ++ [c :: l]) = "w"%char :: x).
  { rewrite Ey. apply joinLines_first. }
  destruct Hj as (x & Hj).
  assert (Ht : Str.trim (joinLines (front ++ [c :: l]) ++ [Text.LF; Text.LF])
               = joinLines (front ++ [c :: l])).
  { rewrite Hj. apply trim_exact; [reflexivity| |reflexivity].
    rewrite <- Hj. destruct (joinLines_end front (c :: l)) as (pre & Ej).
    rewrite Ej, rev_app_distr. apply Hl. }
  rewrite Ht, split_joinLines by (assumption || destruct front; discriminate).
  rewrite <- parseLines_snoc_blank, <- E. now apply parseLines_entries.
Qed.

Lemma parseWorktrees_porcelain_witness :
  let es :=
    [ {| Porcelain.l_path := $"/home/me/my repo";
         Porcelain.l_head := $"a1b2c3d4e5f60718293a4b5c6d7e8f9012345678";
         Porcelain.l_checkout := Porcelain.OnBranch $"main" |};
      {| Porcelain.l_path := $"/home/me/my repo-fix";
         Porcelain.l_head := $"0f1e2d3c4b5a69788796a5b4c3d2e1f001234567";
         Porcelain.l_checkout := Porcelain.Detached |} ] in
  forallb Porcelain.wellFormed es = true
  /\ parseWorktrees (Porcelain.render es)
     = [ {| path := $"/home/me/my repo"; branch := $"main";
            commit := $"a1b2c3d" |};
         {| path := $"/home/me/my repo-fix"; branch := $"detached";
            commit := $"0f1e2d3" |} ].
Proof.
  intros es.
  assert (H : forallb Porcelain.wellFormed es = true) by reflexivity.
  split; [exact H|].
  rewrite (parseWorktrees_porcelain es H). reflexivity.
Defined.

(** X10. Whatever the text, [parseWorktrees] returns one worktree per
    line of the trimmed text that starts with [worktree ], in the order
    of the lines, its path being the rest of that line; the commit of a
    worktree has at most seven characters (code units); a text of white
    space only, that of Unicode included, gives no worktree. *)
Theorem parseWorktrees_any (output : jsstring) :
  map path (parseWorktrees output)
  = map (skipn 9)
        (filter (Str.startsWith $"worktree ")
                (Str.split Text.LF (Str.trim output)))
  /\ Forall (fun wt => units (commit wt) <= 7) (parseWorktrees output)
  /\ (Str.trim output = [] -> parseWorktrees output = []).
Proof.
  unfold parseWorktrees. split; [apply parseLines_paths|].
  split; [apply parseLines_commit|].
  intros ->. reflexivity.
Qed.

Example parseWorktrees_wide_space :
  parseWorktrees
    (Str.bytes [194; 160] ++ $"worktree /repo
HEAD a1b2c3d4e5f60718293a4b5c6d7e8f9012345678
branch refs/heads/x" ++ Str.bytes [194; 160; 10; 10])
  = [ {| path := $"/repo"; branch := $"x"; commit := $"a1b2c3d" |} ].
Proof. vm_compute. reflexivity. Qed.

(** ** The command line *)

(** X11. The value of an option is the argument after the first short
    form of the option, wherever the long form is: when the short form
    is the last argument, or is followed by an empty argument, the
    option has no value, even if the long form was given with one. *)
Theorem option_short_form_first (short long : jsstring)
    (pre : list jsstring) :
  ~ In short pre ->
  (forall v post,
      v <> [] -> optionValue short long (pre ++ short :: v :: post) = Some v)
  /\ optionValue short long (pre ++ [short]) = None
  /\ (forall post, optionValue short long (pre ++ short :: [] :: post) = None).
Proof.
  intros H. unfold optionValue. split; [|split].
  - intros v post Hv. rewrite indexOf_app, nth_error_after by assumption.
    cbn [nth_error]. destruct v; [congruence|reflexivity].
  - rewrite indexOf_app, nth_error_after by assumption. reflexivity.
  - intros post. rewrite indexOf_app, nth_error_after by assumption.
    reflexivity.
Qed.

Lemma option_short_form_first_witness :
  ~ In $"-c" [ $"run"; $"--command"; $"pnpm build" ]
  /\ o_command (parseOptions [ $"run"; $"--command"; $"pnpm build"; $"-c" ])
     = None
  /\ o_command (parseOptions [ $"run"; $"--command"; $"pnpm build"; $"-c";
                               $"pnpm dev"; $"-a" ])
     = Some $"pnpm dev".
Proof.
  assert (H : ~ In $"-c" [ $"run"; $"--command"; $"pnpm build" ]).
  { intros [E|[E|[E|[]]]]; discriminate E. }
  split; [exact H|].
  destruct (option_short_form_first $"-c" $"--command" _ H) as (H1 & H2 & _).
  split.
  - exact H2.
  - apply (H1 $"pnpm dev" [ $"-a" ]). discriminate.
Defined.

(** ** Removing worktrees *)

(** X12. [removeWorktrees] leaves the main worktree alone. The prompt
    offering only the worktrees after the first one, every git command
    it runs removes, forcibly or not, one of those; when no other
    worktree has the path of the first one, no command names that
    path. *)
Theorem main_worktree_kept (chalk : Chalk) (World : Type)
    (execGit : World -> jsstring -> World * option jsstring)
    (env : RemoveEnv) (w : World) (stdout : jsstring) :
  rm_list env = inr stdout ->
  (rm_all env = false ->
   incl (rm_selected env) (tl (parseWorktrees stdout))) ->
  (forall cmd,
      In cmd (rr_commands World (removeWorktrees chalk World execGit env w)) ->
      exists wt,
        In wt (tl (parseWorktrees stdout))
        /\ (cmd = removeCommand (path wt)
            \/ cmd = forceRemoveCommand (path wt)))
  /\ (forall main,
         hd_error (parseWorktrees stdout) = Some main ->
         ~ In (path main) (map path (tl (parseWorktrees stdout))) ->
         ~ In (removeCommand (path main))
              (rr_commands World (removeWorktrees chalk World execGit env w))
         /\ ~ In (forceRemoveCommand (path main))
                 (rr_commands World
                    (removeWorktrees chalk World execGit env w))).
Proof.
  intros Hl Hsel.
  assert (Hcmd : forall cmd,
             In cmd (rr_commands World
                       (removeWorktrees chalk World execGit env w)) ->
             exists wt,
               In wt (tl (parseWorktrees stdout))
               /\ (cmd = removeCommand (path wt)
                   \/ cmd = forceRemoveCommand (path wt))).
  { intros cmd Hin.
    destruct (removeWorktrees_cases chalk World execGit env w stdout Hl)
      as [(lines & E)|(_ & E)]; rewrite E in Hin; [destruct Hin|].
    destruct (removeAll_fields chalk World execGit w (toRemove env stdout))
      as (Ec & _). rewrite Ec in Hin.
    apply removeEach_commands in Hin as (wt & Hwt & Hc).
    exists wt. split; [|exact Hc].
    unfold toRemove in Hwt. destruct (rm_all env); [exact Hwt|].
    now apply Hsel. }
  split; [exact Hcmd|].
  intros main Hmain Hpath. split; intros Hin;
    destruct (Hcmd _ Hin) as (wt & Hwt & [Hc|Hc]).
  - apply removeCommand_inj in Hc. apply Hpath. rewrite Hc.
    now apply in_map.
  - now apply remove_not_force in Hc.
  - symmetry in Hc. now apply remove_not_force in Hc.
  - apply forceRemoveCommand_inj in Hc. apply Hpath. rewrite Hc.
    now apply in_map.
Qed.

(** X13. Nothing is removed without a confirmation: when the answer to
    the confirmation is no, [removeWorktrees] runs no git command,
    leaves everything as it is and returns without an error code. *)
Theorem nothing_removed_unconfirmed (chalk : Chalk) (World : Type)
    (execGit : World -> jsstring -> World * option jsstring)
    (env : RemoveEnv) (w : World) (stdout : jsstring) :
  rm_list env = inr stdout ->
  confirmed env = false ->
  rr_commands World (removeWorktrees chalk World execGit env w) = []
  /\ rr_world World (removeWorktrees chalk World execGit env w) = w
  /\ rr_exit World (removeWorktrees chalk World execGit env w) = None.
Proof.
  intros Hl Hc.
  destruct (removeWorktrees_cases chalk World execGit env w stdout Hl)
    as [(lines & E)|(Hc' & _)]; [|congruence].
  rewrite E. repeat split.
Qed.

(** X14. Once confirmed, every worktree to remove is tried, in order,
    whatever happened to the ones before it: the plain removals that run
    are those of the worktrees to remove, one each, and each worktree
    gets one line of report, saying that it was removed, that it was
    removed by force, or that it could not be removed. *)
Theorem every_worktree_tried (chalk : Chalk) (World : Type)
    (execGit : World -> jsstring -> World * option jsstring)
    (env : RemoveEnv) (w : World) (stdout : jsstring) :
  rm_list env = inr stdout ->
  tl (parseWorktrees stdout) <> [] ->
  toRemove env stdout <> [] ->
  confirmed env = true ->
  filter (fun cmd => negb (isForce cmd))
         (rr_commands World (removeWorktrees chalk World execGit env w))
  = map (fun wt => removeCommand (path wt)) (toRemove env stdout)
  /\ exists first report last,
      rr_console World (removeWorktrees chalk World execGit env w)
      = [first] ++ report ++ [last]
      /\ Forall2 (fun wt line =>
                    line = removedLine chalk wt
                    \/ line = forceRemovedLine chalk wt
                    \/ exists message, line = failedLine chalk wt message)
                 (toRemove env stdout) report.
Proof.
  intros Hl Htl Hsel Hc.
  rewrite (removeWorktrees_confirmed chalk World execGit env w stdout
             Hl Htl Hsel Hc).
  destruct (removeAll_fields chalk World execGit w (toRemove env stdout))
    as (Ec & Eo & _).
  rewrite Ec, Eo. split; [apply removeEach_attempts|].
  eexists; eexists; eexists. split; [reflexivity|].
  apply removeEach_lines.
Qed.

Lemma main_worktree_kept_witness :
  rm_list Example2.removeAllConfirmed = inr (Porcelain.render Example2.listed)
  /\ rr_commands (list jsstring)
       (removeWorktrees plainChalk (list jsstring) Example2.git
                        Example2.removeAllConfirmed [])
     = [ removeCommand $"/repo-feature"; forceRemoveCommand $"/repo-feature";
         removeCommand $"/repo-fix" ]
  /\ ~ In (removeCommand $"/repo")
          (rr_commands (list jsstring)
             (removeWorktrees plainChalk (list jsstring) Example2.git
                              Example2.removeAllConfirmed [])).
Proof.
  split; [reflexivity|]. split; [vm_compute; reflexivity|].
  destruct (main_worktree_kept plainChalk (list jsstring) Example2.git
              Example2.removeAllConfirmed [] _ eq_refl
              ltac:(intros H; discriminate H)) as (_ & H).
  refine (proj1 (H {| path := $"/repo"; branch := $"main";
                      commit := $"a1b2c3d" |} _ _)).
  - vm_compute. reflexivity.
  - vm_compute. intros [E|[E|[]]]; discriminate E.
Defined.

Lemma nothing_removed_unconfirmed_witness :
  confirmed Example2.removeAllDeclined = false
  /\ rr_commands (list jsstring)
       (removeWorktrees plainChalk (list jsstring) Example2.git
                        Example2.removeAllDeclined [])
     = [].
Proof.
  split; [reflexivity|].
  exact (proj1 (nothing_removed_unconfirmed plainChalk (list jsstring)
                  Example2.git Example2.removeAllDeclined [] _
                  eq_refl eq_refl)).
Defined.

Lemma every_worktree_tried_witness :
  confirmed Example2.removeAllConfirmed = true
  /\ filter (fun cmd => negb (isForce cmd))
            (rr_commands (list jsstring)
               (removeWorktrees plainChalk (list jsstring) Example2.git
                                Example2.removeAllConfirmed []))
     = [ removeCommand $"/repo-feature"; removeCommand $"/repo-fix" ].
Proof.
  split; [reflexivity|].
  assert (H1 : tl (parseWorktrees (Porcelain.render Example2.listed)) <> [])
    by (vm_compute; discriminate).
  assert (H2 : toRemove Example2.removeAllConfirmed
                        (Porcelain.render Example2.listed) <> [])
    by (vm_compute; discriminate).
  destruct (every_worktree_tried plainChalk (list jsstring) Example2.git
              Example2.removeAllConfirmed [] _ eq_refl H1 H2 eq_refl)
    as (E & _).
  rewrite E. vm_compute. reflexivity.
Defined.

Example remove_all_report :
  rr_console (list jsstring)
    (removeWorktrees plainChalk (list jsstring) Example2.git
                     Example2.removeAllConfirmed [])
  = [ $"
🗑️  Removing 2 worktree(s)...
";
      $"⚠ Force removed: feature (/repo-feature)";
      $"✓ Removed: detached (/repo-fix)";
      $"
✨ Done!
" ].
Proof. vm_compute. reflexivity. Qed.

(** ** The configuration *)

(** X15. The menu of the commands is built in the array of the
    configuration itself. When [runCommand] asks for the command, the
    user enters a new one and has it saved, the list of saved commands
    written to the configuration file is, for a configuration that had
    such a list, the whole menu (the entry of the default command, the
    saved commands and [Enter custom command...]) with the new command
    added unless it is in the menu; for a configuration without the
    list it is the new command alone. *)
Theorem saved_commands_take_menu (chalk : Chalk) (options : Options)
    (config : Config) (answers : CommandAnswers) :
  o_command options = None ->
  o_useDefaultCommand options = false ->
  commandChoice answers = $"Enter custom command..." ->
  saveCommand answers = true ->
  exists written,
    s_written (resolveCommand chalk options config answers) = [written]
    /\ s_value (resolveCommand chalk options config answers)
       = Some (customCommand answers)
    /\ savedCommands written
       = Some (pushNew
                 (match savedCommands config with
                  | Some saved =>
                      Some ((if truthy (defaultCommand config)
                             then [textOf (defaultCommand config)
                                   ++ $" (default)"]
                             else [])
                            ++ saved ++ [ $"Enter custom command..." ])
                  | None => None
                  end)
                 (customCommand answers))
    /\ (forall saved,
           savedCommands config = Some saved ->
           In $"Enter custom command..." (orEmpty (savedCommands written))).
Proof.
  intros Hc Hd Hch Hs. unfold resolveCommand.
  rewrite Hc, Hd, Hch, Hs. cbn [andb truthy].
  destruct (Str.eq_dec _ _) as [_|Hne]; [|congruence].
  eexists. split; [reflexivity|]. split; [reflexivity|].
  cbn [s_written savedCommands setSavedCommands].
  assert (E : savedCommands
                (if setAsDefault answers
                 then setDefaultCommand (Some (customCommand answers))
                        (setSavedCommands
                           (aliased (savedCommands config)
                              (choicesOf (savedCommands config)
                                 (defaultCommand config)
                                 [ $"Enter custom command..." ])) config)
                 else setSavedCommands
                        (aliased (savedCommands config)
                           (choicesOf (savedCommands config)
                              (defaultCommand config)
                              [ $"Enter custom command..." ])) config)
              = aliased (savedCommands config)
                  (choicesOf (savedCommands config) (defaultCommand config)
                             [ $"Enter custom command..." ]))
    by (destruct (setAsDefault answers); reflexivity).
  rewrite E. unfold aliased, choicesOf.
  split; [destruct (savedCommands config); reflexivity|].
  intros saved ->. cbn [orEmpty pushNew].
  destruct (Text.includes _ _).
  - apply in_or_app. right. apply in_or_app. right. now left.
  - apply in_or_app. left. apply in_or_app. right. apply in_or_app.
    right. now left.
Qed.

Lemma saved_commands_take_menu_witness :
  commandChoice Example2.customAndSave = $"Enter custom command..."
  /\ map savedCommands
         (s_written (resolveCommand plainChalk Example2.noOptions
                                    Example2.config Example2.customAndSave))
     = [ Some [ $"pnpm dev (default)"; $"pnpm dev"; $"pnpm build";
                $"Enter custom command..."; $"pnpm test" ] ].
Proof.
  split; [reflexivity|].
  destruct (saved_commands_take_menu plainChalk Example2.noOptions
              Example2.config Example2.customAndSave
              eq_refl eq_refl eq_refl eq_refl) as (written & Ew & _ & Es & _).
  rewrite Ew. cbn [map]. rewrite Es. reflexivity.
Defined.

(** X16. When [runCommand] asks for the command and the user picks an
    entry of the menu, the command that runs is the entry without its
    first [ (default)]: a saved command in which [ (default)] does not
    occur runs as it is, and so does the default command when its entry
    is picked; nothing is written to the configuration file. *)
Theorem chosen_command_runs (chalk : Chalk) (options : Options)
    (config : Config) (answers : CommandAnswers) (d : jsstring) :
  o_command options = None ->
  o_useDefaultCommand options = false ->
  commandChoice answers <> $"Enter custom command..." ->
  Str.includes $" (default)" d = false ->
  commandChoice answers = d \/ commandChoice answers = d ++ $" (default)" ->
  s_value (resolveCommand chalk options config answers) = Some d
  /\ s_written (resolveCommand chalk options config answers) = [].
Proof.
  intros Hc Hd Hne Hin Hch. unfold resolveCommand.
  rewrite Hc, Hd. cbn [andb truthy].
  destruct (Str.eq_dec _ _) as [E|_]; [congruence|].
  cbn [s_value s_written]. split; [|reflexivity]. f_equal.
  destruct Hch as [->| ->].
  - now apply replace_absent.
  - now apply replace_default_label.
Qed.

Lemma chosen_command_runs_witness :
  commandChoice Example2.pickDefault <> $"Enter custom command..."
  /\ Str.includes $" (default)" $"pnpm dev" = false
  /\ s_value (resolveCommand plainChalk Example2.noOptions Example2.config
                             Example2.pickDefault)
     = Some $"pnpm dev".
Proof.
  assert (H1 : commandChoice Example2.pickDefault <> $"Enter custom command...")
    by discriminate.
  assert (H2 : Str.includes $" (default)" $"pnpm dev" = false) by reflexivity.
  split; [exact H1|]. split; [exact H2|].
  exact (proj1 (chosen_command_runs plainChalk Example2.noOptions
                  Example2.config Example2.pickDefault $"pnpm dev"
                  eq_refl eq_refl H1 H2 (or_intror eq_refl))).
Defined.

(** X17. Adding through [manageConfig] does not repeat an entry: after a
    command, a route or a file has been added, the list holds it, keeps
    its earlier entries in their places, has no repetition if it had none
    before, and adding the same entry again changes nothing; every add
    writes the configuration once. *)
Theorem add_is_idempotent (chalk : Chalk) (stringify : Config -> jsstring)
    (config : Config) (action : ConfigAction) (x : jsstring)
    (before : option (list jsstring)) :
  In action [AddSavedCommand x; AddSavedRoute x; AddFileToCopy x] ->
  listOf action config = Some before ->
  let after := fst (fst (manageConfig chalk stringify config action)) in
  listOf action after = Some (Some (pushNew before x))
  /\ In x (pushNew before x)
  /\ (exists more, pushNew before x = orEmpty before ++ more)
  /\ (NoDup (orEmpty before) -> NoDup (pushNew before x))
  /\ snd (fst (manageConfig chalk stringify config action)) = [after]
  /\ fst (fst (manageConfig chalk stringify after action)) = after.
Proof.
  intros Hact Hlist after.
  assert (Hagain : forall l, pushNew (Some (pushNew l x)) x = pushNew l x)
    by (intros l; apply pushNew_again).
  split; [|split; [apply pushNew_In|split; [apply pushNew_keeps|
          split; [apply pushNew_NoDup|]]]].
  - destruct Hact as [<-|[<-|[<-|[]]]]; cbn in Hlist; injection Hlist as <-;
      reflexivity.
  - destruct Hact as [<-|[<-|[<-|[]]]]; cbn in Hlist; injection Hlist as <-;
      (split; [reflexivity|]); subst after;
      cbn [manageConfig fst savedCommands savedRoutes filesToCopy
           setSavedCommands setSavedRoutes setFilesToCopy];
      rewrite Hagain; reflexivity.
Qed.

Lemma add_is_idempotent_witness :
  listOf (AddSavedCommand $"pnpm test") Example2.config
  = Some (Some [ $"pnpm dev"; $"pnpm build" ])
  /\ listOf (AddSavedCommand $"pnpm test")
            (fst (fst (manageConfig plainChalk (fun _ => []) Example2.config
                                    (AddSavedCommand $"pnpm test"))))
     = Some (Some [ $"pnpm dev"; $"pnpm build"; $"pnpm test" ])
  /\ fst (fst (manageConfig plainChalk (fun _ => [])
                 (fst (fst (manageConfig plainChalk (fun _ => [])
                              Example2.config (AddSavedCommand $"pnpm test"))))
                 (AddSavedCommand $"pnpm test")))
     = fst (fst (manageConfig plainChalk (fun _ => []) Example2.config
                              (AddSavedCommand $"pnpm test"))).
Proof.
  split; [reflexivity|].
  destruct (add_is_idempotent plainChalk (fun _ => []) Example2.config
              (AddSavedCommand $"pnpm test") $"pnpm test" _
              (or_introl eq_refl) eq_refl) as (H1 & _ & _ & _ & _ & H2).
  split; [exact H1|exact H2].
Defined.

(** X18. The configuration object is written as a whole. When
    [runCommand] has asked for the command, the user has picked an entry
    of the menu, and then enters a new route and has it saved, the
    configuration written for the route holds, as the saved commands of a
    configuration that had some, the menu of the commands: the entry of
    the default command, the saved commands and
    [Enter custom command...]. *)
Theorem route_save_writes_command_menu (chalk : Chalk) (options : Options)
    (config : Config) (commandAnswers : CommandAnswers)
    (routeAnswers : RouteAnswers) (saved : list jsstring) :
  o_command options = None ->
  o_useDefaultCommand options = false ->
  o_route options = None ->
  savedCommands config = Some saved ->
  commandChoice commandAnswers <> $"Enter custom command..." ->
  routeChoice routeAnswers = $"Enter custom route..." ->
  saveRoute routeAnswers = true ->
  exists written,
    snd (resolveRun chalk options config commandAnswers routeAnswers)
    = [written]
    /\ savedCommands written
       = Some ((if truthy (defaultCommand config)
                then [textOf (defaultCommand config) ++ $" (default)"]
                else [])
               ++ saved ++ [ $"Enter custom command..." ])
    /\ res_route (fst (resolveRun chalk options config commandAnswers
                                  routeAnswers))
       = Some (customRoute routeAnswers)
    /\ In (customRoute routeAnswers) (orEmpty (savedRoutes written)).
Proof.
  intros Hc Hd Hr Hs Hne Hch Hsave.
  unfold resolveRun, resolveCommand, resolveRoute.
  rewrite Hc, Hd, Hr, Hs, Hch, Hsave. cbn [andb truthy].
  destruct (Str.eq_dec (commandChoice commandAnswers) _) as [E|_];
    [congruence|].
  cbn [s_config s_written s_value s_log app].
  destruct (Str.eq_dec _ _) as [_|E]; [|congruence].
  cbn [fst snd res_route s_value s_written app].
  eexists. split; [reflexivity|]. split; [|split; [reflexivity|]].
  - destruct (setAsDefaultRoute routeAnswers); reflexivity.
  - cbn [savedRoutes setSavedRoutes orEmpty]. apply pushNew_In.
Qed.

Lemma route_save_writes_command_menu_witness :
  commandChoice Example2.pickDefault <> $"Enter custom command..."
  /\ map savedCommands
         (snd (resolveRun plainChalk Example2.noOptions Example2.config
                 Example2.pickDefault
                 {| routeChoice := $"Enter custom route...";
                    customRoute := $"/pitchdeck/1"; saveRoute := true;
                    setAsDefaultRoute := false |}))
     = [ Some [ $"pnpm dev (default)"; $"pnpm dev"; $"pnpm build";
                $"Enter custom command..." ] ].
Proof.
  assert (H : commandChoice Example2.pickDefault <> $"Enter custom command...")
    by discriminate.
  split; [exact H|].
  destruct (route_save_writes_command_menu plainChalk Example2.noOptions
              Example2.config Example2.pickDefault
              {| routeChoice := $"Enter custom route...";
                 customRoute := $"/pitchdeck/1"; saveRoute := true;
                 setAsDefaultRoute := false |}
              _ eq_refl eq_refl eq_refl eq_refl H eq_refl eq_refl)
    as (written & Ew & Es & _).
  rewrite Ew. cbn [map]. rewrite Es. reflexivity.
Defined.

(** ** Copying files *)





Example copy_and_remember :
  let run :=
    copyFiles plainChalk Example3.join Example3.dir (list jsstring)
              Example3.read Example3.exists_ Example3.mkdir Example3.copy
              Example3.save Example3.copyAndRemember
              [ $"/repo/.env.local"; $"/repo-feature" ] in
  cr_console (list jsstring) run
  = [ $"✓ File saved to config";
      $"
📋 Copying .env.local to 1 worktree(s)...
";
      $"✓ feature: .env.local copied";
      $"
✨ Done!
" ]
  /\ cr_ops (list jsstring) run
     = [ SaveConfig $"/repo"
           {| defaultCommand := None; savedCommands := None;
              defaultRoute := None; savedRoutes := None;
              filesToCopy := Some [ $".env.local" ] |};
         CopyFile $"/repo/.env.local" $"/repo-feature/.env.local" ].
Proof. vm_compute. split; reflexivity. Qed.
